(** * CardLayout: a player's hand (or a discard pile) and its layout pass

    A shallow embedding of [packages/client/src/game/ui/CardLayout.ts] and of
    the updaters of the efficiency labels and of the pace label that ship
    next to it.

    Numbers.  A JavaScript [number] is read as a real number: arithmetic is
    exact, and NaN, the infinities and rounding are outside the model.  The
    comparisons of the source ([<=], [>], [<]) are the decidable comparisons
    of [R].

    Objects.  A [LayoutChild] is a record of the attributes the layout pass
    reads and writes; the children of a container are a list, in display
    order, and a child is named by its index in that list.  Calls into
    collaborators whose code is not in [CardLayout.ts] (the card visual, the
    draggability check, the tween driver) are recorded, in order, in a call
    log, so that "is called" and "is never called" are statements about the
    log.

    Divisions.  A division by zero has no real value (the program gets an
    infinity or NaN); the arithmetic of a pass before its second loop is
    therefore written with [divide], which keeps the divisors evaluated next
    to the value, so that "does not divide by zero" is a statement about the
    computation itself. *)

From Stdlib Require Import Reals Lra Lia List String Bool Arith ZArith.
From Stdlib Require Import DecimalString DecimalPos DecimalZ.
Import ListNotations.

Local Open Scope R_scope.
Local Open Scope string_scope.
Local Open Scope list_scope.

(* ------------------------------------------------------------------ *)
(** ** Results of fallible code *)

(** A JavaScript function either returns or throws. *)
Inductive Result (A : Type) : Type :=
| Ok (a : A)
| Throw (msg : string).

Arguments Ok {A} a.
Arguments Throw {A} msg.

(* ------------------------------------------------------------------ *)
(** ** Scene-graph data *)

Record Vector2d : Type := mkVec { vx : R; vy : R }.

(** [Konva.Easings]; the layout pass only ever asks for [EaseOut]. *)
Inductive Easing : Type := Linear | EaseIn | EaseOut | EaseInOut.

(** The configuration object handed to [animate], with its completion
    callback.  The two closures that [doLayout] builds are named by what they
    do: [layoutFinished] is the [onFinish] of the layout tween (lines
    156-159), [misplayFinished] the [onFinish] of the misplay tween (lines
    186-189), which captures [animateToLayout], that is the configuration of
    the layout tween it will start. *)
Inductive TweenConfig : Type :=
| mkTween (duration x y scale rotation opacity : R)
          (easing : Easing) (onFinish : Callback)
with Callback : Type :=
| layoutFinished
| misplayFinished (animateToLayout : TweenConfig).

Definition tc_duration (cfg : TweenConfig) : R :=
  match cfg with mkTween d _ _ _ _ _ _ _ => d end.
Definition tc_x (cfg : TweenConfig) : R :=
  match cfg with mkTween _ x _ _ _ _ _ _ => x end.
Definition tc_y (cfg : TweenConfig) : R :=
  match cfg with mkTween _ _ y _ _ _ _ _ => y end.
Definition tc_scale (cfg : TweenConfig) : R :=
  match cfg with mkTween _ _ _ s _ _ _ _ => s end.
Definition tc_rotation (cfg : TweenConfig) : R :=
  match cfg with mkTween _ _ _ _ r _ _ _ => r end.
Definition tc_opacity (cfg : TweenConfig) : R :=
  match cfg with mkTween _ _ _ _ _ o _ _ => o end.
Definition tc_easing (cfg : TweenConfig) : Easing :=
  match cfg with mkTween _ _ _ _ _ _ e _ => e end.
Definition tc_onFinish (cfg : TweenConfig) : Callback :=
  match cfg with mkTween _ _ _ _ _ _ _ cb => cb end.

(** The part of a card visual the layout pass reads: [card.state.suitIndex],
    which may be [null]. *)
Record HanabiCard : Type := mkCard { suitIndex : option nat }.

(** A layout child.  [lc_width] and [lc_height] are what [width()] and
    [height()] return (the natural, unscaled size); [tween] is the handle
    slot, [None] for [null]. *)
Record LayoutChild : Type := mkChild {
  lc_width : R;
  lc_height : R;
  lc_x : R;
  lc_y : R;
  lc_scaleX : R;
  lc_scaleY : R;
  lc_rotation : R;
  lc_opacity : R;
  lc_visible : bool;
  tween : option nat;
  doMisplayAnimation : bool;
  card : HanabiCard
}.

Definition show (c : LayoutChild) : LayoutChild :=
  mkChild (lc_width c) (lc_height c) (lc_x c) (lc_y c) (lc_scaleX c)
          (lc_scaleY c) (lc_rotation c) (lc_opacity c) true (tween c)
          (doMisplayAnimation c) (card c).

Definition set_x (v : R) (c : LayoutChild) : LayoutChild :=
  mkChild (lc_width c) (lc_height c) v (lc_y c) (lc_scaleX c)
          (lc_scaleY c) (lc_rotation c) (lc_opacity c) (lc_visible c)
          (tween c) (doMisplayAnimation c) (card c).

Definition set_y (v : R) (c : LayoutChild) : LayoutChild :=
  mkChild (lc_width c) (lc_height c) (lc_x c) v (lc_scaleX c)
          (lc_scaleY c) (lc_rotation c) (lc_opacity c) (lc_visible c)
          (tween c) (doMisplayAnimation c) (card c).

Definition set_scaleX (v : R) (c : LayoutChild) : LayoutChild :=
  mkChild (lc_width c) (lc_height c) (lc_x c) (lc_y c) v
          (lc_scaleY c) (lc_rotation c) (lc_opacity c) (lc_visible c)
          (tween c) (doMisplayAnimation c) (card c).

Definition set_scaleY (v : R) (c : LayoutChild) : LayoutChild :=
  mkChild (lc_width c) (lc_height c) (lc_x c) (lc_y c) (lc_scaleX c)
          v (lc_rotation c) (lc_opacity c) (lc_visible c)
          (tween c) (doMisplayAnimation c) (card c).

Definition set_rotation (v : R) (c : LayoutChild) : LayoutChild :=
  mkChild (lc_width c) (lc_height c) (lc_x c) (lc_y c) (lc_scaleX c)
          (lc_scaleY c) v (lc_opacity c) (lc_visible c)
          (tween c) (doMisplayAnimation c) (card c).

Definition set_opacity (v : R) (c : LayoutChild) : LayoutChild :=
  mkChild (lc_width c) (lc_height c) (lc_x c) (lc_y c) (lc_scaleX c)
          (lc_scaleY c) (lc_rotation c) v (lc_visible c)
          (tween c) (doMisplayAnimation c) (card c).

Definition set_tween (t : option nat) (c : LayoutChild) : LayoutChild :=
  mkChild (lc_width c) (lc_height c) (lc_x c) (lc_y c) (lc_scaleX c)
          (lc_scaleY c) (lc_rotation c) (lc_opacity c) (lc_visible c)
          t (doMisplayAnimation c) (card c).

Definition set_doMisplayAnimation (b : bool) (c : LayoutChild) : LayoutChild :=
  mkChild (lc_width c) (lc_height c) (lc_x c) (lc_y c) (lc_scaleX c)
          (lc_scaleY c) (lc_rotation c) (lc_opacity c) (lc_visible c)
          (tween c) b (card c).

(** The container.  [width] and [height] are what [this.width()] and
    [this.height()] return, [absolutePosition] what
    [this.getAbsolutePosition()] returns (its top-left-hand corner). *)
Record CardLayout : Type := mkLayout {
  width : R;
  height : R;
  absolutePosition : Vector2d;
  align : string;
  reverse : bool;
  origRotation : R;
  empathy : bool;
  children : list LayoutChild
}.

Definition set_children (cs : list LayoutChild) (self : CardLayout)
  : CardLayout :=
  mkLayout (width self) (height self) (absolutePosition self) (align self)
           (reverse self) (origRotation self) (empathy self) cs.

(* ------------------------------------------------------------------ *)
(** ** The constructor *)

(** [Konva.ContainerConfig]: every key is optional. *)
Record ContainerConfig : Type := mkConfig {
  cfg_x : option R;
  cfg_y : option R;
  cfg_width : option R;
  cfg_height : option R;
  cfg_rotation : option R;
  cfg_align : option string;
  cfg_reverse : option bool
}.

(** [config["align"] || "left"]: an absent key and the empty string are both
    falsy. *)
Definition align_of (config : ContainerConfig) : string :=
  match cfg_align config with
  | Some a => if String.eqb a "" then "left" else a
  | None => "left"
  end.

(** [config["reverse"] || false]. *)
Definition reverse_of (config : ContainerConfig) : bool :=
  match cfg_reverse config with
  | Some b => b || false
  | None => false
  end.

(** [a ?? b]. *)
Definition nullish (a : option R) (b : R) : R :=
  match a with Some v => v | None => b end.

(** Lines 17-48.  [super(config)] stores the geometry of the config in the
    node; a container fresh from its constructor has no parent and no
    children, so its absolute position is its own position. *)
Definition constructor (config : ContainerConfig) : Result CardLayout :=
  let align := align_of config in
  let reverse := reverse_of config in
  let origRotation := nullish (cfg_rotation config) 0 in
  let empathy := false in
  match cfg_width config with
  | None => Throw "A width was not defined for a CardLayout."
  | Some w =>
    match cfg_height config with
    | None => Throw "A height was not defined for a CardLayout."
    | Some h =>
      Ok (mkLayout w h
                   (mkVec (nullish (cfg_x config) 0) (nullish (cfg_y config) 0))
                   align reverse origRotation empathy [])
    end
  end.

(* ------------------------------------------------------------------ *)
(** ** The absolute center *)

(** Lines 210-226.  [pos] is a fresh object; the four updates are folded
    into the record that is returned. *)
Definition getAbsoluteCenterPos (self : CardLayout) : Vector2d :=
  let pos := absolutePosition self in
  let w := width self in
  let h := height self in
  let rot := (- origRotation self / 180) * PI in
  let x1 := vx pos + (w / 2) * cos rot in
  let y1 := vy pos - (w / 2) * sin rot in
  let x2 := x1 + (h / 2) * sin rot in
  let y2 := y1 - (h / 2) * - cos rot in
  mkVec x2 y2.

(* ------------------------------------------------------------------ *)
(** ** Globals, collaborators and the world around a layout pass *)

(** A suit is known by its name. *)
Definition Suit : Type := string.

(** A play stack, as far as the misplay animation looks at it. *)
Record PlayStack : Type := mkPlayStack {
  ps_absolutePosition : Vector2d;
  ps_height : R
}.

(** The ambient flags and tables the pass reads: [globals.animateFast],
    [globals.lobby.settings.keldonMode], [globals.options.speedrun],
    [globals.variant.suits] and the map [globals.elements.playStacks]. *)
Record Globals : Type := mkGlobals {
  animateFast : bool;
  keldonMode : bool;
  speedrun : bool;
  suits : list Suit;
  playStacks : list (Suit * PlayStack)
}.

(** A call on a collaborator whose body is not in [CardLayout.ts]; the log
    pairs it with the index of the child it is made on. *)
Inductive Call : Type :=
| checkSetDraggable
| setRaiseAndShadowOffset
| startedTweening
| finishedTweening
| animateCall (cfg : TweenConfig) (timed : bool).

(** A tween object of the driver: the node it moves (a child index) and the
    configuration it was created with. *)
Record Tween : Type := mkTweenObj {
  tw_id : nat;
  tw_node : nat;
  tw_config : TweenConfig
}.

(** What a pass changes besides the container: the tweens in flight, the
    next fresh tween identity, and the call log (oldest call first). *)
Record World : Type := mkWorld {
  in_flight : list Tween;
  next_id : nat;
  calls : list (nat * Call)
}.

Definition call (i : nat) (c : Call) (w : World) : World :=
  mkWorld (in_flight w) (next_id w) (calls w ++ [(i, c)]).

(** [tween.destroy()]: the tween stops and is gone; destroying a tween that
    has already finished changes nothing. *)
Definition destroy (id : nat) (w : World) : World :=
  mkWorld (filter (fun t => negb (tw_id t =? id)%nat) (in_flight w))
          (next_id w) (calls w).

(** [globals.variant.suits[i]], [undefined] out of range or for a [null]
    index. *)
Definition suitAt (g : Globals) (i : option nat) : option Suit :=
  match i with
  | Some n => nth_error (suits g) n
  | None => None
  end.

(** [globals.elements.playStacks.get(suit)]. *)
Definition playStackGet (g : Globals) (s : option Suit) : option PlayStack :=
  match s with
  | Some name =>
    match find (fun kv => String.eqb (fst kv) name) (playStacks g) with
    | Some kv => Some (snd kv)
    | None => None
    end
  | None => None
  end.

(** The tweens in flight that move child [i]. *)
Definition tweensOf (i : nat) (w : World) : list Tween :=
  filter (fun t => (tw_node t =? i)%nat) (in_flight w).

(** The calls made on child [i], oldest first. *)
Definition callsOn (i : nat) (l : list (nat * Call)) : list Call :=
  map snd (filter (fun ic => (fst ic =? i)%nat) l).

(** What a tween leaves on its node when it reaches its end: the targets of
    its configuration ([scale] sets both axes). *)
Definition applyTargets (cfg : TweenConfig) (c : LayoutChild) : LayoutChild :=
  set_opacity (tc_opacity cfg)
    (set_rotation (tc_rotation cfg)
      (set_scaleY (tc_scale cfg)
        (set_scaleX (tc_scale cfg)
          (set_y (tc_y cfg) (set_x (tc_x cfg) c))))).

(** Modelled from the spec: [animate] of [./konvaHelpers], the tween driver,
    is not part of [CardLayout.ts].  Its contract (spec, sections 2, 4.2 f and 6):
    [animate(target, config, flag)] drives [target] to the values of [config]
    and then invokes [config.onFinish]; the layout pass hands it
    [!globals.options.speedrun] as the flag, and when that flag is false
    (skip-animation is on) the driver resolves at once, still invoking
    [onFinish]; otherwise it starts a timed tween, whose handle is the
    target's single tween-handle slot.  Section 6 names the flag [allowSkip]
    and does not say what its value stands for; what the skip-animation
    toggle does is taken from section 4.2 f.  A property that rests on the
    branch taken says so by the value of [speedrun] it assumes.

    The bodies of the two callbacks are the source's: [layoutFinished] is
    lines 156-159, [misplayFinished] lines 186-189. *)
Fixpoint animate (g : Globals) (i : nat) (c : LayoutChild)
         (cfg : TweenConfig) (timed : bool) (w : World) {struct cfg}
  : LayoutChild * World :=
  let w := call i (animateCall cfg timed) w in
  if timed then
    (set_tween (Some (next_id w)) c,
     mkWorld (in_flight w ++ [mkTweenObj (next_id w) i cfg])
             (S (next_id w)) (calls w))
  else
    match cfg with
    | mkTween _ _ _ _ _ _ _ cb => runCallback g i (applyTargets cfg c) cb w
    end
with runCallback (g : Globals) (i : nat) (c : LayoutChild)
         (cb : Callback) (w : World) {struct cb}
  : LayoutChild * World :=
  match cb with
  | layoutFinished =>
    (* layoutChild.card.finishedTweening(); layoutChild.checkSetDraggable(); *)
    (c, call i checkSetDraggable (call i finishedTweening w))
  | misplayFinished animateToLayout =>
    (* layoutChild.rotation(360); animateToLayout(); *)
    animate g i (set_rotation 360 c) animateToLayout (negb (speedrun g)) w
  end.

(** Modelled from the spec: the clock of the tween driver is not part of
    [CardLayout.ts].
    When the tween [id] reaches its end (spec, section 2: "on completion"),
    it is no longer in flight, its node holds its targets, and its
    [onFinish] runs.  A tween that is not in flight (destroyed, or already
    finished) never completes. *)
Definition tweenCompletes (g : Globals) (id : nat)
           (self : CardLayout) (w : World) : CardLayout * World :=
  match find (fun t => (tw_id t =? id)%nat) (in_flight w) with
  | None => (self, w)
  | Some t =>
    match nth_error (children self) (tw_node t) with
    | None => (self, destroy id w)
    | Some c =>
      let '(c', w') :=
        runCallback g (tw_node t) (applyTargets (tw_config t) c)
                    (tc_onFinish (tw_config t)) (destroy id w) in
      (set_children
         (firstn (tw_node t) (children self) ++ c' ::
          skipn (S (tw_node t)) (children self)) self,
       w')
    end
  end.

(* ------------------------------------------------------------------ *)
(** ** Divisions *)

(** A value with the divisors of the divisions evaluated on the way to it,
    oldest first. *)
Definition Traced (A : Type) : Type := (A * list R)%type.

Definition value {A : Type} (m : Traced A) : A := fst m.

Definition divisorsOf {A : Type} (m : Traced A) : list R := snd m.

Definition ret {A : Type} (a : A) : Traced A := (a, []).

Definition bind {A B : Type} (m : Traced A) (f : A -> Traced B) : Traced B :=
  (value (f (value m)), divisorsOf m ++ divisorsOf (f (value m))).

(** [a / b], as the program evaluates it. *)
Definition divide (a b : R) : Traced R := (a / b, [b]).

(* ------------------------------------------------------------------ *)
(** ** The layout pass *)

Section Layout.

(** [CARD_ANIMATION_LENGTH] is imported from [./constants]. *)
Variable CARD_ANIMATION_LENGTH : R.

(** Lines 74-84: the width the cards take at the scale of the hand. *)
Definition usedWidthFromT (handHeight : R) (cs : list LayoutChild)
           (uw : Traced R) : Traced R :=
  fold_left
    (fun uw layoutChild =>
       if Rle_dec (lc_height layoutChild) 0 then uw
       else
         bind uw (fun uw =>
         bind (divide handHeight (lc_height layoutChild)) (fun scale =>
         ret (uw + scale * lc_width layoutChild))))
    cs uw.

Definition usedWidthFrom (handHeight : R) (cs : list LayoutChild) (uw : R)
  : R :=
  value (usedWidthFromT handHeight cs (ret uw)).

Definition usedWidth (handHeight : R) (cs : list LayoutChild) : R :=
  usedWidthFrom handHeight cs 0.

(** Lines 90-93. *)
Definition maxSpacingBetweenCards (g : Globals) (uw : R) : R :=
  if keldonMode g then 0.025 * uw else 0.04 * uw.

(** Lines 86-96; [numCards - 1] is a subtraction of numbers. *)
Definition spacingBetweenCardsT (g : Globals) (handWidth uw : R)
           (numCards : nat) : Traced R :=
  bind (if (1 <? numCards)%nat
        then divide (handWidth - uw) (INR numCards - 1)
        else ret 0)
       (fun spacing =>
          ret (if Rgt_dec spacing (maxSpacingBetweenCards g uw)
               then maxSpacingBetweenCards g uw
               else spacing)).

Definition spacingBetweenCards (g : Globals) (handWidth uw : R)
           (numCards : nat) : R :=
  value (spacingBetweenCardsT g handWidth uw numCards).

(** Line 97. *)
Definition totalWidth (uw spacing : R) (numCards : nat) : R :=
  uw + spacing * (INR numCards - 1).

(** Lines 99-105, with [uw] the total of line 97. *)
Definition startXT (self : CardLayout) (uw : R) : Traced R :=
  let handWidth := width self in
  bind (if String.eqb (align self) "center"
        then if Rlt_dec uw handWidth
             then divide (handWidth - uw) 2
             else ret 0
        else ret 0)
       (fun x => ret (if reverse self then handWidth - x else x)).

Definition startX (self : CardLayout) (uw : R) : R :=
  value (startXT self uw).

(** What [playStack.getAbsolutePosition()] throws when [playStack] is
    [undefined]. *)
Definition undefinedPlayStack : string :=
  "TypeError: Cannot read properties of undefined".

(** Lines 119-122. *)
Definition clearTween (c : LayoutChild) (w : World) : LayoutChild * World :=
  match tween c with
  | Some t => (set_tween None c, destroy t w)
  | None => (c, w)
  end.

(** Lines 144-163: the configuration [animateToLayout] hands to [animate]. *)
Definition layoutTween (newX scale : R) : TweenConfig :=
  mkTween CARD_ANIMATION_LENGTH newX 0 scale 0 1 EaseOut layoutFinished.

(** Lines 175-192: the configuration of the misplay tween. *)
Definition misplayTween (self : CardLayout) (playStack : PlayStack)
           (newX scale : R) : TweenConfig :=
  let handHeight := height self in
  let pos := absolutePosition self in
  let playStackPos := ps_absolutePosition playStack in
  mkTween CARD_ANIMATION_LENGTH
          (vx playStackPos - vx pos)
          (vy playStackPos - vy pos)
          ((ps_height playStack * scale) / handHeight)
          0 1 EaseOut
          (misplayFinished (layoutTween newX scale)).

(** Lines 107-201, the body of the second loop for the child at index [i],
    with the cursor [x] on entry.  The result is the child, the world, and
    the cursor on exit, or the exception that ends the pass: the non-null
    assertions on the suit and on the play stack are unchecked, so that a
    missing play stack surfaces as a [TypeError] at
    [playStack.getAbsolutePosition()]. *)
Definition placeChild (g : Globals) (self : CardLayout) (spacing : R)
           (i : nat) (x : R) (layoutChild : LayoutChild) (w : World)
  : LayoutChild * World * Result R :=
  let handHeight := height self in
  let layoutChild := show layoutChild in
  if Rle_dec (lc_height layoutChild) 0 then
    (layoutChild, w, Ok x)
  else
    let scale := handHeight / lc_height layoutChild in
    let '(layoutChild, w) := clearTween layoutChild w in
    let newX :=
      x - (if reverse self then scale * lc_width layoutChild else 0) in
    let next :=
      x + (scale * lc_width layoutChild + spacing)
          * (if reverse self then -1 else 1) in
    if animateFast g then
      let layoutChild :=
        set_opacity 1
          (set_rotation 0
            (set_scaleY scale
              (set_scaleX scale
                (set_y 0 (set_x newX layoutChild))))) in
      let w := call i setRaiseAndShadowOffset (call i checkSetDraggable w) in
      (set_doMisplayAnimation false layoutChild, w, Ok next)
    else
      let w := call i setRaiseAndShadowOffset (call i startedTweening w) in
      if doMisplayAnimation layoutChild then
        let layoutChild := set_doMisplayAnimation false layoutChild in
        let suit := suitAt g (suitIndex (card layoutChild)) in
        match playStackGet g suit with
        | None =>
          (layoutChild, w,
           Throw undefinedPlayStack)
        | Some playStack =>
          let '(layoutChild, w) :=
            animate g i layoutChild (misplayTween self playStack newX scale)
                    (negb (speedrun g)) w in
          (layoutChild, w, Ok next)
        end
      else
        let '(layoutChild, w) :=
          animate g i layoutChild (layoutTween newX scale)
                  (negb (speedrun g)) w in
        (layoutChild, w, Ok next).

(** The second loop, from index [i] on, over the children [cs] that are
    still to be placed.  An exception leaves the children behind it as they
    were. *)
Fixpoint placeChildren (g : Globals) (self : CardLayout) (spacing : R)
         (i : nat) (x : R) (cs : list LayoutChild) (w : World)
  : list LayoutChild * World * Result unit :=
  match cs with
  | [] => ([], w, Ok tt)
  | c :: rest =>
    match placeChild g self spacing i x c w with
    | (c', w', Throw msg) => (c' :: rest, w', Throw msg)
    | (c', w', Ok x') =>
      let '(rest', w'', r) := placeChildren g self spacing (S i) x' rest w' in
      (c' :: rest', w'', r)
    end
  end.

(** Lines 68-202. *)
Definition doLayout (g : Globals) (self : CardLayout) (w : World)
  : CardLayout * World * Result unit :=
  let handWidth := width self in
  let handHeight := height self in
  let numCards := List.length (children self) in
  let uw := usedWidth handHeight (children self) in
  let spacing := spacingBetweenCards g handWidth uw numCards in
  let uw := totalWidth uw spacing numCards in
  let x := startX self uw in
  let '(cs, w', r) := placeChildren g self spacing 0 x (children self) w in
  (set_children cs self, w', r).

End Layout.

(* ------------------------------------------------------------------ *)
(** ** The pace label *)

Module StatsView.

(** [PaceRisk] of [types/GameState]. *)
Inductive PaceRisk : Type := LowRisk | MediumRisk | HighRisk | Zero | Null.

(** A text label: what [text()] and [fill()] last stored. *)
Record Label : Type := mkLabel { text : string; fill : string }.

(** What the updater touches: the label (absent until the UI is built), the
    lines written with [console.error], and the number of redraws asked of
    the UI layer. *)
Record UI : Type := mkUI {
  paceNumberLabel : option Label;
  console_error : list string;
  batchDraws : nat
}.

(** [pace.toString()] and the interpolation of [pace] in a template; pace
    counts cards, so it is an integer. *)
Definition toString (pace : Z) : string :=
  NilZero.string_of_int (Z.to_int pace).

Section Updater.

(** [LABEL_COLOR] is imported from [../../constants]. *)
Variable LABEL_COLOR : string.

(** Lines 358-386: the [switch] on the risk, on a label whose text is
    already set.  It returns the label and the lines logged. *)
Definition colorByRisk (pace : Z) (paceRisk : PaceRisk) (label : Label)
  : Label * list string :=
  match paceRisk with
  | Zero => (mkLabel (text label) "#df1c2d", [])
  | HighRisk => (mkLabel (text label) "#ef8c1d", [])
  | MediumRisk => (mkLabel (text label) "#efef1d", [])
  | LowRisk => (mkLabel (text label) LABEL_COLOR, [])
  | Null =>
    (label,
     [("An invalid value of pace / risk was detected. Pace = "
         ++ toString pace ++ ", Risk = Null")%string])
  end.

(** Lines 334-390. *)
Definition onPaceOrPaceRiskChanged (pace : option Z) (paceRisk : PaceRisk)
           (ui : UI) : Result UI :=
  match paceNumberLabel ui with
  | None => Throw "paceNumberLabel is not initialized."
  | Some label =>
    let '(label, logged) :=
      match pace with
      | None => (mkLabel "-" LABEL_COLOR, [])
      | Some p =>
        let paceText :=
          if (0 <? p)%Z then ("+" ++ toString p)%string else toString p in
        colorByRisk p paceRisk (mkLabel paceText (fill label))
      end in
    Ok (mkUI (Some label) (console_error ui ++ logged) (S (batchDraws ui)))
  end.

End Updater.

End StatsView.

(* ------------------------------------------------------------------ *)
(** ** Vocabulary of the properties *)

(** The cursor after the child [c], when it was [x] before: line 114 leaves
    it alone, lines 198-200 move it. *)
Definition advance (self : CardLayout) (spacing x : R) (c : LayoutChild)
  : R :=
  if Rle_dec (lc_height c) 0 then x
  else x + (height self / lc_height c * lc_width c + spacing)
           * (if reverse self then -1 else 1).

(** The cursor on entry to the [k]-th of the children [cs], when the loop
    starts at [x0]. *)
Definition cursorAt (self : CardLayout) (spacing x0 : R)
           (cs : list LayoutChild) (k : nat) : R :=
  fold_left (advance self spacing) (firstn k cs) x0.

(** The spacing, the total width and the first cursor of a pass
    (lines 70-105). *)
Definition passSpacing (g : Globals) (self : CardLayout) : R :=
  spacingBetweenCards g (width self)
                      (usedWidth (height self) (children self))
                      (List.length (children self)).

Definition passStartX (g : Globals) (self : CardLayout) : R :=
  startX self
         (totalWidth (usedWidth (height self) (children self))
                     (passSpacing g self)
                     (List.length (children self))).

(** The geometry the instant path stores on a child (lines 127-135). *)
Definition snapped (newX scale : R) (c : LayoutChild) : LayoutChild :=
  set_doMisplayAnimation false
    (set_opacity 1
      (set_rotation 0
        (set_scaleY scale
          (set_scaleX scale
            (set_y 0 (set_x newX c)))))).

(** Whether the round on [c] ends the pass with an exception: the play
    stack of a misplayed card is looked up and is not there. *)
Definition placeChildThrows (g : Globals) (c : LayoutChild) : bool :=
  if Rle_dec (lc_height c) 0 then false
  else if animateFast g then false
  else if doMisplayAnimation c then
    match playStackGet g (suitAt g (suitIndex (card c))) with
    | Some _ => false
    | None => true
    end
  else false.

(** The divisors of the divisions a pass evaluates before its second loop
    (lines 70-105), in order: those of the first loop (line 82), of the
    spacing (line 88) and of the centering (line 101). *)
Definition passDivisors (g : Globals) (self : CardLayout) : list R :=
  let numCards := List.length (children self) in
  let uw := usedWidth (height self) (children self) in
  let total := totalWidth uw (passSpacing g self) numCards in
  divisorsOf (usedWidthFromT (height self) (children self) (ret 0))
  ++ divisorsOf (spacingBetweenCardsT g (width self) uw numCards)
  ++ divisorsOf (startXT self total).

(** The world once the tween whose handle [c] holds, if it holds one, is
    destroyed (lines 119-120). *)
Definition destroyTweenOf (c : LayoutChild) (w : World) : World :=
  match tween c with
  | Some t => destroy t w
  | None => w
  end.

(** The target [newX] of a child met with the cursor at [x] (line 124), and
    its scale (line 117). *)
Definition scaleOf (self : CardLayout) (c : LayoutChild) : R :=
  height self / lc_height c.

Definition newXOf (self : CardLayout) (x : R) (c : LayoutChild) : R :=
  x - (if reverse self then scaleOf self c * lc_width c else 0).

(** The tweens in flight and the handle slots agree: tween identities are
    fresh and distinct, every tween in flight is the one whose handle its
    node holds, no slot holds a handle that is yet to be issued, and no two
    slots hold the same handle. *)
Definition tweenInv (cs : list LayoutChild) (w : World) : Prop :=
  (forall t, In t (in_flight w) -> (tw_id t < next_id w)%nat)
  /\ NoDup (map tw_id (in_flight w))
  /\ (forall t, In t (in_flight w) ->
        exists c, nth_error cs (tw_node t) = Some c
                  /\ tween c = Some (tw_id t))
  /\ (forall i c id, nth_error cs i = Some c -> tween c = Some id ->
        (id < next_id w)%nat)
  /\ (forall i j c c' id,
        nth_error cs i = Some c -> nth_error cs j = Some c' ->
        tween c = Some id -> tween c' = Some id -> i = j).

(** A call that tells the card visual that a tween starts or ends. *)
Definition tweeningNotice (c : Call) : bool :=
  match c with
  | startedTweening | finishedTweening => true
  | _ => false
  end.

(* ------------------------------------------------------------------ *)
(** ** The other methods of the container *)

Definition set_reverse (b : bool) (self : CardLayout) : CardLayout :=
  mkLayout (width self) (height self) (absolutePosition self) (align self)
           b (origRotation self) (empathy self) (children self).

Definition set_empathy (b : bool) (self : CardLayout) : CardLayout :=
  mkLayout (width self) (height self) (absolutePosition self) (align self)
           (reverse self) (origRotation self) b (children self).

Definition set_origRotation (r : R) (self : CardLayout) : CardLayout :=
  mkLayout (width self) (height self) (absolutePosition self) (align self)
           (reverse self) r (empathy self) (children self).

(** The container with what its other methods touch: the world of the
    layout pass, whether the card visual of the child at an index is there
    as the first Konva child of the child ([layoutChild.children[0]], which
    can be [undefined] while rewinding), and the calls of [setEmpathy] made
    on card visuals, each with the index of the child and the flag passed,
    oldest first. *)
Record Scene : Type := mkScene {
  sc_layout : CardLayout;
  sc_world : World;
  sc_attached : nat -> bool;
  sc_empathy : list (nat * bool)
}.

Section Methods.

Variable CARD_ANIMATION_LENGTH : R.

(** Konva's: the position, in the coordinates of a container, of the point
    that shows at a given absolute position. *)
Variable toLocal : CardLayout -> Vector2d -> Vector2d.

(** Lines 53-61.  [pos] is what [child.getAbsolutePosition()] returns before
    the child joins the container, [attached] whether its card visual is its
    first Konva child.  The child goes to the end of the children, with the
    position that shows where it was; an exception of the pass is an
    exception of [addChild]. *)
Definition addChild (g : Globals) (child : LayoutChild) (pos : Vector2d)
           (attached : bool) (s : Scene) : Scene * Result unit :=
  let self := sc_layout s in
  let index := List.length (children self) in
  let p := toLocal self pos in
  let child := set_y (vy p) (set_x (vx p) child) in
  let self := set_children (children self ++ [child]) self in
  let told :=
    if empathy self then sc_empathy s ++ [(index, true)]
    else sc_empathy s in
  let '(self, w, r) := doLayout CARD_ANIMATION_LENGTH g self (sc_world s) in
  (mkScene self w
           (fun j => if (j =? index)%nat then attached else sc_attached s j)
           told,
   r).

(** Lines 63-66: Konva renumbers the children, which are numbered by their
    place in the list here, and the container lays them out again. *)
Definition setChildrenIndices (g : Globals) (s : Scene)
  : Scene * Result unit :=
  let '(self, w, r) :=
    doLayout CARD_ANIMATION_LENGTH g (sc_layout s) (sc_world s) in
  (mkScene self w (sc_attached s) (sc_empathy s), r).

End Methods.

(** Lines 204-208. *)
Definition checkSetDraggableAll (s : Scene) : Scene :=
  mkScene (sc_layout s)
          (fold_left (fun w i => call i checkSetDraggable w)
                     (seq 0 (List.length (children (sc_layout s))))
                     (sc_world s))
          (sc_attached s) (sc_empathy s).

(** Lines 235-246: the calls of [card.setEmpathy(enabled)], on the children
    whose card visual is there. *)
Definition tellEmpathy (enabled : bool) (attached : nat -> bool) (n : nat)
  : list (nat * bool) :=
  map (fun i => (i, enabled)) (filter attached (seq 0 n)).

(** Lines 228-247. *)
Definition setEmpathy (enabled : bool) (s : Scene) : Scene :=
  if Bool.eqb enabled (empathy (sc_layout s)) then s
  else
    mkScene (set_empathy enabled (sc_layout s)) (sc_world s) (sc_attached s)
            (sc_empathy s
             ++ tellEmpathy enabled (sc_attached s)
                            (List.length (children (sc_layout s)))).

(** The flag last passed to [setEmpathy] on the card of the child at [i],
    if any was. *)
Definition lastTold (i : nat) (told : list (nat * bool)) : option bool :=
  match filter (fun ib => (fst ib =? i)%nat) (rev told) with
  | ib :: _ => Some (snd ib)
  | [] => None
  end.

(** While empathy is on, the card of every child whose card visual is there
    was last told that it is on. *)
Definition empathyInv (s : Scene) : Prop :=
  empathy (sc_layout s) = true ->
  forall i,
    (i < List.length (children (sc_layout s)))%nat ->
    sc_attached s i = true ->
    lastTold i (sc_empathy s) = Some true.

(** Two lists of children with the same natural sizes and the same cards,
    child by child. *)
Definition sameNatural (cs cs' : list LayoutChild) : Prop :=
  Forall2 (fun c c' => lc_width c' = lc_width c
                       /\ lc_height c' = lc_height c
                       /\ card c' = card c)
          cs cs'.

(* ------------------------------------------------------------------ *)
(** ** The efficiency labels *)

Module EfficiencyView.

(** What [statsRules.efficiency] returns, as the updater tells the values
    apart: a number to print, or one of those that [Number.isNaN] or
    [Number.isFinite] set aside (NaN and the infinities). *)
Inductive Number : Type :=
| finite (r : R)
| notFinite.

(** A text label: what [text()], [x()], [width()] and [fill()] last
    stored.  The width is what was last handed to [width()]: a number, or
    [None] for a value that is not a number. *)
Record TextLabel : Type := mkTextLabel {
  tl_text : string;
  tl_x : R;
  tl_width : option R;
  tl_fill : string
}.

(** The three labels of [globals.elements], each absent until the UI is
    built, and the number of redraws asked of the UI layer. *)
Record Labels : Type := mkLabels {
  efficiencyNumberLabel : option TextLabel;
  efficiencyPipeLabel : option TextLabel;
  efficiencyMinNeededLabel : option TextLabel;
  batchDraws : nat
}.

Record Data : Type := mkData {
  cardsGotten : R;
  potentialCluesLost : R;
  maxScore : R;
  cluesStillUsable : option R
}.

(** What the updater reads of [globals]: whether
    [globals.state.visibleState === globals.state.ongoingGame], and
    [globals.efficiencyModifier]. *)
Record View : Type := mkView {
  visibleIsOngoing : bool;
  efficiencyModifier : R
}.

(** The double quote. *)
Definition quote : string := String (Ascii.ascii_of_nat 34) EmptyString.

Definition notInitialized (label : string) : string :=
  (label ++ " is not initialized in the " ++ quote
         ++ "onEfficiencyChanged()" ++ quote ++ " function.")%string.

Section Updater.

(** [LABEL_COLOR] is imported from [../../constants]. *)
Variable LABEL_COLOR : string.

(** [statsRules.efficiency], of [../../../rules]. *)
Variable efficiency : R -> R -> Number.

(** [toFixed(2)] of a number. *)
Variable toFixed2 : R -> string.

(** [measureSize(text).width] of the number label and of the pipe label: a
    label measures a text in its own font, which the updater leaves alone.
    The type of the width is [any]: it is a number, or some other value,
    [None], which the two [typeof] guards (lines 312 and 321) refuse. *)
Variable measureNumber : string -> option R.
Variable measurePipe : string -> option R.

(** Lines 283-291: whether the manual modification counts. *)
Definition modified (view : View) : bool :=
  visibleIsOngoing view
  && (if Req_EM_T (efficiencyModifier view) 0 then false else true).

(** Lines 281-297. *)
Definition futureEfficiency (view : View) (data : Data) : Number :=
  let cardsGotten :=
    if modified view then cardsGotten data + efficiencyModifier view
    else cardsGotten data in
  let cardsNotGotten := maxScore data - cardsGotten in
  match cluesStillUsable data with
  | None => notFinite
  | Some clues => efficiency cardsNotGotten clues
  end.

(** Lines 299-305. *)
Definition efficiencyText (n : Number) : string :=
  match n with
  | finite e => toFixed2 e
  | notFinite => "-"
  end.

(** Lines 255-332.  The labels are returned as the run leaves them, also
    when it throws: the guards on the widths come after the first
    updates. *)
Definition onEfficiencyChanged (view : View) (data : Data) (ui : Labels)
  : Labels * Result unit :=
  match efficiencyNumberLabel ui with
  | None => (ui, Throw (notInitialized "efficiencyNumberLabel"))
  | Some effLabel =>
    match efficiencyPipeLabel ui with
    | None => (ui, Throw (notInitialized "efficiencyPipeLabel"))
    | Some effPipeLabel =>
      match efficiencyMinNeededLabel ui with
      | None => (ui, Throw (notInitialized "efficiencyNumberLabelMinNeeded"))
      | Some effMinLabel =>
        let text := efficiencyText (futureEfficiency view data) in
        let effLabel :=
          mkTextLabel text (tl_x effLabel) (measureNumber text)
                      (tl_fill effLabel) in
        match measureNumber text with
        | None =>
          (mkLabels (Some effLabel) (Some effPipeLabel) (Some effMinLabel)
                    (batchDraws ui),
           Throw "The width of effLabel was not a number.")
        | Some effLabelSize =>
          let pipeX := tl_x effLabel + effLabelSize in
          let effPipeLabel :=
            mkTextLabel (tl_text effPipeLabel) pipeX (tl_width effPipeLabel)
                        (tl_fill effPipeLabel) in
          match measurePipe (tl_text effPipeLabel) with
          | None =>
            (mkLabels (Some effLabel) (Some effPipeLabel) (Some effMinLabel)
                      (batchDraws ui),
             Throw "The width of effPipeLabel was not a number.")
          | Some effPipeLabelSize =>
            let minEffX := pipeX + effPipeLabelSize in
            let effMinLabel :=
              mkTextLabel (tl_text effMinLabel) minEffX
                          (tl_width effMinLabel) (tl_fill effMinLabel) in
            let effLabelColor :=
              if modified view then "#00ffff" else LABEL_COLOR in
            let effLabel :=
              mkTextLabel (tl_text effLabel) (tl_x effLabel)
                          (tl_width effLabel) effLabelColor in
            (mkLabels (Some effLabel) (Some effPipeLabel) (Some effMinLabel)
                      (S (batchDraws ui)),
             Ok tt)
          end
        end
      end
    end
  end.

End Updater.

End EfficiencyView.

(* ================================================================== *)
(** * Properties *)

(* ------------------------------------------------------------------ *)
(** ** The absolute center *)

(** C5.  [getAbsoluteCenterPos] returns, for a container whose top-left
    corner is at [pos], of width [W], height [H] and origin rotation [theta],
    with [r = - theta * PI / 180], the point
    [(pos.x + (W/2) cos r + (H/2) sin r, pos.y - (W/2) sin r + (H/2) cos r)];
    when [theta = 0] this is [pos + (W/2, H/2)]. *)
Theorem getAbsoluteCenterPos_formula :
  forall self : CardLayout,
    let pos := absolutePosition self in
    let W := width self in
    let H := height self in
    let r := - origRotation self * PI / 180 in
    getAbsoluteCenterPos self
    = mkVec (vx pos + (W / 2) * cos r + (H / 2) * sin r)
            (vy pos - (W / 2) * sin r + (H / 2) * cos r)
    /\ (origRotation self = 0 ->
        getAbsoluteCenterPos self = mkVec (vx pos + W / 2) (vy pos + H / 2)).
Proof.
  intros self pos W H r.
  assert (Hrot : - origRotation self / 180 * PI = r)
    by (unfold r; field).
  split.
  - unfold getAbsoluteCenterPos. rewrite Hrot. fold pos W H.
    f_equal; ring.
  - intros Hzero. unfold getAbsoluteCenterPos. fold pos W H.
    rewrite Hzero.
    replace (- 0 / 180 * PI) with 0 by field.
    rewrite cos_0, sin_0. f_equal; ring.
Qed.

Lemma getAbsoluteCenterPos_formula_witness :
  let self := mkLayout 400 100 (mkVec 10 20) "left" false 0 false [] in
  origRotation self = 0 /\
  getAbsoluteCenterPos self = mkVec (10 + 400 / 2) (20 + 100 / 2).
Proof.
  intros self. split; [reflexivity |].
  exact (proj2 (getAbsoluteCenterPos_formula self) eq_refl).
Defined.

(* ------------------------------------------------------------------ *)
(** ** The constructor *)

(** C9.  A config without a width, or without a height, makes the
    constructor throw, with the message that names what is missing (the
    width first); with both it returns a container of that size, with
    no children and empathy off, and with alignment ["left"], no reversal and
    rotation 0 wherever the config leaves them out. *)
Theorem constructor_needs_width_and_height :
  forall config : ContainerConfig,
    (cfg_width config = None \/ cfg_height config = None ->
     exists msg, constructor config = Throw msg)
    /\ (cfg_width config = None ->
        constructor config
        = Throw "A width was not defined for a CardLayout.")
    /\ (forall w,
           cfg_width config = Some w -> cfg_height config = None ->
           constructor config
           = Throw "A height was not defined for a CardLayout.")
    /\ (forall w h,
           cfg_width config = Some w -> cfg_height config = Some h ->
           exists self,
             constructor config = Ok self
             /\ width self = w /\ height self = h
             /\ empathy self = false /\ children self = []
             /\ (cfg_align config = None -> align self = "left")
             /\ (cfg_reverse config = None -> reverse self = false)
             /\ (cfg_rotation config = None -> origRotation self = 0)).
Proof.
  intros config. split; [| split; [| split]].
  - intros [Hw | Hh]; unfold constructor.
    + rewrite Hw. eexists; reflexivity.
    + rewrite Hh. destruct (cfg_width config); eexists; reflexivity.
  - intros Hw. unfold constructor. now rewrite Hw.
  - intros w Hw Hh. unfold constructor. now rewrite Hw, Hh.
  - intros w h Hw Hh. unfold constructor. rewrite Hw, Hh.
    eexists. split; [reflexivity |]. simpl.
    repeat split.
    + intros Ha. unfold align_of. now rewrite Ha.
    + intros Hr. unfold reverse_of. now rewrite Hr.
    + intros Hr. now rewrite Hr.
Qed.

Lemma constructor_needs_width_and_height_witness :
  (exists msg,
      constructor (mkConfig None None None (Some 100) None None None)
      = Throw msg)
  /\ (exists self,
         constructor (mkConfig None None (Some 400) (Some 100) None None None)
         = Ok self
         /\ align self = "left" /\ reverse self = false
         /\ origRotation self = 0 /\ empathy self = false).
Proof.
  split.
  - apply (proj1 (constructor_needs_width_and_height
                    (mkConfig None None None (Some 100) None None None))).
    left; reflexivity.
  - destruct (proj2 (proj2 (proj2 (constructor_needs_width_and_height
                       (mkConfig None None (Some 400) (Some 100)
                                 None None None))))
                    400 100 eq_refl eq_refl)
      as (self & Hok & _ & _ & He & _ & Ha & Hr & Ho).
    exists self. repeat split; auto.
Defined.

(* ------------------------------------------------------------------ *)
(** ** The pace label *)

(** C6, as the spec states it, fails.  On a label that an earlier update
    turned red, a pace of 3 with the risk ["Null"] leaves the fill red, while
    the same pace with ["LowRisk"] gives it the default colour (here
    ["#d8d5ef"]); and whatever the default colour is, there is a label on
    which the two risks leave different fills. *)
Lemma null_risk_keeps_fill_counterexample :
  let red := StatsView.mkUI (Some (StatsView.mkLabel "-" "#df1c2d")) [] 0 in
  StatsView.onPaceOrPaceRiskChanged "#d8d5ef" (Some 3%Z) StatsView.Null red
  = Ok (StatsView.mkUI
          (Some (StatsView.mkLabel "+3" "#df1c2d"))
          ["An invalid value of pace / risk was detected. Pace = 3, Risk = Null"]
          1)
  /\ StatsView.onPaceOrPaceRiskChanged "#d8d5ef" (Some 3%Z)
                                       StatsView.LowRisk red
     = Ok (StatsView.mkUI (Some (StatsView.mkLabel "+3" "#d8d5ef")) [] 1)
  /\ ~ (exists LABEL_COLOR : string,
           forall (pace : Z) (ui after after' : StatsView.UI),
             StatsView.onPaceOrPaceRiskChanged
               LABEL_COLOR (Some pace) StatsView.Null ui = Ok after ->
             StatsView.onPaceOrPaceRiskChanged
               LABEL_COLOR (Some pace) StatsView.LowRisk ui = Ok after' ->
             StatsView.paceNumberLabel after
             = StatsView.paceNumberLabel after').
Proof.
  intros red. split; [reflexivity | split; [reflexivity |]].
  intros [color Hsame].
  destruct (String.eqb color "#df1c2d") eqn:Hred.
  - apply String.eqb_eq in Hred. subst color.
    specialize (Hsame 3%Z
      (StatsView.mkUI (Some (StatsView.mkLabel "-" "#ef8c1d")) [] 0)
      _ _ eq_refl eq_refl).
    discriminate Hsame.
  - apply String.eqb_neq in Hred.
    specialize (Hsame 3%Z red _ _ eq_refl eq_refl).
    simpl in Hsame. injection Hsame as Hfill. congruence.
Qed.

(** C6, amended.  With a pace and the risk ["Null"], the updater writes the
    pace text as for every tier, logs one error line, asks for a redraw, and
    leaves the fill of the label as it was; with ["LowRisk"] it writes the
    same text, logs nothing, and sets the fill to the default colour.  The
    two agree on the label exactly when its fill already was the default
    colour. *)
Theorem null_risk_logs_and_keeps_fill :
  forall (LABEL_COLOR : string) (pace : Z) (label : StatsView.Label)
         (errors : list string) (draws : nat),
    let ui := StatsView.mkUI (Some label) errors draws in
    let paceText :=
      if (0 <? pace)%Z then ("+" ++ StatsView.toString pace)%string
      else StatsView.toString pace in
    StatsView.onPaceOrPaceRiskChanged LABEL_COLOR (Some pace)
                                      StatsView.Null ui
    = Ok (StatsView.mkUI
            (Some (StatsView.mkLabel paceText (StatsView.fill label)))
            (errors ++
               [("An invalid value of pace / risk was detected. Pace = "
                   ++ StatsView.toString pace ++ ", Risk = Null")%string])
            (S draws))
    /\ StatsView.onPaceOrPaceRiskChanged LABEL_COLOR (Some pace)
                                         StatsView.LowRisk ui
       = Ok (StatsView.mkUI
               (Some (StatsView.mkLabel paceText LABEL_COLOR))
               (errors ++ [])
               (S draws))
    /\ (StatsView.mkLabel paceText (StatsView.fill label)
        = StatsView.mkLabel paceText LABEL_COLOR
        <-> StatsView.fill label = LABEL_COLOR).
Proof.
  intros color pace label errors draws ui paceText.
  split; [reflexivity | split; [reflexivity |]].
  split.
  - intros Heq. now injection Heq.
  - intros Heq. now rewrite Heq.
Qed.

Lemma null_risk_logs_and_keeps_fill_witness :
  let label := StatsView.mkLabel "-" "#d8d5ef" in
  StatsView.fill label = "#d8d5ef"
  /\ StatsView.mkLabel "+3" (StatsView.fill label)
     = StatsView.mkLabel "+3" "#d8d5ef".
Proof.
  intros label. split; [reflexivity |].
  exact (proj2 (proj2 (proj2 (null_risk_logs_and_keeps_fill
                                "#d8d5ef" 3%Z label [] 0)))
               eq_refl).
Defined.

(* ------------------------------------------------------------------ *)
(** ** The width used and the spacing *)

(** The values of the traced computations, without the traces. *)
Lemma usedWidthFromT_value :
  forall H cs m,
    value (usedWidthFromT H cs m)
    = fold_left
        (fun uw layoutChild =>
           if Rle_dec (lc_height layoutChild) 0 then uw
           else uw + H / lc_height layoutChild * lc_width layoutChild)
        cs (value m).
Proof.
  intros H cs. induction cs as [| c cs IH]; intros m; [reflexivity |].
  unfold usedWidthFromT in *. simpl fold_left. rewrite IH. f_equal.
  destruct (Rle_dec (lc_height c) 0); reflexivity.
Qed.

Lemma usedWidthFrom_fold :
  forall H cs uw,
    usedWidthFrom H cs uw
    = fold_left
        (fun uw layoutChild =>
           if Rle_dec (lc_height layoutChild) 0 then uw
           else uw + H / lc_height layoutChild * lc_width layoutChild)
        cs uw.
Proof.
  intros H cs uw. unfold usedWidthFrom. now rewrite usedWidthFromT_value.
Qed.

Lemma usedWidthFrom_cons :
  forall H c cs uw,
    usedWidthFrom H (c :: cs) uw
    = usedWidthFrom H cs
        (if Rle_dec (lc_height c) 0 then uw
         else uw + H / lc_height c * lc_width c).
Proof.
  intros H c cs uw. now rewrite !usedWidthFrom_fold.
Qed.

Lemma spacingBetweenCards_eq :
  forall g W uw n,
    spacingBetweenCards g W uw n
    = let spacing :=
          if (1 <? n)%nat then (W - uw) / (INR n - 1) else 0 in
      if Rgt_dec spacing (maxSpacingBetweenCards g uw)
      then maxSpacingBetweenCards g uw
      else spacing.
Proof.
  intros g W uw n. unfold spacingBetweenCards, spacingBetweenCardsT.
  destruct (1 <? n)%nat; reflexivity.
Qed.

Lemma startX_eq :
  forall self uw,
    startX self uw
    = let x :=
          if String.eqb (align self) "center"
          then if Rlt_dec uw (width self) then (width self - uw) / 2 else 0
          else 0 in
      if reverse self then width self - x else x.
Proof.
  intros self uw. unfold startX, startXT.
  destruct (String.eqb (align self) "center"); [| reflexivity].
  destruct (Rlt_dec uw (width self)); reflexivity.
Qed.

Lemma usedWidthFrom_skip :
  forall H c cs uw,
    lc_height c <= 0 ->
    usedWidthFrom H (c :: cs) uw = usedWidthFrom H cs uw.
Proof.
  intros H c cs uw Hle. rewrite usedWidthFrom_cons.
  destruct (Rle_dec (lc_height c) 0) as [_ | Hn]; [reflexivity | contradiction].
Qed.

Lemma usedWidthFrom_count :
  forall H c cs uw,
    0 < lc_height c ->
    usedWidthFrom H (c :: cs) uw
    = usedWidthFrom H cs (uw + H / lc_height c * lc_width c).
Proof.
  intros H c cs uw Hpos. rewrite usedWidthFrom_cons.
  destruct (Rle_dec (lc_height c) 0) as [Hle | _]; [lra | reflexivity].
Qed.

Lemma usedWidthFrom_app :
  forall H cs cs' uw,
    usedWidthFrom H (cs ++ cs') uw
    = usedWidthFrom H cs' (usedWidthFrom H cs uw).
Proof.
  intros. rewrite !usedWidthFrom_fold. apply fold_left_app.
Qed.

Lemma usedWidthFrom_nonneg :
  forall H cs uw,
    0 <= H -> Forall (fun c => 0 <= lc_width c) cs -> 0 <= uw ->
    0 <= usedWidthFrom H cs uw.
Proof.
  intros H cs. induction cs as [| c cs IH]; intros uw HH Hall Huw.
  - exact Huw.
  - inversion Hall as [| ? ? Hc Hcs]; subst.
    destruct (Rle_dec (lc_height c) 0) as [Hle | Hgt].
    + rewrite usedWidthFrom_skip by exact Hle. now apply IH.
    + rewrite usedWidthFrom_count by lra. apply IH; auto.
      assert (0 <= H / lc_height c).
      { unfold Rdiv. apply Rmult_le_pos; [exact HH |].
        left. apply Rinv_0_lt_compat. lra. }
      assert (0 <= H / lc_height c * lc_width c)
        by (apply Rmult_le_pos; assumption).
      lra.
Qed.

Lemma INR_minus_one_pos :
  forall n : nat, (1 < n)%nat -> 1 <= INR n - 1.
Proof.
  intros n Hn.
  assert (INR 2 <= INR n) by (apply le_INR; lia).
  simpl in H. lra.
Qed.

Lemma spacingBetweenCards_few :
  forall g W uw n,
    (n <= 1)%nat ->
    spacingBetweenCards g W uw n
    = if Rgt_dec 0 (maxSpacingBetweenCards g uw)
      then maxSpacingBetweenCards g uw else 0.
Proof.
  intros g W uw n Hn. rewrite spacingBetweenCards_eq.
  destruct (1 <? n)%nat eqn:E; [apply Nat.ltb_lt in E; lia | reflexivity].
Qed.

Lemma spacingBetweenCards_few_nonneg :
  forall g W uw n,
    (n <= 1)%nat -> 0 <= uw -> spacingBetweenCards g W uw n = 0.
Proof.
  intros g W uw n Hn Huw. rewrite spacingBetweenCards_few by exact Hn.
  destruct (Rgt_dec 0 (maxSpacingBetweenCards g uw)) as [Hgt | _];
    [| reflexivity].
  unfold maxSpacingBetweenCards in Hgt. destruct (keldonMode g); lra.
Qed.

(* ------------------------------------------------------------------ *)
(** ** What the tween driver does to a child and to the world *)

Scheme TweenConfig_mut := Induction for TweenConfig Sort Prop
  with Callback_mut := Induction for Callback Sort Prop.

Combined Scheme tween_mutind from TweenConfig_mut, Callback_mut.

Lemma callsOn_app :
  forall i l l', callsOn i (l ++ l') = callsOn i l ++ callsOn i l'.
Proof.
  intros. unfold callsOn. now rewrite filter_app, map_app.
Qed.

Lemma animate_timed :
  forall g i c cfg w,
    animate g i c cfg true w
    = (set_tween (Some (next_id w)) c,
       mkWorld (in_flight w ++ [mkTweenObj (next_id w) i cfg])
               (S (next_id w))
               (calls w ++ [(i, animateCall cfg true)])).
Proof.
  intros. destruct cfg. reflexivity.
Qed.

Lemma animate_untimed :
  forall g i c cfg w,
    animate g i c cfg false w
    = runCallback g i (applyTargets cfg c) (tc_onFinish cfg)
                  (call i (animateCall cfg false) w).
Proof.
  intros. destruct cfg. reflexivity.
Qed.

(** The driver leaves the natural size, the card, the visibility and the
    misplay flag of its target alone; it only adds calls on its target to
    the log; and it either starts no tween, or starts exactly one, for its
    target, under a fresh identity that it stores in the target's slot. *)
Lemma driver_effect :
  (forall cfg g i c timed w,
      let c' := fst (animate g i c cfg timed w) in
      let w' := snd (animate g i c cfg timed w) in
      (lc_width c' = lc_width c /\ lc_height c' = lc_height c
       /\ lc_visible c' = lc_visible c
       /\ doMisplayAnimation c' = doMisplayAnimation c /\ card c' = card c)
      /\ (exists new, calls w' = calls w ++ new
                      /\ Forall (fun ic => fst ic = i) new)
      /\ ((in_flight w' = in_flight w /\ next_id w' = next_id w
           /\ tween c' = tween c)
          \/ (exists cfg',
                 in_flight w' = in_flight w ++ [mkTweenObj (next_id w) i cfg']
                 /\ next_id w' = S (next_id w)
                 /\ tween c' = Some (next_id w))))
  /\ (forall cb g i c w,
      let c' := fst (runCallback g i c cb w) in
      let w' := snd (runCallback g i c cb w) in
      (lc_width c' = lc_width c /\ lc_height c' = lc_height c
       /\ lc_visible c' = lc_visible c
       /\ doMisplayAnimation c' = doMisplayAnimation c /\ card c' = card c)
      /\ (exists new, calls w' = calls w ++ new
                      /\ Forall (fun ic => fst ic = i) new)
      /\ ((in_flight w' = in_flight w /\ next_id w' = next_id w
           /\ tween c' = tween c)
          \/ (exists cfg',
                 in_flight w' = in_flight w ++ [mkTweenObj (next_id w) i cfg']
                 /\ next_id w' = S (next_id w)
                 /\ tween c' = Some (next_id w)))).
Proof.
  apply tween_mutind.
  - intros d x y s r o e cb IH g i c timed w.
    destruct timed.
    + rewrite animate_timed. simpl. split; [repeat split |].
      split.
      * exists [(i, animateCall (mkTween d x y s r o e cb) true)].
        split; [reflexivity | repeat constructor].
      * right. eexists. repeat split.
    + rewrite animate_untimed. simpl tc_onFinish.
      specialize (IH g i (applyTargets (mkTween d x y s r o e cb) c)
                     (call i (animateCall (mkTween d x y s r o e cb) false) w)).
      cbv zeta in IH |- *.
      destruct IH as (Hsame & (new & Hcalls & Hall) & Htw).
      split; [exact Hsame |]. split.
      * exists ((i, animateCall (mkTween d x y s r o e cb) false) :: new).
        split.
        -- rewrite Hcalls. simpl. now rewrite <- app_assoc.
        -- constructor; [reflexivity | exact Hall].
      * exact Htw.
  - intros g i c w. simpl. split; [repeat split |]. split.
    + exists [(i, finishedTweening); (i, checkSetDraggable)].
      split; [now rewrite <- app_assoc | repeat constructor].
    + left. repeat split.
  - intros cfg IH g i c w. simpl.
    specialize (IH g i (set_rotation 360 c) (negb (speedrun g)) w).
    cbv zeta in IH |- *.
    destruct IH as (Hsame & Hcalls & Htw).
    split; [exact Hsame |]. split; [exact Hcalls | exact Htw].
Qed.

(* ------------------------------------------------------------------ *)
(** ** One round of the second loop, case by case *)

Lemma set_tween_same :
  forall c, set_tween (tween c) c = c.
Proof. now destruct c. Qed.

Lemma clearTween_eq :
  forall c w, clearTween c w = (set_tween None c, destroyTweenOf c w).
Proof.
  intros c w. unfold clearTween, destroyTweenOf.
  destruct (tween c) eqn:E; [reflexivity |].
  now rewrite <- E, set_tween_same.
Qed.

Section Round.

Variable L : R.
Variable g : Globals.
Variable self : CardLayout.
Variable spacing : R.

Lemma placeChild_skipped :
  forall i x c w,
    lc_height c <= 0 ->
    placeChild L g self spacing i x c w = (show c, w, Ok x).
Proof.
  intros i x c w Hle. unfold placeChild. simpl lc_height.
  destruct (Rle_dec (lc_height c) 0); [reflexivity | contradiction].
Qed.

Lemma placeChild_instant :
  forall i x c w,
    animateFast g = true -> 0 < lc_height c ->
    placeChild L g self spacing i x c w
    = (snapped (newXOf self x c) (scaleOf self c) (set_tween None (show c)),
       call i setRaiseAndShadowOffset
            (call i checkSetDraggable (destroyTweenOf c w)),
       Ok (advance self spacing x c)).
Proof.
  intros i x c w Hfast Hpos. unfold placeChild, advance. simpl lc_height.
  destruct (Rle_dec (lc_height c) 0); [lra |].
  rewrite clearTween_eq, Hfast. reflexivity.
Qed.

Lemma placeChild_animated :
  forall i x c w,
    animateFast g = false -> 0 < lc_height c ->
    doMisplayAnimation c = false ->
    let a :=
      animate g i (set_tween None (show c))
              (layoutTween L (newXOf self x c) (scaleOf self c))
              (negb (speedrun g))
              (call i setRaiseAndShadowOffset
                    (call i startedTweening (destroyTweenOf c w))) in
    placeChild L g self spacing i x c w
    = (fst a, snd a, Ok (advance self spacing x c)).
Proof.
  intros i x c w Hfast Hpos Hflag a. unfold placeChild, advance.
  simpl lc_height.
  destruct (Rle_dec (lc_height c) 0); [lra |].
  rewrite clearTween_eq, Hfast. simpl doMisplayAnimation. rewrite Hflag.
  fold (scaleOf self c). simpl lc_width. fold (newXOf self x c).
  unfold destroyTweenOf at 1. simpl tween. fold (destroyTweenOf c w).
  fold a. now destruct a.
Qed.

Lemma placeChild_misplay :
  forall i x c w playStack,
    animateFast g = false -> 0 < lc_height c ->
    doMisplayAnimation c = true ->
    playStackGet g (suitAt g (suitIndex (card c))) = Some playStack ->
    let a :=
      animate g i (set_doMisplayAnimation false (set_tween None (show c)))
              (misplayTween L self playStack
                            (newXOf self x c) (scaleOf self c))
              (negb (speedrun g))
              (call i setRaiseAndShadowOffset
                    (call i startedTweening (destroyTweenOf c w))) in
    placeChild L g self spacing i x c w
    = (fst a, snd a, Ok (advance self spacing x c)).
Proof.
  intros i x c w playStack Hfast Hpos Hflag Hget a.
  unfold placeChild, advance. simpl lc_height.
  destruct (Rle_dec (lc_height c) 0); [lra |].
  rewrite clearTween_eq, Hfast. simpl doMisplayAnimation. rewrite Hflag.
  simpl card. rewrite Hget.
  fold (scaleOf self c). simpl lc_width. fold (newXOf self x c).
  unfold destroyTweenOf at 1. simpl tween. fold (destroyTweenOf c w).
  fold a. now destruct a.
Qed.

Lemma placeChild_throws :
  forall i x c w,
    animateFast g = false -> 0 < lc_height c ->
    doMisplayAnimation c = true ->
    playStackGet g (suitAt g (suitIndex (card c))) = None ->
    placeChild L g self spacing i x c w
    = (set_doMisplayAnimation false (set_tween None (show c)),
       call i setRaiseAndShadowOffset
            (call i startedTweening (destroyTweenOf c w)),
       Throw undefinedPlayStack).
Proof.
  intros i x c w Hfast Hpos Hflag Hget.
  unfold placeChild. simpl lc_height.
  destruct (Rle_dec (lc_height c) 0); [lra |].
  rewrite clearTween_eq, Hfast. simpl doMisplayAnimation. rewrite Hflag.
  simpl card. rewrite Hget. reflexivity.
Qed.

End Round.

(* ------------------------------------------------------------------ *)
(** ** One round of the second loop, in general *)

(** Splits a goal about [placeChild] on [c] into the five ways a round can
    go, rewriting the round by the matching case lemma in [H]. *)
Ltac round_cases g c H :=
  let Hh := fresh "Hheight" in
  let Hf := fresh "Hfast" in
  let Hm := fresh "Hflag" in
  let Hp := fresh "Hstack" in
  destruct (Rle_dec (lc_height c) 0) as [Hh | Hh];
  [ rewrite placeChild_skipped in H by exact Hh
  | apply Rnot_le_lt in Hh;
    destruct (animateFast g) eqn:Hf;
    [ rewrite placeChild_instant in H by assumption
    | destruct (doMisplayAnimation c) eqn:Hm;
      [ let ps := fresh "playStack" in
        destruct (playStackGet g (suitAt g (suitIndex (card c))))
          as [ps |] eqn:Hp;
        [ rewrite (@placeChild_misplay _ g) with (playStack := ps) in H
            by assumption
        | rewrite placeChild_throws in H by assumption ]
      | rewrite placeChild_animated in H by assumption ] ] ].

(** Names the call of [animate] in [H], with what [driver_effect] says of
    it. *)
Ltac name_animate H Heff :=
  match type of H with
  | context [animate ?g ?i ?c0 ?cfg ?t ?w0] =>
    pose proof (proj1 driver_effect cfg g i c0 t w0) as Heff;
    cbv zeta in Heff;
    destruct (animate g i c0 cfg t w0);
    cbn [fst snd] in H, Heff
  end.

Lemma placeChild_round :
  forall L g self spacing i x c w c' w' r,
    placeChild L g self spacing i x c w = (c', w', r) ->
    (lc_width c' = lc_width c /\ lc_height c' = lc_height c
     /\ card c' = card c /\ lc_visible c' = true)
    /\ (exists new, calls w' = calls w ++ new
                    /\ Forall (fun ic => fst ic = i) new)
    /\ (forall x', r = Ok x' -> x' = advance self spacing x c)
    /\ ((exists msg, r = Throw msg) <-> placeChildThrows g c = true)
    /\ (0 < lc_height c -> doMisplayAnimation c' = false)
    /\ (lc_height c <= 0 -> c' = show c /\ w' = w /\ r = Ok x).
Proof.
  intros L g self spacing i x c w c' w' r H.
  assert (Hthrows : placeChildThrows g c
                    = if Rle_dec (lc_height c) 0 then false
                      else if animateFast g then false
                      else if doMisplayAnimation c then
                        match playStackGet g (suitAt g (suitIndex (card c)))
                        with Some _ => false | None => true end
                      else false) by reflexivity.
  round_cases g c H.
  - injection H as <- <- <-. rewrite Hthrows.
    destruct (Rle_dec (lc_height c) 0); [| contradiction].
    refine (conj _ (conj _ (conj _ (conj _ (conj _ _))))).
    + repeat split.
    + exists []. split; [now rewrite app_nil_r | constructor].
    + intros x' Hx. injection Hx as <-. unfold advance.
      destruct (Rle_dec (lc_height c) 0); [reflexivity | contradiction].
    + split; [intros [msg Hm] |]; discriminate.
    + lra.
    + repeat split.
  - injection H as <- <- <-. rewrite Hthrows, ?Hfast.
    destruct (Rle_dec (lc_height c) 0); [lra |].
    refine (conj _ (conj _ (conj _ (conj _ (conj _ _))))).
    + repeat split.
    + exists [(i, checkSetDraggable); (i, setRaiseAndShadowOffset)].
      split; [| repeat constructor].
      unfold destroyTweenOf. destruct (tween c); simpl;
        now rewrite <- app_assoc.
    + intros x' Hx. now injection Hx as <-.
    + split; [intros [msg Hm] |]; discriminate.
    + reflexivity.
    + lra.
  - cbv zeta in H. name_animate H Heff.
    destruct Heff as ((Hw & Hh & Hv & Hd & Hc) & (new & Hcalls & Hall) & _).
    injection H as <- <- <-.
    rewrite Hthrows, ?Hfast, ?Hflag, ?Hstack.
    destruct (Rle_dec (lc_height c) 0); [lra |].
    refine (conj _ (conj _ (conj _ (conj _ (conj _ _))))).
    + rewrite Hw, Hh, Hc, Hv. repeat split.
    + exists ([(i, startedTweening); (i, setRaiseAndShadowOffset)] ++ new).
      split; [| apply Forall_app; split; [repeat constructor | exact Hall]].
      rewrite Hcalls. unfold destroyTweenOf. destruct (tween c); simpl;
        now rewrite <- !app_assoc.
    + intros x' Hx. now injection Hx as <-.
    + split; [intros [msg Hm] |]; discriminate.
    + intros _. now rewrite Hd.
    + lra.
  - injection H as <- <- <-. rewrite Hthrows, ?Hfast, ?Hflag, ?Hstack.
    destruct (Rle_dec (lc_height c) 0); [lra |].
    refine (conj _ (conj _ (conj _ (conj _ (conj _ _))))).
    + repeat split.
    + exists [(i, startedTweening); (i, setRaiseAndShadowOffset)].
      split; [| repeat constructor].
      unfold destroyTweenOf. destruct (tween c); simpl;
        now rewrite <- app_assoc.
    + intros x' Hx. discriminate.
    + split; [reflexivity | intros _; eexists; reflexivity].
    + reflexivity.
    + lra.
  - cbv zeta in H. name_animate H Heff.
    destruct Heff as ((Hw & Hh & Hv & Hd & Hc) & (new & Hcalls & Hall) & _).
    injection H as <- <- <-.
    rewrite Hthrows, ?Hfast, ?Hflag.
    destruct (Rle_dec (lc_height c) 0); [lra |].
    refine (conj _ (conj _ (conj _ (conj _ (conj _ _))))).
    + rewrite Hw, Hh, Hc, Hv. repeat split.
    + exists ([(i, startedTweening); (i, setRaiseAndShadowOffset)] ++ new).
      split; [| apply Forall_app; split; [repeat constructor | exact Hall]].
      rewrite Hcalls. unfold destroyTweenOf. destruct (tween c); simpl;
        now rewrite <- !app_assoc.
    + intros x' Hx. now injection Hx as <-.
    + split; [intros [msg Hm] |]; discriminate.
    + intros _. rewrite Hd. exact Hflag.
    + lra.
Qed.

(* ------------------------------------------------------------------ *)
(** ** The second loop *)

Lemma advance_counted :
  forall self spacing x c,
    0 < lc_height c ->
    advance self spacing x c
    = x + (height self / lc_height c * lc_width c + spacing)
          * (if reverse self then -1 else 1).
Proof.
  intros self spacing x c Hpos. unfold advance.
  destruct (Rle_dec (lc_height c) 0); [lra | reflexivity].
Qed.

Lemma cursorAt_zero :
  forall self spacing x cs, cursorAt self spacing x cs 0 = x.
Proof. reflexivity. Qed.

Lemma cursorAt_cons :
  forall self spacing x c cs k,
    cursorAt self spacing x (c :: cs) (S k)
    = cursorAt self spacing (advance self spacing x c) cs k.
Proof. reflexivity. Qed.

Lemma cursorAt_succ :
  forall self spacing cs x k c,
    nth_error cs k = Some c ->
    cursorAt self spacing x cs (S k)
    = advance self spacing (cursorAt self spacing x cs k) c.
Proof.
  intros self spacing cs. induction cs as [| c0 cs IH]; intros x k c Hk.
  - destruct k; discriminate.
  - destruct k as [| k].
    + injection Hk as <-. reflexivity.
    + rewrite !cursorAt_cons. now apply IH.
Qed.

Lemma placeChildren_cons :
  forall L g self spacing i x c rest w,
    placeChildren L g self spacing i x (c :: rest) w
    = match placeChild L g self spacing i x c w with
      | (c', w', Throw msg) => (c' :: rest, w', Throw msg)
      | (c', w', Ok x') =>
        let '(rest', w'', r) :=
          placeChildren L g self spacing (S i) x' rest w' in
        (c' :: rest', w'', r)
      end.
Proof. reflexivity. Qed.

Lemma placeChildren_length :
  forall L g self spacing cs i x w cs' w' r,
    placeChildren L g self spacing i x cs w = (cs', w', r) ->
    List.length cs' = List.length cs.
Proof.
  intros L g self spacing cs.
  induction cs as [| c rest IH]; intros i x w cs' w' r H.
  - injection H as <- _ _. reflexivity.
  - rewrite placeChildren_cons in H.
    destruct (placeChild L g self spacing i x c w) as [[c1 w1] [x1 | msg]].
    + destruct (placeChildren L g self spacing (S i) x1 rest w1)
        as [[rest' w2] r2] eqn:E.
      injection H as <- _ _. simpl. f_equal. eapply IH; eassumption.
    + injection H as <- _ _. reflexivity.
Qed.

(** The calls a loop adds are calls on the children it runs over. *)
Lemma placeChildren_calls :
  forall L g self spacing cs i x w cs' w' r,
    placeChildren L g self spacing i x cs w = (cs', w', r) ->
    exists new, calls w' = calls w ++ new
                /\ Forall (fun ic => (i <= fst ic)%nat) new.
Proof.
  intros L g self spacing cs.
  induction cs as [| c rest IH]; intros i x w cs' w' r H.
  - injection H as _ <- _. exists []. split; [now rewrite app_nil_r |].
    constructor.
  - rewrite placeChildren_cons in H.
    destruct (placeChild L g self spacing i x c w)
      as [[c1 w1] r1] eqn:Hround.
    apply placeChild_round in Hround.
    destruct Hround as (_ & (new1 & Hcalls1 & Hall1) & _).
    assert (Hall1' : Forall (fun ic => (i <= fst ic)%nat) new1).
    { eapply Forall_impl; [| exact Hall1]. simpl. intros a Ha. lia. }
    destruct r1 as [x1 | msg].
    + destruct (placeChildren L g self spacing (S i) x1 rest w1)
        as [[rest' w2] r2] eqn:E.
      injection H as _ <- _.
      apply IH in E. destruct E as (new2 & Hcalls2 & Hall2).
      exists (new1 ++ new2). split.
      * now rewrite Hcalls2, Hcalls1, app_assoc.
      * apply Forall_app. split; [exact Hall1' |].
        eapply Forall_impl; [| exact Hall2]. simpl. intros a Ha. lia.
    + injection H as _ <- _. now exists new1.
Qed.

(** When the loop runs to its end, every child has had its round, entered
    with the cursor the earlier children left; the child the round returns
    is the one the loop returns in its place; and the log of the loop is
    made of the calls on the children before it, then the calls of its
    round, then the calls on the children after it. *)
Lemma placeChildren_nth :
  forall L g self spacing cs i x w cs' w',
    placeChildren L g self spacing i x cs w = (cs', w', Ok tt) ->
    forall k c,
      nth_error cs k = Some c ->
      exists wk c' wk',
        placeChild L g self spacing (i + k)
                   (cursorAt self spacing x cs k) c wk
        = (c', wk', Ok (cursorAt self spacing x cs (S k)))
        /\ nth_error cs' k = Some c'
        /\ exists before round after,
            calls wk = calls w ++ before
            /\ calls wk' = calls wk ++ round
            /\ calls w' = calls wk' ++ after
            /\ Forall (fun ic => (fst ic < i + k)%nat) before
            /\ Forall (fun ic => fst ic = (i + k)%nat) round
            /\ Forall (fun ic => (i + k < fst ic)%nat) after.
Proof.
  intros L g self spacing cs.
  induction cs as [| c0 rest IH]; intros i x w cs' w' H k c Hk.
  - destruct k; discriminate.
  - rewrite placeChildren_cons in H.
    destruct (placeChild L g self spacing i x c0 w)
      as [[c1 w1] r1] eqn:Hround.
    pose proof (placeChild_round _ _ _ _ _ _ _ _ _ _ _ Hround)
      as (_ & (new1 & Hcalls1 & Hall1) & Hcursor & _).
    destruct r1 as [x1 | msg]; [| discriminate].
    specialize (Hcursor x1 eq_refl). subst x1.
    destruct (placeChildren L g self spacing (S i)
                            (advance self spacing x c0) rest w1)
      as [[rest' w2] r2] eqn:E.
    injection H as <- <- ->.
    destruct k as [| k].
    + injection Hk as <-.
      exists w, c1, w1. rewrite Nat.add_0_r, cursorAt_zero.
      split; [exact Hround |]. split; [reflexivity |].
      destruct (placeChildren_calls _ _ _ _ _ _ _ _ _ _ _ E)
        as (after & Hafter & Hall).
      exists [], new1, after. rewrite app_nil_r.
      repeat split; auto.
    + simpl in Hk.
      destruct (IH _ _ _ _ _ E k c Hk)
        as (wk & c' & wk' & Hr & Hn
            & before & round & after & Hb & Hr' & Ha & Fb & Fr & Fa).
      exists wk, c', wk'. rewrite Nat.add_succ_r, !cursorAt_cons.
      split; [exact Hr |]. split; [exact Hn |].
      exists (new1 ++ before), round, after.
      repeat split; auto.
      * now rewrite Hb, Hcalls1, app_assoc.
      * apply Forall_app. split.
        -- eapply Forall_impl; [| exact Hall1]. simpl. intros a Ha'. lia.
        -- exact Fb.
Qed.

(** What holds of the calls of every round holds of the calls of the
    loop. *)
Lemma placeChildren_calls_all :
  forall (P : nat * Call -> Prop) L g self spacing,
    (forall i x c w c' w' r new,
        placeChild L g self spacing i x c w = (c', w', r) ->
        calls w' = calls w ++ new -> Forall P new) ->
    forall cs i x w cs' w' r new,
      placeChildren L g self spacing i x cs w = (cs', w', r) ->
      calls w' = calls w ++ new -> Forall P new.
Proof.
  intros P L g self spacing Hround cs.
  induction cs as [| c rest IH]; intros i x w cs' w' r new H Hnew.
  - injection H as _ <- _.
    rewrite <- (app_nil_r (calls w)) in Hnew at 1.
    apply app_inv_head in Hnew. subst new. constructor.
  - rewrite placeChildren_cons in H.
    destruct (placeChild L g self spacing i x c w)
      as [[c1 w1] r1] eqn:E1.
    destruct (placeChild_round _ _ _ _ _ _ _ _ _ _ _ E1)
      as (_ & (new1 & Hcalls1 & _) & _).
    pose proof (Hround _ _ _ _ _ _ _ _ E1 Hcalls1) as HP1.
    destruct r1 as [x1 | msg].
    + destruct (placeChildren L g self spacing (S i) x1 rest w1)
        as [[rest' w2] r2] eqn:E2.
      injection H as _ <- _.
      destruct (placeChildren_calls _ _ _ _ _ _ _ _ _ _ _ E2)
        as (new2 & Hcalls2 & _).
      pose proof (IH _ _ _ _ _ _ _ E2 Hcalls2) as HP2.
      rewrite Hcalls2, Hcalls1, <- app_assoc in Hnew.
      apply app_inv_head in Hnew. subst new.
      apply Forall_app. now split.
    + injection H as _ <- _.
      rewrite Hcalls1 in Hnew. apply app_inv_head in Hnew. now subst new.
Qed.

Lemma placeChildren_instant_returns :
  forall L g self spacing cs i x w,
    animateFast g = true ->
    snd (placeChildren L g self spacing i x cs w) = Ok tt.
Proof.
  intros L g self spacing cs.
  induction cs as [| c rest IH]; intros i x w Hfast; [reflexivity |].
  rewrite placeChildren_cons.
  destruct (placeChild L g self spacing i x c w)
    as [[c1 w1] r1] eqn:Hround.
  pose proof (placeChild_round _ _ _ _ _ _ _ _ _ _ _ Hround)
    as (_ & _ & _ & Hthrow & _).
  destruct r1 as [x1 | msg].
  - specialize (IH (S i) x1 w1 Hfast).
    destruct (placeChildren L g self spacing (S i) x1 rest w1)
      as [[rest' w2] r2]. exact IH.
  - exfalso. assert (Ht : placeChildThrows g c = true)
      by (apply Hthrow; eexists; reflexivity).
    unfold placeChildThrows in Ht. rewrite Hfast in Ht.
    destruct (Rle_dec (lc_height c) 0); discriminate.
Qed.

Lemma doLayout_eq :
  forall L g self w,
    doLayout L g self w
    = let '(cs, w', r) :=
        placeChildren L g self (passSpacing g self) 0 (passStartX g self)
                      (children self) w in
      (set_children cs self, w', r).
Proof. reflexivity. Qed.

(* ------------------------------------------------------------------ *)
(** ** Hands of one card and of none *)

Lemma spacingBetweenCardsT_divisors :
  forall g W uw n,
    divisorsOf (spacingBetweenCardsT g W uw n)
    = if (1 <? n)%nat then [INR n - 1] else [].
Proof.
  intros g W uw n. unfold spacingBetweenCardsT.
  destruct (1 <? n)%nat; reflexivity.
Qed.

Lemma usedWidthFromT_divisors :
  forall H cs m,
    Forall (fun d => d <> 0) (divisorsOf m) ->
    Forall (fun d => d <> 0) (divisorsOf (usedWidthFromT H cs m)).
Proof.
  intros H cs. induction cs as [| c cs IH]; intros m Hm; [exact Hm |].
  unfold usedWidthFromT in *. simpl fold_left. apply IH.
  destruct (Rle_dec (lc_height c) 0) as [Hle | Hgt]; [exact Hm |].
  unfold bind, divide, ret, divisorsOf, value. simpl.
  apply Forall_app. split; [exact Hm |].
  constructor; [lra | constructor].
Qed.

Lemma startXT_divisors :
  forall self uw,
    divisorsOf (startXT self uw) = [] \/ divisorsOf (startXT self uw) = [2].
Proof.
  intros self uw. unfold startXT.
  destruct (String.eqb (align self) "center"); [| now left].
  destruct (Rlt_dec uw (width self)); [now right | now left].
Qed.

Lemma passDivisors_nonzero :
  forall g self, Forall (fun d => d <> 0) (passDivisors g self).
Proof.
  intros g self. unfold passDivisors.
  apply Forall_app. split; [| apply Forall_app; split].
  - apply usedWidthFromT_divisors. constructor.
  - rewrite spacingBetweenCardsT_divisors.
    destruct (1 <? List.length (children self))%nat eqn:E; [| constructor].
    apply Nat.ltb_lt in E.
    pose proof (INR_minus_one_pos _ E).
    constructor; [lra | constructor].
  - match goal with
    | |- context [startXT ?a ?b] =>
      destruct (startXT_divisors a b) as [-> | ->]
    end; repeat constructor. lra.
Qed.

(** C8.  With exactly one child, the pass evaluates no division for its
    spacing, which does not depend on the width of the hand: it is 0, unless
    the width used is negative, when it is the cap; so it is 0 for a hand and
    a card of non-negative size.  With no child, the pass returns having
    changed neither the container nor the world, its spacing is 0, and the
    only division it may evaluate is the halving of the centering.  The
    divisor [n - 1] is evaluated exactly when [n > 1], and no division of a
    pass before its second loop is by 0. *)
Theorem spacing_with_one_child_or_none :
  forall (L : R) (g : Globals) (self : CardLayout) (w : World),
    (forall c,
        children self = [c] ->
        let uw := usedWidth (height self) [c] in
        let cap := maxSpacingBetweenCards g uw in
        divisorsOf (spacingBetweenCardsT g (width self) uw 1) = []
        /\ passSpacing g self = (if Rgt_dec 0 cap then cap else 0)
        /\ (forall W', spacingBetweenCards g W' uw 1 = passSpacing g self)
        /\ (0 <= uw -> passSpacing g self = 0)
        /\ (0 <= height self -> 0 <= lc_width c -> passSpacing g self = 0))
    /\ (children self = [] ->
        doLayout L g self w = (self, w, Ok tt)
        /\ passSpacing g self = 0
        /\ (passDivisors g self = [] \/ passDivisors g self = [2]))
    /\ (forall W uw n,
          divisorsOf (spacingBetweenCardsT g W uw n)
          = if (1 <? n)%nat then [INR n - 1] else [])
    /\ Forall (fun d => d <> 0) (passDivisors g self).
Proof.
  intros L g self w. split; [| split; [| split]].
  - intros c Hcs uw cap.
    assert (Hs : passSpacing g self = if Rgt_dec 0 cap then cap else 0).
    { unfold passSpacing. rewrite Hcs.
      apply spacingBetweenCards_few. simpl. lia. }
    assert (Hzero : 0 <= uw -> passSpacing g self = 0).
    { intros Huw. unfold passSpacing. rewrite Hcs.
      apply spacingBetweenCards_few_nonneg; [simpl; lia | exact Huw]. }
    split; [reflexivity |]. split; [exact Hs |].
    split; [| split; [exact Hzero |]].
    + intros W'. rewrite Hs. apply spacingBetweenCards_few. lia.
    + intros HH Hw. apply Hzero.
      apply usedWidthFrom_nonneg; [exact HH | | lra].
      constructor; [exact Hw | constructor].
  - intros Hcs.
    assert (Hsp : passSpacing g self = 0).
    { unfold passSpacing. rewrite Hcs.
      apply spacingBetweenCards_few_nonneg; [simpl; lia |].
      unfold usedWidth. rewrite usedWidthFrom_fold. simpl. lra. }
    split; [| split; [exact Hsp |]].
    + rewrite doLayout_eq, Hcs. simpl. rewrite <- Hcs.
      now destruct self.
    + unfold passDivisors. rewrite Hcs.
      match goal with
      | |- context [startXT ?a ?b] =>
        destruct (startXT_divisors a b) as [E | E]; rewrite E
      end; [now left | now right].
  - apply spacingBetweenCardsT_divisors.
  - apply passDivisors_nonzero.
Qed.

Lemma spacing_with_one_child_or_none_witness :
  let g := mkGlobals false false false [] [] in
  let c := mkChild 100 100 0 0 1 1 0 1 true None false (mkCard None) in
  let one := mkLayout 400 100 (mkVec 0 0) "left" false 0 false [c] in
  let none := mkLayout 400 100 (mkVec 0 0) "center" false 0 false [] in
  let w := mkWorld [] 0 [] in
  passSpacing g one = 0
  /\ doLayout 0.5 g none w = (none, w, Ok tt)
  /\ passDivisors g none = [2].
Proof.
  intros g c one none w.
  split; [| split].
  - apply (proj2 (proj2 (proj2 (proj2
             (proj1 (spacing_with_one_child_or_none 0.5 g one w)
                    c eq_refl))))).
    + simpl. lra.
    + simpl. lra.
  - apply (proj1 (proj2 (spacing_with_one_child_or_none 0.5 g none w))).
    reflexivity.
  - destruct (proj2 (proj2 (proj1 (proj2
               (spacing_with_one_child_or_none 0.5 g none w))
                                  eq_refl)))
      as [Hnil | Htwo]; [| exact Htwo].
    exfalso.
    assert (Hd : passDivisors g none = [2]).
    { unfold passDivisors, startXT, none. simpl.
      match goal with
      | |- context [Rlt_dec ?a ?b] =>
        destruct (Rlt_dec a b) as [_ | Hn]; [reflexivity |]
      end.
      exfalso. apply Hn.
      unfold totalWidth, usedWidth. rewrite usedWidthFrom_fold. simpl.
      unfold passSpacing. rewrite spacingBetweenCards_eq. simpl.
      match goal with
      | |- context [Rgt_dec ?a ?b] => destruct (Rgt_dec a b)
      end; unfold maxSpacingBetweenCards in *; simpl in *;
        unfold usedWidth in *; rewrite ?usedWidthFrom_fold in *; simpl in *;
        lra. }
    rewrite Hd in Hnil. discriminate.
Defined.

(* ------------------------------------------------------------------ *)
(** ** A pass, child by child *)

Lemma callsOn_none :
  forall k l, Forall (fun ic : nat * Call => fst ic <> k) l -> callsOn k l = [].
Proof.
  intros k l H. induction H as [| [j c] l Hj _ IH]; [reflexivity |].
  unfold callsOn in *. simpl in *.
  destruct (j =? k)%nat eqn:E; [apply Nat.eqb_eq in E; contradiction |].
  exact IH.
Qed.

Lemma callsOn_all :
  forall k l,
    Forall (fun ic : nat * Call => fst ic = k) l -> callsOn k l = map snd l.
Proof.
  intros k l H. induction H as [| [j c] l Hj _ IH]; [reflexivity |].
  unfold callsOn in *. simpl in *. subst j.
  rewrite Nat.eqb_refl. simpl. now rewrite IH.
Qed.

(** A pass that returns has run the round of every child [c], at its index
    [k], with the spacing of the pass and the cursor the earlier children
    left; the child of the round is the child at [k] after the pass, and the
    calls of the round are the calls the pass makes on that child. *)
Lemma doLayout_round :
  forall L g self w self' w',
    doLayout L g self w = (self', w', Ok tt) ->
    forall k c,
      nth_error (children self) k = Some c ->
      let spacing := passSpacing g self in
      let x0 := passStartX g self in
      exists wk c' wk' round,
        placeChild L g self spacing k
                   (cursorAt self spacing x0 (children self) k) c wk
        = (c', wk', Ok (cursorAt self spacing x0 (children self) (S k)))
        /\ nth_error (children self') k = Some c'
        /\ calls wk' = calls wk ++ round
        /\ callsOn k (calls w') = callsOn k (calls w) ++ map snd round.
Proof.
  intros L g self w self' w' H k c Hk spacing x0.
  rewrite doLayout_eq in H. fold spacing x0 in H.
  destruct (placeChildren L g self spacing 0 x0 (children self) w)
    as [[cs' w''] r] eqn:E.
  injection H as <- <- ->.
  destruct (placeChildren_nth _ _ _ _ _ _ _ _ _ _ E _ _ Hk)
    as (wk & c' & wk' & Hr & Hn
        & before & round & after & Hb & Hr' & Ha & Fb & Fr & Fa).
  simpl in Hr, Fb, Fr, Fa.
  exists wk, c', wk', round.
  split; [exact Hr |]. split; [exact Hn |]. split; [exact Hr' |].
  rewrite Ha, Hr', Hb, !callsOn_app.
  rewrite (@callsOn_none k before), (@callsOn_none k after),
    (@callsOn_all k round), !app_nil_r; auto.
  - eapply Forall_impl; [| exact Fa]. simpl. intros a Hlt. lia.
  - eapply Forall_impl; [| exact Fb]. simpl. intros a Hlt. lia.
Qed.

Lemma nth_error_middle :
  forall (A : Type) (l : list A) k a,
    nth_error l k = Some a -> l = firstn k l ++ a :: skipn (S k) l.
Proof.
  intros A l. induction l as [| b l IH]; intros k a H.
  - destruct k; discriminate.
  - destruct k as [| k].
    + injection H as <-. reflexivity.
    + simpl in *. f_equal. now apply IH.
Qed.

(* ------------------------------------------------------------------ *)
(** ** The spacing of a pass *)

(** In instant mode, two neighbours of positive height end a pass with the
    spacing of the pass between the far edge of the first and the near edge
    of the second, in the direction of the layout. *)
Lemma instant_gap :
  forall L g self w self' w' k a b a' b',
    animateFast g = true ->
    doLayout L g self w = (self', w', Ok tt) ->
    nth_error (children self) k = Some a ->
    nth_error (children self) (S k) = Some b ->
    0 < lc_height a -> 0 < lc_height b ->
    nth_error (children self') k = Some a' ->
    nth_error (children self') (S k) = Some b' ->
    if reverse self
    then lc_x a' - (lc_x b' + lc_scaleX b' * lc_width b') = passSpacing g self
    else lc_x b' - (lc_x a' + lc_scaleX a' * lc_width a') = passSpacing g self.
Proof.
  intros L g self w self' w' k a b a' b' Hfast H Ha Hb Hpa Hpb Ha' Hb'.
  destruct (doLayout_round _ _ _ _ _ _ H _ _ Ha)
    as (wa & a1 & wa' & rounda & Hra & Hna & _).
  destruct (doLayout_round _ _ _ _ _ _ H _ _ Hb)
    as (wb & b1 & wb' & roundb & Hrb & Hnb & _).
  rewrite Ha' in Hna. injection Hna as <-.
  rewrite Hb' in Hnb. injection Hnb as <-.
  rewrite placeChild_instant in Hra, Hrb by assumption.
  injection Hra as Hea _ Hcursor. injection Hrb as Heb _ _.
  subst a' b'. simpl.
  rewrite <- Hcursor. unfold newXOf, scaleOf.
  rewrite advance_counted by exact Hpa.
  destruct (reverse self); lra.
Qed.

(** C1.  With [n > 1] children, the spacing of a pass is the quotient
    [(W - usedWidth) / (n - 1)], where [usedWidth] counts the children of
    positive height only, capped from above at [0.04 * usedWidth], or at
    [0.025 * usedWidth] in keldon mode; below the cap it is the quotient
    itself, so that on a hand and cards of non-negative size a negative
    quotient is the spacing as it stands.  It is the gap the pass leaves
    between neighbours: in instant mode, two neighbours of positive height
    end the pass with the far edge of the first and the near edge of the
    second that far apart. *)
Theorem spacing_is_capped_quotient :
  forall (g : Globals) (self : CardLayout),
    let W := width self in
    let n := List.length (children self) in
    let usedW := usedWidth (height self) (children self) in
    let cap := (if keldonMode g then 0.025 else 0.04) * usedW in
    let quotient := (W - usedW) / (INR n - 1) in
    (1 < n)%nat ->
    passSpacing g self = Rmin quotient cap
    /\ passSpacing g self <= cap
    /\ (quotient <= cap -> passSpacing g self = quotient)
    /\ (cap < quotient -> passSpacing g self = cap)
    /\ (0 <= height self ->
        Forall (fun c => 0 <= lc_width c) (children self) ->
        quotient < 0 -> passSpacing g self = quotient)
    /\ (animateFast g = true ->
        forall L w self' w' k a b a' b',
          doLayout L g self w = (self', w', Ok tt) ->
          nth_error (children self) k = Some a ->
          nth_error (children self) (S k) = Some b ->
          0 < lc_height a -> 0 < lc_height b ->
          nth_error (children self') k = Some a' ->
          nth_error (children self') (S k) = Some b' ->
          if reverse self
          then lc_x a' - (lc_x b' + lc_scaleX b' * lc_width b')
               = passSpacing g self
          else lc_x b' - (lc_x a' + lc_scaleX a' * lc_width a')
               = passSpacing g self).
Proof.
  intros g self W n usedW cap quotient Hn.
  assert (Hgap :
            animateFast g = true ->
            forall L w self' w' k a b a' b',
              doLayout L g self w = (self', w', Ok tt) ->
              nth_error (children self) k = Some a ->
              nth_error (children self) (S k) = Some b ->
              0 < lc_height a -> 0 < lc_height b ->
              nth_error (children self') k = Some a' ->
              nth_error (children self') (S k) = Some b' ->
              if reverse self
              then lc_x a' - (lc_x b' + lc_scaleX b' * lc_width b')
                   = passSpacing g self
              else lc_x b' - (lc_x a' + lc_scaleX a' * lc_width a')
                   = passSpacing g self).
  { intros Hfast L w self' w' k a b a' b' H Ha Hb Hpa Hpb Ha' Hb'.
    exact (instant_gap L g self w self' w' k a b a' b'
                       Hfast H Ha Hb Hpa Hpb Ha' Hb'). }
  assert (Hcap : maxSpacingBetweenCards g usedW = cap).
  { unfold maxSpacingBetweenCards, cap. now destruct (keldonMode g). }
  assert (Hs : passSpacing g self
               = if Rgt_dec quotient cap then cap else quotient).
  { unfold passSpacing. rewrite spacingBetweenCards_eq. cbv zeta.
    fold W n usedW.
    rewrite Hcap.
    destruct (1 <? n)%nat eqn:E; [reflexivity |].
    apply Nat.ltb_ge in E. lia. }
  assert (Hnonneg : 0 <= height self ->
                    Forall (fun c => 0 <= lc_width c) (children self) ->
                    0 <= cap).
  { intros HH Hall.
    assert (0 <= usedW) by (apply usedWidthFrom_nonneg; auto; lra).
    unfold cap. destruct (keldonMode g); lra. }
  assert (Hmain :
            passSpacing g self = Rmin quotient cap
            /\ passSpacing g self <= cap
            /\ (quotient <= cap -> passSpacing g self = quotient)
            /\ (cap < quotient -> passSpacing g self = cap)
            /\ (0 <= height self ->
                Forall (fun c => 0 <= lc_width c) (children self) ->
                quotient < 0 -> passSpacing g self = quotient)).
  { rewrite Hs. unfold Rmin.
    destruct (Rgt_dec quotient cap) as [Hgt | Hle];
      destruct (Rle_dec quotient cap) as [Hle' | Hgt'];
      try (exfalso; lra);
      (split; [lra |]); (split; [lra |]); (split; [intros; lra |]);
      (split; [intros; lra |]).
    - intros HH Hall Hneg. specialize (Hnonneg HH Hall). lra.
    - intros; lra. }
  destruct Hmain as (H1 & H2 & H3 & H4 & H5).
  repeat (split; [assumption |]). exact Hgap.
Qed.

Lemma spacing_is_capped_quotient_witness :
  let g := mkGlobals true false false [] [] in
  let c := mkChild 100 100 0 0 1 1 0 1 true None false (mkCard None) in
  let self := mkLayout 250 100 (mkVec 0 0) "left" false 0 false [c; c; c] in
  (1 < List.length (children self))%nat
  /\ passSpacing g self = (250 - 300) / (INR 3 - 1).
Proof.
  intros g c self.
  assert (Hn : (1 < List.length (children self))%nat) by (simpl; lia).
  split; [exact Hn |].
  assert (Hu : usedWidth (height self) (children self) = 300).
  { subst self c. unfold usedWidth. simpl children. simpl height.
    repeat (rewrite usedWidthFrom_count by (simpl; lra)).
    rewrite usedWidthFrom_fold. simpl. lra. }
  destruct (spacing_is_capped_quotient g self Hn)
    as (_ & _ & _ & _ & Hneg & _).
  rewrite Hu in Hneg. subst self c. apply Hneg.
  - simpl. lra.
  - simpl. repeat constructor; simpl; lra.
  - simpl. lra.
Defined.

(* ------------------------------------------------------------------ *)
(** ** Children without height *)

(** C3, as the spec states it, fails.  A hand of width 400 and height 100
    holds a child of natural height 0 and then a card of 100 by 100; the
    spacing of the pass is 4.  The round of the first child leaves the
    cursor at 0, where the claim has it move by the spacing to 4, and the
    card is placed at 0. *)
Lemma child_without_height_counterexample :
  let g := mkGlobals true false false [] [] in
  let flat := mkChild 100 0 7 8 1 1 0 1 false None false (mkCard None) in
  let card1 := mkChild 100 100 7 8 1 1 0 1 true None false (mkCard None) in
  let self :=
    mkLayout 400 100 (mkVec 0 0) "left" false 0 false [flat; card1] in
  let w := mkWorld [] 0 [] in
  passSpacing g self = 4
  /\ passStartX g self = 0
  /\ placeChild 0.5 g self 4 0 0 flat w = (show flat, w, Ok 0)
  /\ 0 <> 0 + (0 + 4) * 1
  /\ exists second w',
      doLayout 0.5 g self w
      = (set_children [show flat; second] self, w', Ok tt)
      /\ lc_x second = 0.
Proof.
  intros g flat card1 self w.
  assert (Hu : usedWidth (height self) (children self) = 100).
  { unfold usedWidth. subst self. simpl children. simpl height.
    rewrite usedWidthFrom_skip by (subst flat; simpl; lra).
    rewrite usedWidthFrom_count by (subst card1; simpl; lra).
    rewrite usedWidthFrom_fold. subst card1. simpl. lra. }
  assert (Hs : passSpacing g self = 4).
  { unfold passSpacing. rewrite Hu.
    rewrite spacingBetweenCards_eq. unfold maxSpacingBetweenCards.
    subst self g. simpl.
    match goal with |- context [Rgt_dec ?a ?b] => destruct (Rgt_dec a b) end;
      lra. }
  assert (Hx : passStartX g self = 0) by reflexivity.
  split; [exact Hs |]. split; [exact Hx |].
  split; [apply placeChild_skipped; subst flat; simpl; lra |].
  split; [lra |].
  rewrite doLayout_eq, Hs, Hx. subst self. simpl children.
  rewrite placeChildren_cons, placeChild_skipped
    by (subst flat; simpl; lra).
  rewrite placeChildren_cons, placeChild_instant
    by (subst card1; simpl; try reflexivity; lra).
  simpl placeChildren. cbv iota beta.
  eexists; eexists. split; [reflexivity |].
  unfold newXOf. subst card1. simpl. lra.
Qed.

(** C3, amended.  A child of non-positive natural height is left out of the
    width the cards use; its round forces it visible, changes nothing else
    of it (position, scale, rotation, opacity, tween handle and misplay flag
    stay as they were), makes no call and leaves the world alone, and returns
    the cursor as it got it: the loop goes on to the next child without the
    cursor-advancement step.  After a pass that returns, the child is its
    former self made visible, the pass has made no call on it, and the round
    of the next child was entered with the cursor with which the round of
    this child was entered. *)
Theorem child_without_height_is_shown_and_skipped :
  forall (L : R) (g : Globals) (self : CardLayout) (w : World)
         (k : nat) (c : LayoutChild),
    nth_error (children self) k = Some c ->
    lc_height c <= 0 ->
    usedWidth (height self) (children self)
    = usedWidth (height self)
                (firstn k (children self) ++ skipn (S k) (children self))
    /\ (forall spacing i x wk,
           placeChild L g self spacing i x c wk = (show c, wk, Ok x))
    /\ (lc_visible (show c) = true
        /\ lc_x (show c) = lc_x c /\ lc_y (show c) = lc_y c
        /\ lc_scaleX (show c) = lc_scaleX c
        /\ lc_scaleY (show c) = lc_scaleY c
        /\ lc_rotation (show c) = lc_rotation c
        /\ lc_opacity (show c) = lc_opacity c
        /\ tween (show c) = tween c
        /\ doMisplayAnimation (show c) = doMisplayAnimation c)
    /\ (forall self' w',
           doLayout L g self w = (self', w', Ok tt) ->
           nth_error (children self') k = Some (show c)
           /\ callsOn k (calls w') = callsOn k (calls w)
           /\ forall b,
               nth_error (children self) (S k) = Some b ->
               exists wb b' wb' x',
                 placeChild L g self (passSpacing g self) (S k)
                            (cursorAt self (passSpacing g self)
                                      (passStartX g self) (children self) k)
                            b wb
                 = (b', wb', Ok x')
                 /\ nth_error (children self') (S k) = Some b').
Proof.
  intros L g self w k c Hk Hflat.
  split; [| split; [| split]].
  - unfold usedWidth.
    rewrite (nth_error_middle _ _ _ _ Hk) at 1.
    rewrite !usedWidthFrom_app. now rewrite usedWidthFrom_skip.
  - intros. now apply placeChild_skipped.
  - repeat split.
  - intros self' w' H.
    destruct (doLayout_round _ _ _ _ _ _ H _ _ Hk)
      as (wk & c' & wk' & round & Hr & Hn & Hcalls & Hon).
    rewrite placeChild_skipped in Hr by exact Hflat.
    injection Hr as <- <- _.
    rewrite <- (app_nil_r (calls wk)) in Hcalls at 1.
    apply app_inv_head in Hcalls. subst round.
    split; [exact Hn |]. split; [now rewrite Hon, app_nil_r |].
    intros b Hb.
    destruct (doLayout_round _ _ _ _ _ _ H _ _ Hb)
      as (wb & b' & wb' & _ & Hrb & Hnb & _).
    rewrite (cursorAt_succ _ _ _ _ _ _ Hk) in Hrb at 1.
    unfold advance at 1 in Hrb.
    destruct (Rle_dec (lc_height c) 0); [| contradiction].
    exists wb, b', wb'. eexists. split; [exact Hrb | exact Hnb].
Qed.

Lemma child_without_height_is_shown_and_skipped_witness :
  let g := mkGlobals true false false [] [] in
  let flat := mkChild 100 0 7 8 1 1 0 1 false None false (mkCard None) in
  let card1 := mkChild 100 100 7 8 1 1 0 1 true None false (mkCard None) in
  let self :=
    mkLayout 400 100 (mkVec 0 0) "left" false 0 false [flat; card1] in
  nth_error (children self) 0 = Some flat
  /\ lc_height flat <= 0
  /\ placeChild 0.5 g self 4 0 0 flat (mkWorld [] 0 [])
     = (show flat, mkWorld [] 0 [], Ok 0).
Proof.
  intros g flat card1 self.
  assert (Hk : nth_error (children self) 0 = Some flat) by reflexivity.
  assert (Hflat : lc_height flat <= 0) by (simpl; lra).
  split; [exact Hk |]. split; [exact Hflat |].
  apply (proj1 (proj2 (child_without_height_is_shown_and_skipped
                         0.5 g self (mkWorld [] 0 []) 0 flat Hk Hflat))).
Defined.

(* ------------------------------------------------------------------ *)
(** ** The animated rounds, call by call *)

Lemma destroyTweenOf_calls :
  forall c w, calls (destroyTweenOf c w) = calls w.
Proof. intros c w. unfold destroyTweenOf. now destruct (tween c). Qed.

Lemma destroyTweenOf_next_id :
  forall c w, next_id (destroyTweenOf c w) = next_id w.
Proof. intros c w. unfold destroyTweenOf. now destruct (tween c). Qed.

(** The round of a child that slides into place: the notice that a tween
    starts, the shadow, and the call of [animate] with the layout tween.
    With skip-animation off the driver starts that tween and the round ends
    there; with skip-animation on the tween resolves within the round. *)
Lemma placeChild_animated_world :
  forall L g self spacing i x c w,
    animateFast g = false -> 0 < lc_height c ->
    doMisplayAnimation c = false ->
    let cfg := layoutTween L (newXOf self x c) (scaleOf self c) in
    let w' := snd (fst (placeChild L g self spacing i x c w)) in
    let c' := fst (fst (placeChild L g self spacing i x c w)) in
    calls w'
    = calls w
      ++ [(i, startedTweening); (i, setRaiseAndShadowOffset);
          (i, animateCall cfg (negb (speedrun g)))]
      ++ (if speedrun g
          then [(i, finishedTweening); (i, checkSetDraggable)]
          else [])
    /\ (speedrun g = false ->
        in_flight w'
        = in_flight (destroyTweenOf c w) ++ [mkTweenObj (next_id w) i cfg]
        /\ next_id w' = S (next_id w)
        /\ c' = set_tween (Some (next_id w)) (set_tween None (show c))).
Proof.
  intros L g self spacing i x c w Hfast Hpos Hflag cfg w' c'.
  subst w' c'. rewrite placeChild_animated by assumption.
  cbv zeta. cbn [fst snd]. fold cfg.
  destruct (speedrun g); cbn [negb].
  - rewrite animate_untimed. split; [| discriminate].
    unfold cfg, layoutTween. simpl.
    rewrite destroyTweenOf_calls. now rewrite <- !app_assoc.
  - rewrite animate_timed. simpl. rewrite destroyTweenOf_calls.
    split; [now rewrite <- !app_assoc |].
    intros _. now rewrite destroyTweenOf_next_id.
Qed.

(** The round of a child that has just misplayed: the notice that a tween
    starts, the shadow, and the call of [animate] with the misplay tween.
    With skip-animation on, both tweens resolve within the round. *)
Lemma placeChild_misplay_world :
  forall L g self spacing i x c w playStack,
    animateFast g = false -> 0 < lc_height c ->
    doMisplayAnimation c = true ->
    playStackGet g (suitAt g (suitIndex (card c))) = Some playStack ->
    let cfg :=
      misplayTween L self playStack (newXOf self x c) (scaleOf self c) in
    let w' := snd (fst (placeChild L g self spacing i x c w)) in
    let c' := fst (fst (placeChild L g self spacing i x c w)) in
    calls w'
    = calls w
      ++ [(i, startedTweening); (i, setRaiseAndShadowOffset);
          (i, animateCall cfg (negb (speedrun g)))]
      ++ (if speedrun g
          then [(i, animateCall
                      (layoutTween L (newXOf self x c) (scaleOf self c))
                      false);
                (i, finishedTweening); (i, checkSetDraggable)]
          else [])
    /\ (speedrun g = false ->
        in_flight w'
        = in_flight (destroyTweenOf c w) ++ [mkTweenObj (next_id w) i cfg]
        /\ next_id w' = S (next_id w)
        /\ c' = set_tween (Some (next_id w))
                  (set_doMisplayAnimation false (set_tween None (show c)))).
Proof.
  intros L g self spacing i x c w playStack Hfast Hpos Hflag Hget cfg w' c'.
  subst w' c'.
  rewrite (@placeChild_misplay L g self spacing) with (playStack := playStack)
    by assumption.
  cbv zeta. cbn [fst snd]. fold cfg.
  destruct (speedrun g) eqn:Hspeed; cbn [negb].
  - rewrite animate_untimed. split; [| discriminate].
    unfold cfg, misplayTween. cbn [tc_onFinish runCallback].
    rewrite Hspeed. cbn [negb]. rewrite animate_untimed.
    unfold layoutTween. simpl.
    rewrite destroyTweenOf_calls. now rewrite <- !app_assoc.
  - rewrite animate_timed. simpl. rewrite destroyTweenOf_calls.
    split; [now rewrite <- !app_assoc |].
    intros _. now rewrite destroyTweenOf_next_id.
Qed.

(* ------------------------------------------------------------------ *)
(** ** Tweening notices *)

Lemma instant_round_calls :
  forall L g self spacing i x c w c' w' r new,
    animateFast g = true ->
    placeChild L g self spacing i x c w = (c', w', r) ->
    calls w' = calls w ++ new ->
    Forall (fun ic => tweeningNotice (snd ic) = false) new.
Proof.
  intros L g self spacing i x c w c' w' r new Hfast H Hnew.
  destruct (Rle_dec (lc_height c) 0) as [Hflat | Hpos].
  - rewrite placeChild_skipped in H by exact Hflat.
    injection H as _ <- _.
    rewrite <- (app_nil_r (calls w)) in Hnew at 1.
    apply app_inv_head in Hnew. subst new. constructor.
  - apply Rnot_le_lt in Hpos.
    rewrite placeChild_instant in H by assumption.
    injection H as _ <- _. simpl in Hnew.
    rewrite destroyTweenOf_calls, <- app_assoc in Hnew.
    apply app_inv_head in Hnew. subst new. repeat constructor.
Qed.

(** C10.  In instant mode a pass returns, and none of the calls it makes is
    [startedTweening] or [finishedTweening].  Those are calls of the animated
    path: there, the calls a pass makes on a child of positive height begin
    with [startedTweening], and with skip-animation off [finishedTweening]
    is not among them; it is the first thing the completion callback of the
    layout tween does, followed by the draggability check. *)
Theorem instant_pass_sends_no_tweening_notice :
  forall (L : R) (g : Globals) (self : CardLayout) (w : World),
    (animateFast g = true ->
     exists self' w' new,
       doLayout L g self w = (self', w', Ok tt)
       /\ calls w' = calls w ++ new
       /\ Forall (fun ic => tweeningNotice (snd ic) = false) new)
    /\ (animateFast g = false ->
        forall self' w' k c,
          doLayout L g self w = (self', w', Ok tt) ->
          nth_error (children self) k = Some c ->
          0 < lc_height c ->
          exists rest,
            callsOn k (calls w')
            = callsOn k (calls w) ++ startedTweening :: rest
            /\ (speedrun g = false -> ~ In finishedTweening rest))
    /\ (forall i c wk,
           runCallback g i c layoutFinished wk
           = (c, call i checkSetDraggable (call i finishedTweening wk))).
Proof.
  intros L g self w. split; [| split].
  - intros Hfast. rewrite doLayout_eq.
    pose proof (placeChildren_instant_returns
                  L g self (passSpacing g self) (children self) 0
                  (passStartX g self) w Hfast) as Hret.
    destruct (placeChildren L g self (passSpacing g self) 0
                            (passStartX g self) (children self) w)
      as [[cs' w'] r] eqn:E.
    simpl in Hret. subst r.
    destruct (placeChildren_calls _ _ _ _ _ _ _ _ _ _ _ E) as (new & Hnew & _).
    exists (set_children cs' self), w', new.
    split; [reflexivity |]. split; [exact Hnew |].
    eapply placeChildren_calls_all; [| exact E | exact Hnew].
    intros. eapply instant_round_calls; eassumption.
  - intros Hfast self' w' k c H Hk Hpos.
    destruct (doLayout_round _ _ _ _ _ _ H _ _ Hk)
      as (wk & c' & wk' & round & Hr & Hn & Hcalls & Hon).
    rewrite Hon.
    destruct (doMisplayAnimation c) eqn:Hflag.
    + destruct (playStackGet g (suitAt g (suitIndex (card c))))
        as [playStack |] eqn:Hget.
      * pose proof (@placeChild_misplay_world
                      L g self (passSpacing g self) k
                      (cursorAt self (passSpacing g self) (passStartX g self)
                                (children self) k)
                      c wk playStack Hfast Hpos Hflag Hget) as [Hw _].
        rewrite Hr in Hw. cbn [fst snd] in Hw.
        rewrite Hcalls in Hw. apply app_inv_head in Hw. subst round.
        eexists. split; [reflexivity |].
        intros Hspeed. rewrite Hspeed. simpl.
        intros [Hc | [Hc | []]]; discriminate.
      * rewrite placeChild_throws in Hr by assumption. discriminate.
    + pose proof (@placeChild_animated_world
                    L g self (passSpacing g self) k
                    (cursorAt self (passSpacing g self) (passStartX g self)
                              (children self) k)
                    c wk Hfast Hpos Hflag) as [Hw _].
      rewrite Hr in Hw. cbn [fst snd] in Hw.
      rewrite Hcalls in Hw. apply app_inv_head in Hw. subst round.
      eexists. split; [reflexivity |].
      intros Hspeed. rewrite Hspeed. simpl.
      intros [Hc | [Hc | []]]; discriminate.
  - reflexivity.
Qed.

Lemma instant_pass_sends_no_tweening_notice_witness :
  let instant := mkGlobals true false false [] [] in
  let timed := mkGlobals false false false [] [] in
  let c := mkChild 100 100 7 8 1 1 0 1 true None false (mkCard None) in
  let self := mkLayout 400 100 (mkVec 0 0) "left" false 0 false [c; c] in
  let w := mkWorld [] 0 [] in
  animateFast instant = true
  /\ (exists self' w' new,
         doLayout 0.5 instant self w = (self', w', Ok tt)
         /\ calls w' = calls w ++ new
         /\ Forall (fun ic => tweeningNotice (snd ic) = false) new)
  /\ animateFast timed = false
  /\ snd (doLayout 0.5 timed self w) = Ok tt
  /\ exists rest,
      callsOn 1 (calls (snd (fst (doLayout 0.5 timed self w))))
      = callsOn 1 (calls w) ++ startedTweening :: rest.
Proof.
  intros instant timed c self w.
  split; [reflexivity |].
  split;
    [exact (proj1 (instant_pass_sends_no_tweening_notice 0.5 instant self w)
                  eq_refl) |].
  split; [reflexivity |].
  assert (Hret : snd (doLayout 0.5 timed self w) = Ok tt).
  { rewrite doLayout_eq. subst self. simpl children.
    rewrite placeChildren_cons.
    rewrite placeChild_animated by (subst c; simpl; try reflexivity; lra).
    cbv zeta. cbn [fst snd negb speedrun timed].
    rewrite animate_timed, placeChildren_cons.
    rewrite placeChild_animated by (subst c; simpl; try reflexivity; lra).
    cbv zeta. cbn [fst snd negb speedrun timed].
    rewrite animate_timed. reflexivity. }
  split; [exact Hret |].
  destruct (doLayout 0.5 timed self w) as [[self' w'] r] eqn:E.
  simpl in Hret. subst r. cbn [fst snd].
  destruct (proj1 (proj2 (instant_pass_sends_no_tweening_notice
                            0.5 timed self w))
                  eq_refl self' w' 1%nat c E eq_refl)
    as (rest & Hrest & _).
  - subst c. simpl. lra.
  - exists rest. exact Hrest.
Defined.

(* ------------------------------------------------------------------ *)
(** ** Four cards that fill the hand *)

(** C7.  A hand of width 400 and height 100, centered and not reversed,
    holds four children of natural size 100 by 100.  The width they use is
    400, the spacing of the pass is 0, and the first cursor is 0.  In instant
    mode the pass returns with the children at x = 0, 100, 200, 300, at
    scale 1 on both axes; on the animated path a pass that returns has asked
    the driver, for each child that has not misplayed, for the layout tween
    to the same x and scale. *)
Theorem four_cards_fill_the_hand :
  forall (L : R) (g : Globals) (c1 c2 c3 c4 : LayoutChild)
         (pos : Vector2d) (rot : R) (emp : bool) (w : World),
    Forall (fun c => lc_width c = 100 /\ lc_height c = 100)
           [c1; c2; c3; c4] ->
    let self :=
      mkLayout 400 100 pos "center" false rot emp [c1; c2; c3; c4] in
    usedWidth (height self) (children self) = 400
    /\ passSpacing g self = 0
    /\ passStartX g self = 0
    /\ (animateFast g = true ->
        exists d1 d2 d3 d4 w',
          doLayout L g self w
          = (set_children [d1; d2; d3; d4] self, w', Ok tt)
          /\ map lc_x [d1; d2; d3; d4] = [0; 100; 200; 300]
          /\ map lc_y [d1; d2; d3; d4] = [0; 0; 0; 0]
          /\ map lc_scaleX [d1; d2; d3; d4] = [1; 1; 1; 1]
          /\ map lc_scaleY [d1; d2; d3; d4] = [1; 1; 1; 1])
    /\ (animateFast g = false ->
        forall self' w' k c,
          doLayout L g self w = (self', w', Ok tt) ->
          nth_error [c1; c2; c3; c4] k = Some c ->
          doMisplayAnimation c = false ->
          In (animateCall (layoutTween L (100 * INR k) 1)
                          (negb (speedrun g)))
             (callsOn k (calls w'))).
Proof.
  intros L g c1 c2 c3 c4 pos rot emp w Hall self.
  inversion Hall as [| ? ? [Hw1 Hh1] Hall1]; subst.
  inversion Hall1 as [| ? ? [Hw2 Hh2] Hall2]; subst.
  inversion Hall2 as [| ? ? [Hw3 Hh3] Hall3]; subst.
  inversion Hall3 as [| ? ? [Hw4 Hh4] _]; subst.
  assert (Hu : usedWidth (height self) (children self) = 400).
  { unfold usedWidth. subst self. simpl children. simpl height.
    repeat (rewrite usedWidthFrom_count by lra).
    rewrite usedWidthFrom_fold. simpl.
    rewrite Hw1, Hh1, Hw2, Hh2, Hw3, Hh3, Hw4, Hh4. lra. }
  assert (Hs : passSpacing g self = 0).
  { unfold passSpacing. rewrite Hu.
    rewrite spacingBetweenCards_eq. unfold maxSpacingBetweenCards.
    subst self. simpl.
    match goal with |- context [Rgt_dec ?a ?b] => destruct (Rgt_dec a b) end;
      destruct (keldonMode g); lra. }
  assert (Hx : passStartX g self = 0).
  { unfold passStartX. rewrite Hs, Hu, startX_eq. unfold totalWidth.
    subst self. simpl.
    match goal with |- context [Rlt_dec ?a ?b] => destruct (Rlt_dec a b) end;
      lra. }
  assert (Hadv : forall x c,
             lc_width c = 100 -> lc_height c = 100 ->
             advance self 0 x c = x + 100).
  { intros x c Hw Hh. rewrite advance_counted by lra.
    subst self. simpl. rewrite Hw, Hh. lra. }
  assert (Hscale : forall c, lc_height c = 100 -> scaleOf self c = 1).
  { intros c Hh. unfold scaleOf. subst self. simpl. rewrite Hh. lra. }
  assert (HnewX : forall x c, newXOf self x c = x).
  { intros x c. unfold newXOf. subst self. simpl. lra. }
  split; [exact Hu |]. split; [exact Hs |]. split; [exact Hx |]. split.
  - intros Hfast. rewrite doLayout_eq, Hs, Hx.
    change (children self) with [c1; c2; c3; c4].
    do 4 (rewrite placeChildren_cons, placeChild_instant by (auto; lra)).
    simpl placeChildren. cbv iota beta.
    do 5 eexists. split; [reflexivity |].
    rewrite !HnewX, !Hscale by assumption.
    rewrite !Hadv by assumption.
    simpl. repeat split; repeat f_equal; lra.
  - intros Hfast self' w' k c H Hk Hflag.
    assert (Hc : lc_width c = 100 /\ lc_height c = 100).
    { apply (proj1 (Forall_forall _ _) Hall c).
      eapply nth_error_In; eassumption. }
    destruct Hc as [Hw Hh].
    assert (Hcursor : cursorAt self 0 0 [c1; c2; c3; c4] k = 100 * INR k).
    { destruct k as [| [| [| [| k]]]];
        [| | | | simpl in Hk; destruct k; discriminate];
        unfold cursorAt; simpl firstn; simpl fold_left;
        rewrite ?Hadv by assumption; simpl; lra. }
    destruct (doLayout_round _ _ _ _ _ _ H k _ Hk)
      as (wk & c' & wk' & round & Hr & Hn & Hcalls & Hon).
    rewrite Hs, Hx in Hr.
    change (children self) with [c1; c2; c3; c4] in Hr.
    rewrite Hcursor in Hr.
    pose proof (@placeChild_animated_world
                  L g self 0 k (100 * INR k) c wk Hfast
                  ltac:(lra) Hflag) as [Hworld _].
    rewrite Hr in Hworld. cbn [fst snd] in Hworld.
    rewrite Hcalls in Hworld. apply app_inv_head in Hworld.
    rewrite HnewX, Hscale in Hworld by assumption.
    rewrite Hon, Hworld. apply in_or_app. right.
    simpl. right. right. now left.
Qed.

Lemma four_cards_fill_the_hand_witness :
  let g := mkGlobals true false false [] [] in
  let c := mkChild 100 100 7 8 2 2 45 0 false None false (mkCard None) in
  let self :=
    mkLayout 400 100 (mkVec 0 0) "center" false 0 false [c; c; c; c] in
  Forall (fun c => lc_width c = 100 /\ lc_height c = 100) [c; c; c; c]
  /\ passSpacing g self = 0
  /\ exists d1 d2 d3 d4 w',
      doLayout 0.5 g self (mkWorld [] 0 [])
      = (set_children [d1; d2; d3; d4] self, w', Ok tt)
      /\ map lc_x [d1; d2; d3; d4] = [0; 100; 200; 300].
Proof.
  intros g c self.
  assert (Hall : Forall (fun c => lc_width c = 100 /\ lc_height c = 100)
                        [c; c; c; c])
    by (repeat constructor).
  split; [exact Hall |].
  destruct (four_cards_fill_the_hand
              0.5 g c c c c (mkVec 0 0) 0 false (mkWorld [] 0 []) Hall)
    as (_ & Hs & _ & Hinstant & _).
  split; [exact Hs |].
  destruct (Hinstant eq_refl)
    as (d1 & d2 & d3 & d4 & w' & Hpass & Hxs & _).
  exists d1, d2, d3, d4, w'. split; [exact Hpass | exact Hxs].
Defined.

(* ------------------------------------------------------------------ *)
(** ** Tweens in flight and handle slots *)

Lemma nth_error_at :
  forall (A : Type) (pre post : list A) a,
    nth_error (pre ++ a :: post) (List.length pre) = Some a.
Proof.
  intros A pre post a. rewrite nth_error_app2 by lia.
  now rewrite Nat.sub_diag.
Qed.

Lemma nth_error_away :
  forall (A : Type) (pre post : list A) a b k,
    k <> List.length pre ->
    nth_error (pre ++ a :: post) k = nth_error (pre ++ b :: post) k.
Proof.
  intros A pre post a b k Hk.
  destruct (Nat.lt_ge_cases k (List.length pre)) as [Hlt | Hge].
  - now rewrite !nth_error_app1 by exact Hlt.
  - rewrite !nth_error_app2 by exact Hge.
    destruct (k - List.length pre)%nat as [| m] eqn:E; [lia | reflexivity].
Qed.

Lemma filter_nil_when :
  forall (A : Type) (f : A -> bool) (l : list A),
    (forall a, In a l -> f a = false) -> filter f l = [].
Proof.
  intros A f l H. induction l as [| a l IH]; [reflexivity |].
  simpl. rewrite (H a (or_introl eq_refl)).
  apply IH. intros b Hb. apply H. now right.
Qed.

Lemma filter_same_when :
  forall (A : Type) (f g : A -> bool) (l : list A),
    (forall a, In a l -> f a = true -> g a = true) ->
    filter f (filter g l) = filter f l.
Proof.
  intros A f g l H. induction l as [| a l IH]; [reflexivity |].
  assert (IH' : filter f (filter g l) = filter f l)
    by (apply IH; intros b Hb; apply H; now right).
  simpl. destruct (g a) eqn:Eg; simpl.
  - now rewrite IH'.
  - destruct (f a) eqn:Ef; [| exact IH'].
    rewrite (H a (or_introl eq_refl) Ef) in Eg. discriminate.
Qed.

Lemma NoDup_map_filter :
  forall (A B : Type) (f : A -> B) (p : A -> bool) (l : list A),
    NoDup (map f l) -> NoDup (map f (filter p l)).
Proof.
  intros A B f p l H. induction l as [| a l IH]; [constructor |].
  simpl in *. inversion H as [| ? ? Hnotin Hnodup]; subst.
  destruct (p a); [| now apply IH].
  simpl. constructor; [| now apply IH].
  intros Hin. apply Hnotin. apply in_map_iff in Hin.
  destruct Hin as (b & Hb & Hbin). apply filter_In in Hbin.
  apply in_map_iff. exists b. tauto.
Qed.

Lemma tweensOf_length :
  forall cs w k, tweenInv cs w -> (List.length (tweensOf k w) <= 1)%nat.
Proof.
  intros cs w k (_ & Hnodup & Hslot & _).
  unfold tweensOf.
  assert (Hsame : forall t t',
             In t (in_flight w) -> In t' (in_flight w) ->
             tw_node t = k -> tw_node t' = k -> tw_id t = tw_id t').
  { intros t t' Ht Ht' Hn Hn'.
    destruct (Hslot t Ht) as (c & Hc & Hid).
    destruct (Hslot t' Ht') as (c' & Hc' & Hid').
    rewrite Hn in Hc. rewrite Hn' in Hc'. congruence. }
  induction (in_flight w) as [| t l IH]; [simpl; lia |].
  simpl in Hnodup. inversion Hnodup as [| ? ? Hnotin Hnodup']; subst.
  simpl. destruct (tw_node t =? k)%nat eqn:E.
  - apply Nat.eqb_eq in E.
    rewrite filter_nil_when; [simpl; lia |].
    intros t' Ht'. apply Nat.eqb_neq. intros E'.
    apply Hnotin. apply in_map_iff. exists t'. split; [| exact Ht'].
    symmetry. apply Hsame; simpl; auto.
  - apply IH; [exact Hnodup' | |].
    + intros t' Ht'. apply Hslot. now right.
    + intros t1 t2 H1 H2. apply Hsame; now right.
Qed.

Lemma tweenInv_same_world :
  forall cs w w',
    in_flight w' = in_flight w -> next_id w' = next_id w ->
    tweenInv cs w -> tweenInv cs w'.
Proof.
  intros cs w w' Hf Hn H. unfold tweenInv in *. now rewrite Hf, Hn.
Qed.

Lemma tweenInv_destroy :
  forall cs w id, tweenInv cs w -> tweenInv cs (destroy id w).
Proof.
  intros cs w id (Hfresh & Hnodup & Hslot & Hold & Hinj).
  unfold tweenInv, destroy. simpl.
  split; [| split; [| split; [| split]]]; auto.
  - intros t Ht. apply filter_In in Ht. now apply Hfresh.
  - now apply NoDup_map_filter.
  - intros t Ht. apply filter_In in Ht. now apply Hslot.
Qed.

Lemma no_tween_of :
  forall k w,
    (forall t, In t (in_flight w) -> tw_node t <> k) -> tweensOf k w = [].
Proof.
  intros k w H. unfold tweensOf. apply filter_nil_when.
  intros t Ht. apply Nat.eqb_neq. now apply H.
Qed.

Lemma tweensOf_nil_node :
  forall k w t, tweensOf k w = [] -> In t (in_flight w) -> tw_node t <> k.
Proof.
  intros k w t Hnil Ht Hk.
  assert (Hin : In t (tweensOf k w)).
  { unfold tweensOf. apply filter_In. split; [exact Ht |].
    now apply Nat.eqb_eq. }
  rewrite Hnil in Hin. contradiction.
Qed.

(** Destroying the tween whose handle a child holds leaves no tween in
    flight for that child, and leaves the tweens of the other children in
    flight. *)
Lemma tweensOf_destroyTweenOf :
  forall pre c post w,
    tweenInv (pre ++ c :: post) w ->
    tweensOf (List.length pre) (destroyTweenOf c w) = []
    /\ (forall k, k <> List.length pre ->
          tweensOf k (destroyTweenOf c w) = tweensOf k w).
Proof.
  intros pre c post w (Hfresh & Hnodup & Hslot & Hold & Hinj).
  unfold destroyTweenOf. destruct (tween c) as [id |] eqn:Hc.
  - split.
    + apply no_tween_of. intros t Ht Hnode. simpl in Ht.
      apply filter_In in Ht. destruct Ht as [Ht Hid].
      destruct (Hslot t Ht) as (c0 & Hc0 & Hid0).
      rewrite Hnode, nth_error_at in Hc0. injection Hc0 as <-.
      rewrite Hc in Hid0. injection Hid0 as Heq. subst id.
      rewrite Nat.eqb_refl in Hid. discriminate.
    + intros k Hk. unfold tweensOf, destroy. simpl.
      apply filter_same_when. intros t Ht Hnode.
      apply Nat.eqb_eq in Hnode.
      destruct (Hslot t Ht) as (c0 & Hc0 & Hid0).
      destruct (tw_id t =? id)%nat eqn:E; [| reflexivity].
      apply Nat.eqb_eq in E. subst id. exfalso. apply Hk.
      rewrite <- Hnode.
      exact (Hinj _ _ _ _ _ Hc0 (nth_error_at _ pre post c) Hid0 Hc).
  - split; [| reflexivity].
    apply no_tween_of. intros t Ht Hnode.
    destruct (Hslot t Ht) as (c0 & Hc0 & Hid0).
    rewrite Hnode, nth_error_at in Hc0. injection Hc0 as <-. congruence.
Qed.

Lemma tweenInv_destroyTweenOf :
  forall cs c w, tweenInv cs w -> tweenInv cs (destroyTweenOf c w).
Proof.
  intros cs c w H. unfold destroyTweenOf.
  destruct (tween c); [now apply tweenInv_destroy | exact H].
Qed.

(** A child may be replaced by one that holds the same handle, or, when no
    tween is in flight for it, by one that holds none. *)
Lemma tweenInv_reslot :
  forall pre c c' post w,
    tweenInv (pre ++ c :: post) w ->
    tween c' = tween c
    \/ (tweensOf (List.length pre) w = [] /\ tween c' = None) ->
    tweenInv (pre ++ c' :: post) w.
Proof.
  intros pre c c' post w (Hfresh & Hnodup & Hslot & Hold & Hinj) Hc'.
  assert (Hsub : forall id, tween c' = Some id -> tween c = Some id).
  { intros id Hid. destruct Hc' as [Hsame | [_ Hnone]]; congruence. }
  unfold tweenInv.
  split; [exact Hfresh |]. split; [exact Hnodup |].
  split; [| split].
  - intros t Ht. destruct (Hslot t Ht) as (c0 & Hc0 & Hid0).
    destruct (Nat.eq_dec (tw_node t) (List.length pre)) as [E | E].
    + destruct Hc' as [Hsame | [Hnil _]].
      * exists c'. rewrite E, nth_error_at in *.
        injection Hc0 as <-. split; [reflexivity | congruence].
      * exfalso. exact (tweensOf_nil_node _ _ _ Hnil Ht E).
    + exists c0. split; [| exact Hid0].
      now rewrite (nth_error_away _ pre post c' c _ E).
  - intros i c0 id Hi Hid.
    destruct (Nat.eq_dec i (List.length pre)) as [E | E].
    + subst i. rewrite nth_error_at in Hi. injection Hi as <-.
      apply (Hold _ c id (nth_error_at _ pre post c)). now apply Hsub.
    + rewrite (nth_error_away _ pre post c' c _ E) in Hi.
      now apply (Hold i c0 id).
  - intros i j c1 c2 id Hi Hj Hid1 Hid2.
    assert (Hback : forall k c0,
               nth_error (pre ++ c' :: post) k = Some c0 ->
               tween c0 = Some id ->
               exists c0', nth_error (pre ++ c :: post) k = Some c0'
                           /\ tween c0' = Some id).
    { intros k c0 Hk Hid0.
      destruct (Nat.eq_dec k (List.length pre)) as [E | E].
      - subst k. rewrite nth_error_at in Hk. injection Hk as <-.
        exists c. split; [apply nth_error_at | now apply Hsub].
      - exists c0. split; [| exact Hid0].
        now rewrite (nth_error_away _ pre post c c' _ E). }
    destruct (Hback _ _ Hi Hid1) as (d1 & Hd1 & Hid1').
    destruct (Hback _ _ Hj Hid2) as (d2 & Hd2 & Hid2').
    exact (Hinj _ _ _ _ _ Hd1 Hd2 Hid1' Hid2').
Qed.

(** Starting a tween for a child that has none in flight, under the next
    fresh identity, and storing its handle in the child's slot. *)
Lemma tweenInv_start :
  forall pre c c' post w w' cfg,
    tweenInv (pre ++ c :: post) w ->
    tweensOf (List.length pre) w = [] ->
    tween c' = Some (next_id w) ->
    in_flight w'
    = in_flight w ++ [mkTweenObj (next_id w) (List.length pre) cfg] ->
    next_id w' = S (next_id w) ->
    tweenInv (pre ++ c' :: post) w'.
Proof.
  intros pre c c' post w w' cfg
         (Hfresh & Hnodup & Hslot & Hold & Hinj) Hnil Hc' Hf Hn.
  unfold tweenInv. rewrite Hf, Hn.
  split; [| split; [| split; [| split]]].
  - intros t Ht. apply in_app_or in Ht. destruct Ht as [Ht | [<- | []]].
    + apply Hfresh in Ht. lia.
    + simpl. lia.
  - rewrite map_app. simpl.
    apply NoDup_app; [exact Hnodup | repeat constructor; auto |].
    intros id Hid [<- | []]. apply in_map_iff in Hid.
    destruct Hid as (t & Hid & Ht). apply Hfresh in Ht. lia.
  - intros t Ht. apply in_app_or in Ht. destruct Ht as [Ht | [<- | []]].
    + destruct (Hslot t Ht) as (c0 & Hc0 & Hid0).
      exists c0. split; [| exact Hid0].
      rewrite (nth_error_away _ pre post c' c); [exact Hc0 |].
      exact (tweensOf_nil_node _ _ _ Hnil Ht).
    + exists c'. simpl. split; [apply nth_error_at | exact Hc'].
  - intros i c0 id Hi Hid.
    destruct (Nat.eq_dec i (List.length pre)) as [E | E].
    + subst i. rewrite nth_error_at in Hi. injection Hi as <-.
      rewrite Hc' in Hid. injection Hid as <-. lia.
    + rewrite (nth_error_away _ pre post c' c _ E) in Hi.
      apply (Hold i c0 id) in Hi; [lia | exact Hid].
  - intros i j c1 c2 id Hi Hj Hid1 Hid2.
    assert (Hnew : forall k c0,
               nth_error (pre ++ c' :: post) k = Some c0 ->
               tween c0 = Some id ->
               (k = List.length pre /\ id = next_id w)
               \/ (k <> List.length pre
                   /\ nth_error (pre ++ c :: post) k = Some c0
                   /\ (id < next_id w)%nat)).
    { intros k c0 Hk Hid0.
      destruct (Nat.eq_dec k (List.length pre)) as [E | E].
      - left. subst k. rewrite nth_error_at in Hk. injection Hk as <-.
        split; [reflexivity | congruence].
      - right. rewrite (nth_error_away _ pre post c' c _ E) in Hk.
        repeat split; auto. exact (Hold k c0 id Hk Hid0). }
    destruct (Hnew _ _ Hi Hid1) as [[Ei Eid] | (Ei & Hi' & Hlt)];
      destruct (Hnew _ _ Hj Hid2) as [[Ej Eid'] | (Ej & Hj' & Hlt')];
      try lia.
    exact (Hinj _ _ _ _ _ Hi' Hj' Hid1 Hid2).
Qed.

Lemma tweensOf_same :
  forall k w w', in_flight w' = in_flight w -> tweensOf k w' = tweensOf k w.
Proof. intros k w w' H. unfold tweensOf. now rewrite H. Qed.

(** The driver, called on a child that has no tween in flight, keeps the
    tweens and the slots in step, leaves the tweens of the other children
    alone, and leaves in flight for the child at most the tween it starts. *)
Lemma driver_keeps_inv :
  forall pre c post w c' w',
    tweenInv (pre ++ c :: post) w ->
    tweensOf (List.length pre) w = [] ->
    ((in_flight w' = in_flight w /\ next_id w' = next_id w
      /\ tween c' = tween c)
     \/ (exists cfg',
            in_flight w'
            = in_flight w ++ [mkTweenObj (next_id w) (List.length pre) cfg']
            /\ next_id w' = S (next_id w)
            /\ tween c' = Some (next_id w))) ->
    tweenInv (pre ++ c' :: post) w'
    /\ (forall k, k <> List.length pre -> tweensOf k w' = tweensOf k w)
    /\ (next_id w <= next_id w')%nat
    /\ (forall t, In t (tweensOf (List.length pre) w') ->
          (next_id w <= tw_id t)%nat).
Proof.
  intros pre c post w c' w' Hinv Hnil
         [(Hf & Hn & Hc) | (cfg' & Hf & Hn & Hc)].
  - split; [| split; [| split]].
    + apply (tweenInv_same_world _ w w' Hf Hn).
      apply (tweenInv_reslot _ _ _ _ _ Hinv). now left.
    + intros k _. now apply tweensOf_same.
    + lia.
    + intros t Ht. rewrite (tweensOf_same _ _ _ Hf), Hnil in Ht.
      contradiction.
  - split; [| split; [| split]].
    + eapply tweenInv_start; eassumption.
    + intros k Hk. unfold tweensOf. rewrite Hf, filter_app. simpl.
      destruct (List.length pre =? k)%nat eqn:E;
        [apply Nat.eqb_eq in E; congruence | apply app_nil_r].
    + lia.
    + intros t Ht. unfold tweensOf in Ht. rewrite Hf, filter_app in Ht.
      apply in_app_or in Ht. destruct Ht as [Ht | Ht].
      * fold (tweensOf (List.length pre) w) in Ht. rewrite Hnil in Ht.
        contradiction.
      * apply filter_In in Ht. destruct Ht as [[<- | []] _]. simpl. lia.
Qed.

(** One round keeps the tweens and the slots in step.  It touches no tween
    of another child; the tweens it leaves in flight for a child of positive
    height were started in the round, whatever was in flight for the child
    before being destroyed; and on the animated path with skip-animation
    off, a round that returns leaves exactly one. *)
Lemma placeChild_tweens :
  forall L g self spacing pre c post x w c' w' r,
    tweenInv (pre ++ c :: post) w ->
    placeChild L g self spacing (List.length pre) x c w = (c', w', r) ->
    tweenInv (pre ++ c' :: post) w'
    /\ (forall k, k <> List.length pre -> tweensOf k w' = tweensOf k w)
    /\ (next_id w <= next_id w')%nat
    /\ (0 < lc_height c ->
        forall t, In t (tweensOf (List.length pre) w') ->
                  (next_id w <= tw_id t)%nat)
    /\ (0 < lc_height c -> animateFast g = false -> speedrun g = false ->
        (exists x', r = Ok x') ->
        List.length (tweensOf (List.length pre) w') = 1%nat).
Proof.
  intros L g self spacing pre c post x w c' w' r Hinv H.
  pose proof (tweensOf_destroyTweenOf _ _ _ _ Hinv) as [Hnil Hothers].
  pose proof (tweenInv_destroyTweenOf _ c _ Hinv) as Hinv1.
  assert (Hcleared :
            forall c1 w1,
              tween c1 = None ->
              in_flight w1 = in_flight (destroyTweenOf c w) ->
              next_id w1 = next_id w ->
              tweenInv (pre ++ c1 :: post) w1
              /\ tweensOf (List.length pre) w1 = []
              /\ (forall k, k <> List.length pre ->
                    tweensOf k w1 = tweensOf k w)).
  { intros c1 w1 Hc1 Hf Hn. split; [| split].
    - apply (tweenInv_same_world _ (destroyTweenOf c w));
        [exact Hf | now rewrite destroyTweenOf_next_id |].
      apply (tweenInv_reslot _ _ _ _ _ Hinv1). right. now split.
    - now rewrite (tweensOf_same _ _ _ Hf).
    - intros k Hk. rewrite (tweensOf_same _ _ _ Hf). now apply Hothers. }
  round_cases g c H.
  - injection H as <- <- <-.
    split; [apply (tweenInv_reslot _ _ _ _ _ Hinv); now left |].
    split; [reflexivity |]. split; [lia |]. split; intros; lra.
  - injection H as <- <- <-.
    destruct (Hcleared
                (snapped (newXOf self x c) (scaleOf self c)
                         (set_tween None (show c)))
                (call (List.length pre) setRaiseAndShadowOffset
                      (call (List.length pre) checkSetDraggable
                            (destroyTweenOf c w)))
                eq_refl eq_refl (destroyTweenOf_next_id c w))
      as (Hi & Hn & Ho).
    split; [exact Hi |]. split; [exact Ho |].
    split; [simpl; rewrite destroyTweenOf_next_id; lia |].
    split; [| discriminate].
    intros _ t Ht. rewrite Hn in Ht. contradiction.
  - cbv zeta in H.
    match type of H with
    | context [animate ?g ?i ?c0 ?cfg ?t ?w0] =>
      destruct (Hcleared c0 w0 eq_refl eq_refl (destroyTweenOf_next_id c w))
        as (Hi & Hn & Ho);
      pose proof (proj1 driver_effect cfg g i c0 t w0) as Heff;
      pose proof (@placeChild_misplay_world
                    L g self spacing i x c w playStack
                    Hfast Hheight Hflag Hstack) as [_ Htimed];
      rewrite (@placeChild_misplay L g self spacing) with (playStack := playStack)
        in Htimed by assumption;
      cbv zeta in Heff, Htimed;
      destruct (animate g i c0 cfg t w0) as [ca wa];
      cbn [fst snd] in H, Heff, Htimed
    end.
    destruct Heff as (_ & _ & Htw).
    injection H as <- <- <-.
    destruct (driver_keeps_inv _ _ _ _ _ _ Hi Hn Htw)
      as (Hi' & Ho' & Hn' & Hnew).
    simpl in Hn', Hnew. rewrite destroyTweenOf_next_id in Hn', Hnew.
    split; [exact Hi' |].
    split; [intros k Hk; rewrite Ho' by exact Hk; now apply Ho |].
    split; [exact Hn' |]. split; [intros _; exact Hnew |].
    intros _ _ Hspeed _. destruct (Htimed Hspeed) as (Hf & _ & _).
    unfold tweensOf. rewrite Hf, filter_app.
    fold (tweensOf (List.length pre) (destroyTweenOf c w)).
    rewrite Hnil. simpl. now rewrite Nat.eqb_refl.
  - injection H as <- <- <-.
    destruct (Hcleared
                (set_doMisplayAnimation false (set_tween None (show c)))
                (call (List.length pre) setRaiseAndShadowOffset
                      (call (List.length pre) startedTweening
                            (destroyTweenOf c w)))
                eq_refl eq_refl (destroyTweenOf_next_id c w))
      as (Hi & Hn & Ho).
    split; [exact Hi |]. split; [exact Ho |].
    split; [simpl; rewrite destroyTweenOf_next_id; lia |].
    split; [intros _ t Ht; rewrite Hn in Ht; contradiction |].
    intros _ _ _ [x' Hx]. discriminate.
  - cbv zeta in H.
    match type of H with
    | context [animate ?g ?i ?c0 ?cfg ?t ?w0] =>
      destruct (Hcleared c0 w0 eq_refl eq_refl (destroyTweenOf_next_id c w))
        as (Hi & Hn & Ho);
      pose proof (proj1 driver_effect cfg g i c0 t w0) as Heff;
      pose proof (@placeChild_animated_world
                    L g self spacing i x c w
                    Hfast Hheight Hflag) as [_ Htimed];
      rewrite placeChild_animated in Htimed by assumption;
      cbv zeta in Heff, Htimed;
      destruct (animate g i c0 cfg t w0) as [ca wa];
      cbn [fst snd] in H, Heff, Htimed
    end.
    destruct Heff as (_ & _ & Htw).
    injection H as <- <- <-.
    destruct (driver_keeps_inv _ _ _ _ _ _ Hi Hn Htw)
      as (Hi' & Ho' & Hn' & Hnew).
    simpl in Hn', Hnew. rewrite destroyTweenOf_next_id in Hn', Hnew.
    split; [exact Hi' |].
    split; [intros k Hk; rewrite Ho' by exact Hk; now apply Ho |].
    split; [exact Hn' |]. split; [intros _; exact Hnew |].
    intros _ _ Hspeed _. destruct (Htimed Hspeed) as (Hf & _ & _).
    unfold tweensOf. rewrite Hf, filter_app.
    fold (tweensOf (List.length pre) (destroyTweenOf c w)).
    rewrite Hnil. simpl. now rewrite Nat.eqb_refl.
Qed.

(** The second loop keeps the tweens and the slots in step, whether it
    returns or throws; it touches no tween of a child before its first
    index; and, when it returns, what [placeChild_tweens] says of a round
    holds of every child at the end of the loop. *)
Lemma placeChildren_tweens :
  forall L g self spacing cs pre x w cs' w' r,
    tweenInv (pre ++ cs) w ->
    placeChildren L g self spacing (List.length pre) x cs w = (cs', w', r) ->
    tweenInv (pre ++ cs') w'
    /\ (forall k, (k < List.length pre)%nat -> tweensOf k w' = tweensOf k w)
    /\ (next_id w <= next_id w')%nat
    /\ (r = Ok tt ->
        forall k c,
          nth_error cs k = Some c -> 0 < lc_height c ->
          (forall t, In t (tweensOf (List.length pre + k) w') ->
                     (next_id w <= tw_id t)%nat)
          /\ (animateFast g = false -> speedrun g = false ->
              List.length (tweensOf (List.length pre + k) w') = 1%nat)).
Proof.
  intros L g self spacing cs.
  induction cs as [| c rest IH]; intros pre x w cs' w' r Hinv H.
  - injection H as <- <- <-.
    split; [exact Hinv |]. split; [reflexivity |]. split; [lia |].
    intros _ k c Hk. destruct k; discriminate.
  - rewrite placeChildren_cons in H.
    destruct (placeChild L g self spacing (List.length pre) x c w)
      as [[c1 w1] r1] eqn:Hround.
    destruct (placeChild_tweens _ _ _ _ _ _ _ _ _ _ _ _ Hinv Hround)
      as (Hinv1 & Hothers1 & Hnext1 & Hnew1 & Hone1).
    destruct r1 as [x1 | msg].
    + destruct (placeChildren L g self spacing (S (List.length pre)) x1
                              rest w1)
        as [[rest' w2] r2] eqn:E.
      injection H as <- <- <-.
      assert (Hlen : List.length (pre ++ [c1]) = S (List.length pre))
        by (rewrite length_app; simpl; lia).
      rewrite <- Hlen in E.
      assert (Hinv1' : tweenInv ((pre ++ [c1]) ++ rest) w1)
        by (now rewrite <- app_assoc).
      destruct (IH _ _ _ _ _ _ Hinv1' E)
        as (Hinv2 & Hothers2 & Hnext2 & Hrounds).
      rewrite <- app_assoc in Hinv2. simpl in Hinv2.
      split; [exact Hinv2 |]. split; [| split; [lia |]].
      * intros k Hk. rewrite Hothers2 by lia. apply Hothers1. lia.
      * intros -> k c0 Hk Hpos.
        destruct k as [| k].
        -- injection Hk as <-. rewrite Nat.add_0_r.
           rewrite Hothers2 by lia.
           split; [now apply Hnew1 |].
           intros Hfast Hspeed. apply Hone1; auto. now exists x1.
        -- simpl in Hk.
           destruct (Hrounds eq_refl k c0 Hk Hpos) as [Hnew Hone].
           rewrite Hlen in Hnew, Hone.
           replace (List.length pre + S k)%nat
             with (S (List.length pre) + k)%nat by lia.
           split; [| exact Hone].
           intros t Ht. specialize (Hnew t Ht). lia.
    + injection H as <- <- <-.
      split; [exact Hinv1 |]. split; [| split; [exact Hnext1 |]].
      * intros k Hk. apply Hothers1. lia.
      * discriminate.
Qed.

(** After a loop that returned, no child is left that would make the next
    loop throw; and a loop over such children returns. *)
Lemma placeChildren_clears_flags :
  forall L g self spacing cs i x w cs' w',
    placeChildren L g self spacing i x cs w = (cs', w', Ok tt) ->
    Forall (fun c => placeChildThrows g c = false) cs'
    /\ map lc_height cs' = map lc_height cs.
Proof.
  intros L g self spacing cs.
  induction cs as [| c rest IH]; intros i x w cs' w' H.
  - injection H as <- _. split; [constructor | reflexivity].
  - rewrite placeChildren_cons in H.
    destruct (placeChild L g self spacing i x c w)
      as [[c1 w1] r1] eqn:Hround.
    destruct (placeChild_round _ _ _ _ _ _ _ _ _ _ _ Hround)
      as ((_ & Hh & _) & _ & _ & _ & Hflag & _).
    destruct r1 as [x1 | msg]; [| discriminate].
    destruct (placeChildren L g self spacing (S i) x1 rest w1)
      as [[rest' w2] r2] eqn:E.
    injection H as <- <- ->.
    destruct (IH _ _ _ _ _ E) as [Hall Hheights].
    split; [| simpl; now rewrite Hh, Hheights].
    constructor; [| exact Hall].
    unfold placeChildThrows. rewrite Hh.
    destruct (Rle_dec (lc_height c) 0) as [| Hpos]; [reflexivity |].
    rewrite Hflag by lra. now destruct (animateFast g).
Qed.

Lemma placeChildren_returns :
  forall L g self spacing cs i x w,
    Forall (fun c => placeChildThrows g c = false) cs ->
    snd (placeChildren L g self spacing i x cs w) = Ok tt.
Proof.
  intros L g self spacing cs.
  induction cs as [| c rest IH]; intros i x w Hall; [reflexivity |].
  inversion Hall as [| ? ? Hc Hrest]; subst.
  rewrite placeChildren_cons.
  destruct (placeChild L g self spacing i x c w)
    as [[c1 w1] r1] eqn:Hround.
  destruct (placeChild_round _ _ _ _ _ _ _ _ _ _ _ Hround)
    as (_ & _ & _ & Hthrow & _).
  destruct r1 as [x1 | msg].
  - specialize (IH (S i) x1 w1 Hrest).
    destruct (placeChildren L g self spacing (S i) x1 rest w1)
      as [[rest' w2] r2]. exact IH.
  - exfalso. assert (Ht : placeChildThrows g c = true)
      by (apply Hthrow; eexists; reflexivity).
    congruence.
Qed.

Lemma doLayout_returns :
  forall L g self w,
    Forall (fun c => placeChildThrows g c = false) (children self) ->
    snd (doLayout L g self w) = Ok tt.
Proof.
  intros L g self w Hall. rewrite doLayout_eq.
  pose proof (placeChildren_returns L g self (passSpacing g self)
                (children self) 0 (passStartX g self) w Hall) as Hret.
  destruct (placeChildren L g self (passSpacing g self) 0
                          (passStartX g self) (children self) w)
    as [[cs' w'] r].
  exact Hret.
Qed.

(** A pass keeps the tweens and the slots in step, whether it returns or
    throws. *)
Lemma doLayout_tweens :
  forall L g self w self' w' r,
    tweenInv (children self) w ->
    doLayout L g self w = (self', w', r) ->
    tweenInv (children self') w'
    /\ (next_id w <= next_id w')%nat
    /\ (r = Ok tt ->
        Forall (fun c => placeChildThrows g c = false) (children self')
        /\ forall k c,
            nth_error (children self) k = Some c -> 0 < lc_height c ->
            (exists c', nth_error (children self') k = Some c'
                        /\ lc_height c' = lc_height c)
            /\ (forall t, In t (tweensOf k w') -> (next_id w <= tw_id t)%nat)
            /\ (animateFast g = false -> speedrun g = false ->
                List.length (tweensOf k w') = 1%nat)).
Proof.
  intros L g self w self' w' r Hinv H.
  pose proof H as Hpass.
  rewrite doLayout_eq in H.
  destruct (placeChildren L g self (passSpacing g self) 0
                          (passStartX g self) (children self) w)
    as [[cs' w''] r'] eqn:E.
  injection H as <- <- <-.
  destruct (placeChildren_tweens L g self _ _ [] _ _ _ _ _ Hinv E)
    as (Hinv' & _ & Hnext & Hrounds).
  split; [exact Hinv' |]. split; [exact Hnext |].
  intros ->. split.
  - exact (proj1 (placeChildren_clears_flags _ _ _ _ _ _ _ _ _ _ E)).
  - intros k c Hk Hpos.
    destruct (Hrounds eq_refl k c Hk Hpos) as [Hnew Hone].
    split; [| split; [exact Hnew | exact Hone]].
    destruct (doLayout_round _ _ _ _ _ _ Hpass _ _ Hk)
      as (wk & c' & wk' & round & Hr & Hn & _).
    exists c'. split; [exact Hn |].
    exact (proj1 (proj2 (proj1 (placeChild_round _ _ _ _ _ _ _ _ _ _ _ Hr)))).
Qed.

(** The completion of a tween keeps the tweens and the slots in step. *)
Lemma tweenCompletes_tweens :
  forall g id self w self' w',
    tweenInv (children self) w ->
    tweenCompletes g id self w = (self', w') ->
    tweenInv (children self') w'.
Proof.
  intros g id self w self' w' Hinv H. unfold tweenCompletes in H.
  destruct (find (fun t => (tw_id t =? id)%nat) (in_flight w))
    as [t |] eqn:Hfind; [| now injection H as <- <-].
  apply find_some in Hfind. destruct Hfind as [Ht Hid].
  apply Nat.eqb_eq in Hid.
  destruct (proj1 (proj2 (proj2 Hinv)) t Ht) as (c & Hc & Hslot).
  rewrite Hc in H.
  assert (Hlen : List.length (firstn (tw_node t) (children self))
                 = tw_node t).
  { apply firstn_length_le. apply Nat.lt_le_incl.
    apply nth_error_Some. congruence. }
  pose proof (nth_error_middle _ _ _ _ Hc) as Hsplit.
  set (pre := firstn (tw_node t) (children self)) in *.
  set (post := skipn (S (tw_node t)) (children self)) in *.
  rewrite Hsplit in Hinv.
  assert (Hdestroy : destroy id w = destroyTweenOf c w)
    by (unfold destroyTweenOf; rewrite Hslot; now subst id).
  rewrite Hdestroy in H.
  pose proof (tweensOf_destroyTweenOf _ _ _ _ Hinv) as [Hnil _].
  pose proof (tweenInv_destroyTweenOf _ c _ Hinv) as Hinv1.
  assert (Hinv2 : tweenInv (pre ++ applyTargets (tw_config t) c :: post)
                           (destroyTweenOf c w))
    by (apply (tweenInv_reslot _ _ _ _ _ Hinv1); now left).
  pose proof (proj2 driver_effect (tc_onFinish (tw_config t)) g (tw_node t)
                    (applyTargets (tw_config t) c) (destroyTweenOf c w))
    as Heff.
  cbv zeta in Heff.
  destruct (runCallback g (tw_node t) (applyTargets (tw_config t) c)
                        (tc_onFinish (tw_config t)) (destroyTweenOf c w))
    as [c1 w1].
  cbn [fst snd] in Heff. destruct Heff as (_ & _ & Htw).
  injection H as <- <-. simpl.
  rewrite <- Hlen in Htw.
  exact (proj1 (driver_keeps_inv _ _ _ _ _ _ Hinv2 Hnil Htw)).
Qed.

(* ------------------------------------------------------------------ *)
(** ** One tween per child *)

Lemma placeChildren_returns_iff :
  forall L g self spacing cs i x w,
    snd (placeChildren L g self spacing i x cs w) = Ok tt
    <-> Forall (fun c => placeChildThrows g c = false) cs.
Proof.
  intros L g self spacing cs i x w. split.
  - revert i x w.
    induction cs as [| c rest IH]; intros i x w H; [constructor |].
    rewrite placeChildren_cons in H.
    destruct (placeChild L g self spacing i x c w)
      as [[c1 w1] r1] eqn:Hround.
    destruct (placeChild_round _ _ _ _ _ _ _ _ _ _ _ Hround)
      as (_ & _ & _ & Hthrow & _).
    destruct r1 as [x1 | msg].
    + constructor.
      * destruct (placeChildThrows g c) eqn:E; [| reflexivity].
        destruct (proj2 Hthrow eq_refl) as [msg Hmsg]. discriminate.
      * apply (IH (S i) x1 w1).
        destruct (placeChildren L g self spacing (S i) x1 rest w1)
          as [[rest' w2] r2]. exact H.
    + discriminate.
  - apply placeChildren_returns.
Qed.

Lemma Forall_firstn_skipn :
  forall (A : Type) (P : A -> Prop) (l : list A) (j : nat),
    Forall P l -> Forall P (firstn j l) /\ Forall P (skipn j l).
Proof.
  intros A P l j H. rewrite <- (firstn_skipn j l) in H.
  now apply Forall_app.
Qed.

(** The children a pass reaches: all of them when it returns, and in any
    case those that no child making the pass throw comes before. *)
Lemma reached_children :
  forall L g self spacing cs i x w cs' w' r k,
    placeChildren L g self spacing i x cs w = (cs', w', r) ->
    r = Ok tt
    \/ Forall (fun c => placeChildThrows g c = false) (firstn k cs) ->
    Forall (fun c => placeChildThrows g c = false) (firstn k cs).
Proof.
  intros L g self spacing cs i x w cs' w' r k H [Hok | Hall];
    [| exact Hall].
  subst r.
  apply (Forall_firstn_skipn _ _ cs k).
  apply (proj1 (placeChildren_returns_iff L g self spacing cs i x w)).
  now rewrite H.
Qed.

(** Every child a loop reaches has had its round, entered with the cursor
    the earlier children left, whether the loop then runs to its end or
    not; the child the round returns is the one the loop returns in its
    place; and the log of the loop is made of the calls on the children
    before it, then the calls of its round, then the calls on the children
    after it. *)
Lemma placeChildren_reached :
  forall L g self spacing cs i x w cs' w' r,
    placeChildren L g self spacing i x cs w = (cs', w', r) ->
    forall k c,
      nth_error cs k = Some c ->
      Forall (fun c0 => placeChildThrows g c0 = false) (firstn k cs) ->
      exists wk c' wk' rk,
        placeChild L g self spacing (i + k)
                   (cursorAt self spacing x cs k) c wk
        = (c', wk', rk)
        /\ nth_error cs' k = Some c'
        /\ exists before round after,
            calls wk = calls w ++ before
            /\ calls wk' = calls wk ++ round
            /\ calls w' = calls wk' ++ after
            /\ Forall (fun ic => (fst ic < i + k)%nat) before
            /\ Forall (fun ic => fst ic = (i + k)%nat) round
            /\ Forall (fun ic => (i + k < fst ic)%nat) after.
Proof.
  intros L g self spacing cs.
  induction cs as [| c0 rest IH]; intros i x w cs' w' r H k c Hk Hall.
  - destruct k; discriminate.
  - rewrite placeChildren_cons in H.
    destruct (placeChild L g self spacing i x c0 w)
      as [[c1 w1] r1] eqn:Hround.
    pose proof (placeChild_round _ _ _ _ _ _ _ _ _ _ _ Hround)
      as (_ & (new1 & Hcalls1 & Hall1) & Hcursor & Hthrow & _).
    destruct k as [| k].
    + injection Hk as <-.
      exists w, c1, w1, r1. rewrite Nat.add_0_r, cursorAt_zero.
      split; [exact Hround |].
      destruct r1 as [x1 | msg].
      * destruct (placeChildren L g self spacing (S i) x1 rest w1)
          as [[rest' w2] r2] eqn:E.
        injection H as <- <- _.
        split; [reflexivity |].
        destruct (placeChildren_calls _ _ _ _ _ _ _ _ _ _ _ E)
          as (after & Hafter & Hafterall).
        exists [], new1, after. rewrite app_nil_r.
        repeat split; auto.
      * injection H as <- <- _.
        split; [reflexivity |].
        exists [], new1, []. rewrite !app_nil_r.
        repeat split; auto.
    + simpl in Hk. simpl in Hall.
      inversion Hall as [| ? ? Hc0 Hrest]; subst.
      destruct r1 as [x1 | msg].
      * specialize (Hcursor x1 eq_refl). subst x1.
        destruct (placeChildren L g self spacing (S i)
                                (advance self spacing x c0) rest w1)
          as [[rest' w2] r2] eqn:E.
        injection H as <- <- _.
        destruct (IH _ _ _ _ _ _ E k c Hk Hrest)
          as (wk & c' & wk' & rk & Hr & Hn
              & before & round & after & Hb & Hr' & Ha & Fb & Fr & Fa).
        exists wk, c', wk', rk. rewrite Nat.add_succ_r, !cursorAt_cons.
        split; [exact Hr |]. split; [exact Hn |].
        exists (new1 ++ before), round, after.
        repeat split; auto.
        -- now rewrite Hb, Hcalls1, app_assoc.
        -- apply Forall_app. split.
           ++ eapply Forall_impl; [| exact Hall1]. simpl. intros a Ha'. lia.
           ++ exact Fb.
      * exfalso.
        assert (Ht : placeChildThrows g c0 = true)
          by (apply Hthrow; eexists; reflexivity).
        congruence.
Qed.

(** The same of a pass: the round of a child it reaches is run at the
    child's index, with the spacing of the pass and the cursor the earlier
    children left, and the calls of the round are the calls the pass makes
    on that child. *)
Lemma doLayout_reached :
  forall L g self w self' w' r,
    doLayout L g self w = (self', w', r) ->
    forall k c,
      nth_error (children self) k = Some c ->
      r = Ok tt
      \/ Forall (fun c0 => placeChildThrows g c0 = false)
                (firstn k (children self)) ->
      let spacing := passSpacing g self in
      let x0 := passStartX g self in
      exists wk c' wk' rk round,
        placeChild L g self spacing k
                   (cursorAt self spacing x0 (children self) k) c wk
        = (c', wk', rk)
        /\ nth_error (children self') k = Some c'
        /\ calls wk' = calls wk ++ round
        /\ callsOn k (calls w') = callsOn k (calls w) ++ map snd round.
Proof.
  intros L g self w self' w' r H k c Hk Hreach spacing x0.
  rewrite doLayout_eq in H. fold spacing x0 in H.
  destruct (placeChildren L g self spacing 0 x0 (children self) w)
    as [[cs' w''] r'] eqn:E.
  injection H as <- <- <-.
  pose proof (reached_children _ _ _ _ _ _ _ _ _ _ _ k E Hreach) as Hall.
  destruct (placeChildren_reached _ _ _ _ _ _ _ _ _ _ _ E _ _ Hk Hall)
    as (wk & c' & wk' & rk & Hr & Hn
        & before & round & after & Hb & Hr' & Ha & Fb & Fr & Fa).
  simpl in Hr, Fb, Fr, Fa.
  exists wk, c', wk', rk, round.
  split; [exact Hr |]. split; [exact Hn |]. split; [exact Hr' |].
  rewrite Ha, Hr', Hb, !callsOn_app.
  rewrite (@callsOn_none k before), (@callsOn_none k after),
    (@callsOn_all k round), !app_nil_r; auto.
  - eapply Forall_impl; [| exact Fa]. simpl. intros a Hlt. lia.
  - eapply Forall_impl; [| exact Fb]. simpl. intros a Hlt. lia.
Qed.

(** Whatever is in flight, after a loop, for a child of positive height
    that the loop has reached was started by the loop. *)
Lemma placeChildren_reached_tweens :
  forall L g self spacing cs pre x w cs' w' r,
    tweenInv (pre ++ cs) w ->
    placeChildren L g self spacing (List.length pre) x cs w = (cs', w', r) ->
    forall k c,
      nth_error cs k = Some c -> 0 < lc_height c ->
      Forall (fun c0 => placeChildThrows g c0 = false) (firstn k cs) ->
      forall t, In t (tweensOf (List.length pre + k) w') ->
                (next_id w <= tw_id t)%nat.
Proof.
  intros L g self spacing cs.
  induction cs as [| c0 rest IH];
    intros pre x w cs' w' r Hinv H k c Hk Hpos Hall.
  - destruct k; discriminate.
  - rewrite placeChildren_cons in H.
    destruct (placeChild L g self spacing (List.length pre) x c0 w)
      as [[c1 w1] r1] eqn:Hround.
    destruct (placeChild_tweens _ _ _ _ _ _ _ _ _ _ _ _ Hinv Hround)
      as (Hinv1 & Hothers1 & Hnext1 & Hnew1 & _).
    pose proof (placeChild_round _ _ _ _ _ _ _ _ _ _ _ Hround)
      as (_ & _ & _ & Hthrow & _).
    assert (Hlen : List.length (pre ++ [c1]) = S (List.length pre))
      by (rewrite length_app; simpl; lia).
    assert (Hinv1' : tweenInv ((pre ++ [c1]) ++ rest) w1)
      by (now rewrite <- app_assoc).
    destruct r1 as [x1 | msg].
    + destruct (placeChildren L g self spacing (S (List.length pre)) x1
                              rest w1)
        as [[rest' w2] r2] eqn:E.
      injection H as _ <- _.
      rewrite <- Hlen in E.
      destruct k as [| k].
      * injection Hk as ->. rewrite Nat.add_0_r.
        destruct (placeChildren_tweens _ _ _ _ _ _ _ _ _ _ _ Hinv1' E)
          as (_ & Hbefore & _).
        rewrite Hbefore by lia. now apply Hnew1.
      * simpl in Hk, Hall.
        inversion Hall as [| ? ? _ Hrest]; subst.
        intros t Ht.
        replace (List.length pre + S k)%nat
          with (List.length (pre ++ [c1]) + k)%nat in Ht by lia.
        pose proof (IH _ _ _ _ _ _ Hinv1' E k c Hk Hpos Hrest t Ht). lia.
    + injection H as _ <- _.
      destruct k as [| k].
      * injection Hk as ->. rewrite Nat.add_0_r. now apply Hnew1.
      * exfalso. simpl in Hall.
        inversion Hall as [| ? ? Hc0 _]; subst.
        assert (Ht : placeChildThrows g c0 = true)
          by (apply Hthrow; eexists; reflexivity).
        congruence.
Qed.

(** The handle of a child of positive height after its round: cleared, or
    the handle of the tween the round has started; and the tweens in flight
    after the round: those left when the old tween of the child was
    destroyed, and at most one more, started by the round for the child. *)
Lemma placeChild_handle :
  forall L g self spacing i x c w c' w' r,
    0 < lc_height c ->
    placeChild L g self spacing i x c w = (c', w', r) ->
    (tween c' = None \/ tween c' = Some (next_id w))
    /\ forall t, In t (in_flight w') ->
                 In t (in_flight (destroyTweenOf c w))
                 \/ (tw_id t = next_id w /\ tw_node t = i).
Proof.
  intros L g self spacing i x c w c' w' r Hpos H.
  assert (Hdriver :
            forall cfg c0 timed w0 ca wa,
              tween c0 = None ->
              in_flight w0 = in_flight (destroyTweenOf c w) ->
              next_id w0 = next_id w ->
              animate g i c0 cfg timed w0 = (ca, wa) ->
              (tween ca = None \/ tween ca = Some (next_id w))
              /\ forall t, In t (in_flight wa) ->
                           In t (in_flight (destroyTweenOf c w))
                           \/ (tw_id t = next_id w /\ tw_node t = i)).
  { intros cfg c0 timed w0 ca wa Hc0 Hf Hn Ha.
    pose proof (proj1 driver_effect cfg g i c0 timed w0) as Heff.
    cbv zeta in Heff. rewrite Ha in Heff. cbn [fst snd] in Heff.
    destruct Heff as (_ & _ & [(Hf' & _ & Ht) | (cfg' & Hf' & _ & Ht)]).
    - split; [left; congruence |].
      intros t Hin. left. now rewrite <- Hf, <- Hf'.
    - split; [right; congruence |].
      intros t Hin. rewrite Hf', Hf in Hin.
      apply in_app_or in Hin. destruct Hin as [Hin | [<- | []]].
      + now left.
      + right. simpl. split; [exact Hn | reflexivity]. }
  round_cases g c H.
  - lra.
  - injection H as <- <- _. split; [now left |].
    intros t Ht. now left.
  - cbv zeta in H.
    match type of H with
    | context [animate g i ?c0 ?cfg ?t ?w0] =>
      destruct (animate g i c0 cfg t w0) as [ca wa] eqn:Ha;
      pose proof (Hdriver cfg c0 t w0 ca wa eq_refl eq_refl
                          (destroyTweenOf_next_id c w) Ha) as Hd
    end.
    cbn [fst snd] in H. injection H as <- <- _. exact Hd.
  - injection H as <- <- _. split; [now left |].
    intros t Ht. now left.
  - cbv zeta in H.
    match type of H with
    | context [animate g i ?c0 ?cfg ?t ?w0] =>
      destruct (animate g i c0 cfg t w0) as [ca wa] eqn:Ha;
      pose proof (Hdriver cfg c0 t w0 ca wa eq_refl eq_refl
                          (destroyTweenOf_next_id c w) Ha) as Hd
    end.
    cbn [fst snd] in H. injection H as <- <- _. exact Hd.
Qed.

(** A pass leaves the handle and the tween of a child without height as
    they were, whether it returns or throws. *)
Lemma placeChildren_flat_kept :
  forall L g self spacing cs pre x w cs' w' r,
    tweenInv (pre ++ cs) w ->
    placeChildren L g self spacing (List.length pre) x cs w = (cs', w', r) ->
    forall k c,
      nth_error cs k = Some c -> lc_height c <= 0 ->
      tweensOf (List.length pre + k) w' = tweensOf (List.length pre + k) w
      /\ exists c', nth_error cs' k = Some c' /\ tween c' = tween c.
Proof.
  intros L g self spacing cs.
  induction cs as [| c0 rest IH]; intros pre x w cs' w' r Hinv H k c Hk Hflat.
  - destruct k; discriminate.
  - rewrite placeChildren_cons in H.
    destruct (placeChild L g self spacing (List.length pre) x c0 w)
      as [[c1 w1] r1] eqn:Hround.
    destruct (placeChild_tweens _ _ _ _ _ _ _ _ _ _ _ _ Hinv Hround)
      as (Hinv1 & Hothers1 & _).
    pose proof (placeChild_round _ _ _ _ _ _ _ _ _ _ _ Hround)
      as (_ & _ & _ & _ & _ & Hskip).
    destruct r1 as [x1 | msg].
    + destruct (placeChildren L g self spacing (S (List.length pre)) x1
                              rest w1)
        as [[rest' w2] r2] eqn:E.
      injection H as <- <- <-.
      assert (Hlen : List.length (pre ++ [c1]) = S (List.length pre))
        by (rewrite length_app; simpl; lia).
      rewrite <- Hlen in E.
      assert (Hinv1' : tweenInv ((pre ++ [c1]) ++ rest) w1)
        by (now rewrite <- app_assoc).
      destruct k as [| k].
      * injection Hk as ->. rewrite Nat.add_0_r.
        destruct (Hskip Hflat) as (-> & -> & _).
        destruct (placeChildren_tweens _ _ _ _ _ _ _ _ _ _ _ Hinv1' E)
          as (_ & Hbefore & _).
        split; [apply Hbefore; lia |].
        exists (show c). split; reflexivity.
      * simpl in Hk.
        destruct (IH _ _ _ _ _ _ Hinv1' E k c Hk Hflat)
          as (Htw & c' & Hc' & Hsame).
        rewrite Hlen in Htw.
        replace (List.length pre + S k)%nat
          with (S (List.length pre) + k)%nat by lia.
        split; [rewrite Htw; apply Hothers1; lia |].
        exists c'. split; [exact Hc' | exact Hsame].
    + injection H as <- <- <-.
      destruct k as [| k].
      * injection Hk as ->.
        destruct (Hskip Hflat) as (_ & _ & Hok). discriminate.
      * simpl in Hk. split; [apply Hothers1; lia |].
        exists c. split; [exact Hk | reflexivity].
Qed.

(** C2, as the spec states it, fails.  A child of natural height 0 holds
    the handle of a tween in flight; a pass on the animated path returns and
    the child still holds the handle, the tween still in flight: the pass
    has neither destroyed nor cleared it.  And in instant mode two passes in
    a row on a card of 100 by 100 leave no tween at all in flight for it,
    not one. *)
Lemma flat_child_keeps_its_tween_counterexample :
  let g := mkGlobals false false false [] [] in
  let fast := mkGlobals true false false [] [] in
  let flat :=
    mkChild 100 0 7 8 1 1 0 1 true (Some 0%nat) false (mkCard None) in
  let card1 := mkChild 100 100 7 8 1 1 0 1 true None false (mkCard None) in
  let t := mkTweenObj 0 0 (mkTween 0.5 0 0 1 0 1 EaseOut layoutFinished) in
  let self := mkLayout 400 100 (mkVec 0 0) "left" false 0 false [flat] in
  let hand := mkLayout 400 100 (mkVec 0 0) "left" false 0 false [card1] in
  let w := mkWorld [t] 1 [] in
  (doLayout 0.5 g self w = (self, w, Ok tt)
   /\ nth_error (children self) 0 = Some flat
   /\ tween flat = Some 0%nat
   /\ tweensOf 0 w = [t])
  /\ exists hand1 w1 hand2 w2,
      doLayout 0.5 fast hand (mkWorld [] 0 []) = (hand1, w1, Ok tt)
      /\ doLayout 0.5 fast hand1 w1 = (hand2, w2, Ok tt)
      /\ tweensOf 0 w2 = [].
Proof.
  intros g fast flat card1 t self hand w. split.
  - split; [| repeat split].
    rewrite doLayout_eq. subst self. simpl children.
    rewrite placeChildren_cons, placeChild_skipped
      by (subst flat; simpl; lra).
    reflexivity.
  - assert (Hfirst : forall hd w0,
               (exists c, children hd = [c] /\ 0 < lc_height c) ->
               in_flight w0 = [] ->
               exists hd' w0',
                 doLayout 0.5 fast hd w0 = (hd', w0', Ok tt)
                 /\ (exists c', children hd' = [c'] /\ 0 < lc_height c')
                 /\ in_flight w0' = []).
    { intros hd w0 (c & Hc & Hpos) Hw0.
      rewrite doLayout_eq, Hc.
      rewrite placeChildren_cons, placeChild_instant
        by (first [reflexivity | exact Hpos]).
      simpl placeChildren. cbv iota beta.
      eexists; eexists. split; [reflexivity |]. split.
      - eexists. split; [reflexivity |]. simpl. exact Hpos.
      - simpl. unfold destroyTweenOf.
        destruct (tween c); simpl; rewrite Hw0; reflexivity. }
    destruct (Hfirst hand (mkWorld [] 0 []))
      as (hand1 & w1 & H1 & Hc1 & Hw1);
      [exists card1; split; [reflexivity | simpl; lra] | reflexivity |].
    destruct (Hfirst hand1 w1 Hc1 Hw1) as (hand2 & w2 & H2 & _ & Hw2).
    exists hand1, w1, hand2, w2.
    split; [exact H1 |]. split; [exact H2 |].
    unfold tweensOf. now rewrite Hw2.
Qed.

(** C2, amended.  Let the tweens in flight and the handle slots be in step,
    as they are when there is no tween at all.

    A pass, whether it returns or throws, leaves them in step, with at most
    one tween in flight per child; so does the completion of a tween.  After
    a pass, whatever is in flight for a child of positive height that the
    pass has reached (every child when the pass returns; otherwise the
    children up to the one that makes it throw) was started by this pass.
    A child without positive height keeps
    its handle and its tween through any pass.  On the animated path with
    skip-animation off, a second pass run right after the first, no tween
    having completed, returns as well, and after each of the two exactly one
    tween is in flight for every child of positive height, the one after the
    second pass being a tween of the second pass.

    Round by round: the round of a child without positive height changes
    neither the child's handle nor the world.  The round of a child of
    positive height first destroys the tween whose handle the child holds
    and clears the handle (lines 119-122), which leaves no tween in flight
    for the child; the tween destroyed is not in flight after the round;
    the handle is then cleared or is the handle of the tween the round has
    started; and the round adds at most that one tween, for this child, to
    those left in flight by the destruction.  This holds of the round in
    whatever world it runs, as long as tweens and handles are in step
    there. *)
Theorem one_tween_per_child :
  forall (L : R) (g : Globals) (self : CardLayout) (w : World),
    tweenInv (children self) w ->
    (forall self' w' r,
        doLayout L g self w = (self', w', r) ->
        tweenInv (children self') w'
        /\ (forall k, (List.length (tweensOf k w') <= 1)%nat)
        /\ forall k c,
            nth_error (children self) k = Some c ->
            lc_height c <= 0 ->
            tweensOf k w' = tweensOf k w
            /\ exists c', nth_error (children self') k = Some c'
                          /\ tween c' = tween c)
    /\ (forall self' w' r k c,
           doLayout L g self w = (self', w', r) ->
           nth_error (children self) k = Some c ->
           0 < lc_height c ->
           r = Ok tt
           \/ Forall (fun c0 => placeChildThrows g c0 = false)
                     (firstn k (children self)) ->
           forall t, In t (tweensOf k w') -> (next_id w <= tw_id t)%nat)
    /\ (animateFast g = false -> speedrun g = false ->
        forall self1 w1,
          doLayout L g self w = (self1, w1, Ok tt) ->
          exists self2 w2,
            doLayout L g self1 w1 = (self2, w2, Ok tt)
            /\ forall k c,
                nth_error (children self) k = Some c ->
                0 < lc_height c ->
                List.length (tweensOf k w1) = 1%nat
                /\ List.length (tweensOf k w2) = 1%nat
                /\ forall t, In t (tweensOf k w2) ->
                             (next_id w1 <= tw_id t)%nat)
    /\ (forall id self' w',
           tweenCompletes g id self w = (self', w') ->
           tweenInv (children self') w'
           /\ forall k, (List.length (tweensOf k w') <= 1)%nat)
    /\ (forall spacing pre c post x w0 c' w' r,
           tweenInv (pre ++ c :: post) w0 ->
           placeChild L g self spacing (List.length pre) x c w0
           = (c', w', r) ->
           tweenInv (pre ++ c' :: post) w'
           /\ (lc_height c <= 0 -> tween c' = tween c /\ w' = w0)
           /\ (0 < lc_height c ->
               let cleared := clearTween (show c) w0 in
               (tween (fst cleared) = None
                /\ tweensOf (List.length pre) (snd cleared) = [])
               /\ (forall t,
                      In t (tweensOf (List.length pre) w0) ->
                      ~ In t (in_flight w'))
               /\ (tween c' = None \/ tween c' = Some (next_id w0))
               /\ (forall t,
                      In t (in_flight w') ->
                      In t (in_flight (snd cleared))
                      \/ (tw_id t = next_id w0
                          /\ tw_node t = List.length pre))
               /\ (List.length (tweensOf (List.length pre) w') <= 1)%nat)).
Proof.
  intros L g self w Hinv. split; [| split; [| split; [| split]]].
  - intros self' w' r H.
    destruct (doLayout_tweens _ _ _ _ _ _ _ Hinv H) as (Hinv' & _).
    split; [exact Hinv' |].
    split; [intros k; exact (tweensOf_length _ _ k Hinv') |].
    intros k c Hk Hflat.
    rewrite doLayout_eq in H.
    destruct (placeChildren L g self (passSpacing g self) 0
                            (passStartX g self) (children self) w)
      as [[cs0 w0] r0] eqn:E.
    injection H as <- <- _.
    exact (placeChildren_flat_kept L g self _ _ [] _ _ _ _ _ Hinv E
                                   k c Hk Hflat).
  - intros self' w' r k c H Hk Hpos Hreach.
    rewrite doLayout_eq in H.
    destruct (placeChildren L g self (passSpacing g self) 0
                            (passStartX g self) (children self) w)
      as [[cs0 w0] r0] eqn:E.
    injection H as _ <- <-.
    pose proof (reached_children _ _ _ _ _ _ _ _ _ _ _ k E Hreach) as Hall.
    exact (placeChildren_reached_tweens L g self _ _ [] _ _ _ _ _ Hinv E
                                        k c Hk Hpos Hall).
  - intros Hfast Hspeed self1 w1 H1.
    destruct (doLayout_tweens _ _ _ _ _ _ _ Hinv H1)
      as (Hinv1 & _ & Hok1).
    destruct (Hok1 eq_refl) as [Hflags Hrounds1].
    pose proof (doLayout_returns L g self1 w1 Hflags) as Hret.
    destruct (doLayout L g self1 w1) as [[self2 w2] r2] eqn:H2.
    simpl in Hret. subst r2.
    exists self2, w2. split; [reflexivity |].
    intros k c Hk Hpos.
    destruct (Hrounds1 k c Hk Hpos) as ((c' & Hk' & Hh') & _ & Hone1).
    destruct (doLayout_tweens _ _ _ _ _ _ _ Hinv1 H2) as (_ & _ & Hok2).
    destruct (Hok2 eq_refl) as [_ Hrounds2].
    assert (Hpos' : 0 < lc_height c') by lra.
    destruct (Hrounds2 k c' Hk' Hpos') as (_ & Hnew2 & Hone2).
    split; [now apply Hone1 |]. split; [now apply Hone2 | exact Hnew2].
  - intros id self' w' H.
    pose proof (tweenCompletes_tweens _ _ _ _ _ _ Hinv H) as Hinv'.
    split; [exact Hinv' |].
    intros k. exact (tweensOf_length _ _ k Hinv').
  - clear Hinv. intros spacing pre c post x w0 c' w' r Hinv H.
    destruct (placeChild_tweens _ _ _ _ _ _ _ _ _ _ _ _ Hinv H)
      as (Hinv' & _ & _ & Hnew & _).
    split; [exact Hinv' |]. split.
    + intros Hflat.
      destruct (placeChild_round _ _ _ _ _ _ _ _ _ _ _ H)
        as (_ & _ & _ & _ & _ & Hskip).
      destruct (Hskip Hflat) as (-> & -> & _). split; reflexivity.
    + intros Hpos cleared. subst cleared. rewrite clearTween_eq.
      cbn [fst snd].
      destruct (placeChild_handle _ _ _ _ _ _ _ _ _ _ _ Hpos H)
        as [Hhandle Hflight].
      pose proof (tweensOf_destroyTweenOf _ _ _ _ Hinv) as [Hnil _].
      split; [split; [reflexivity | exact Hnil] |].
      split.
      { intros t Ht Hin.
        pose proof Ht as Hof. apply filter_In in Hof.
        destruct Hof as [Hw Hnode]. apply Nat.eqb_eq in Hnode.
        pose proof (proj1 Hinv t Hw) as Hfresh.
        assert (Hof' : In t (tweensOf (List.length pre) w')).
        { apply filter_In. split; [exact Hin |]. now apply Nat.eqb_eq. }
        specialize (Hnew Hpos t Hof'). lia. }
      split; [exact Hhandle |]. split; [exact Hflight |].
      exact (tweensOf_length _ _ _ Hinv').
Qed.

Lemma one_tween_per_child_witness :
  let g := mkGlobals false false false [] [] in
  let c := mkChild 100 100 7 8 1 1 0 1 true None false (mkCard None) in
  let self := mkLayout 400 100 (mkVec 0 0) "left" false 0 false [c; c] in
  let w := mkWorld [] 0 [] in
  tweenInv (children self) w
  /\ exists self1 w1 self2 w2,
      doLayout 0.5 g self w = (self1, w1, Ok tt)
      /\ doLayout 0.5 g self1 w1 = (self2, w2, Ok tt)
      /\ List.length (tweensOf 0 w2) = 1%nat
      /\ List.length (tweensOf 1 w2) = 1%nat.
Proof.
  intros g c self w.
  assert (Hinv : tweenInv (children self) w).
  { assert (Hnone : forall i c0 id,
               nth_error [c; c] i = Some c0 -> tween c0 <> Some id).
    { intros i c0 id Hi.
      destruct i as [| [| i]]; simpl in Hi;
        [injection Hi as <-; discriminate
        | injection Hi as <-; discriminate
        | destruct i; discriminate]. }
    unfold tweenInv. simpl.
    split; [intros t [] |]. split; [constructor |].
    split; [intros t [] |]. split.
    - intros i c0 id Hi Hid. exfalso. exact (Hnone _ _ _ Hi Hid).
    - intros i j c0 c1 id Hi _ Hid. exfalso. exact (Hnone _ _ _ Hi Hid). }
  split; [exact Hinv |].
  assert (Hpos : 0 < lc_height c) by (simpl; lra).
  assert (Hret : snd (doLayout 0.5 g self w) = Ok tt).
  { apply doLayout_returns. simpl.
    assert (Hc : placeChildThrows g c = false).
    { unfold placeChildThrows.
      destruct (Rle_dec (lc_height c) 0); reflexivity. }
    repeat constructor; exact Hc. }
  destruct (doLayout 0.5 g self w) as [[self1 w1] r1] eqn:H1.
  simpl in Hret. subst r1.
  destruct (proj1 (proj2 (proj2 (one_tween_per_child 0.5 g self w Hinv)))
                  eq_refl eq_refl self1 w1 H1)
    as (self2 & w2 & H2 & Hone).
  exists self1, w1, self2, w2.
  split; [reflexivity |]. split; [exact H2 |].
  split.
  - exact (proj1 (proj2 (Hone 0%nat c eq_refl Hpos))).
  - exact (proj1 (proj2 (Hone 1%nat c eq_refl Hpos))).
Defined.

(* ------------------------------------------------------------------ *)
(** ** The misplay animation *)

(** The play stack of a card's suit: the suit is the entry of
    [globals.variant.suits] at the suit index of the card, and the play stack
    is the one the map of play stacks holds for that suit. *)
Lemma find_key :
  forall (l : list (Suit * PlayStack)) suit playStack,
    NoDup (map fst l) -> In (suit, playStack) l ->
    find (fun kv => String.eqb (fst kv) suit) l = Some (suit, playStack).
Proof.
  intros l suit playStack. induction l as [| [k v] l IH]; intros Hnd Hin.
  - destruct Hin.
  - simpl in Hnd. inversion Hnd as [| ? ? Hnotin Hnd']; subst.
    simpl. destruct Hin as [Heq | Hin].
    + injection Heq as -> ->. now rewrite String.eqb_refl.
    + destruct (String.eqb k suit) eqn:E; [| now apply IH].
      apply String.eqb_eq in E. subst k. exfalso. apply Hnotin.
      apply in_map_iff. exists (suit, playStack). split; [reflexivity | exact Hin].
Qed.

Lemma playStack_of_card :
  forall g c n suit playStack,
    suitIndex (card c) = Some n ->
    nth_error (suits g) n = Some suit ->
    NoDup (map fst (playStacks g)) ->
    In (suit, playStack) (playStacks g) ->
    playStackGet g (suitAt g (suitIndex (card c))) = Some playStack.
Proof.
  intros g c n suit playStack Hn Hsuit Hnd Hin.
  unfold suitAt, playStackGet. rewrite Hn, Hsuit.
  now rewrite (find_key _ _ _ Hnd Hin).
Qed.

(** C4, as the spec states it, fails.  On the animated path, a child of
    natural height 0 has its misplay flag set, and the play stack of its
    card's suit is there; the pass returns, and the child still has its flag
    set: no call has been made on it and no tween has been started. *)
Lemma flat_misplayed_child_counterexample :
  let stack := mkPlayStack (mkVec 500 300) 80 in
  let g := mkGlobals false false false ["red"] [("red", stack)] in
  let flat :=
    mkChild 100 0 7 8 1 1 0 1 true None true (mkCard (Some 0%nat)) in
  let self := mkLayout 400 100 (mkVec 50 600) "left" false 0 false [flat] in
  let w := mkWorld [] 0 [] in
  animateFast g = false
  /\ playStackGet g (suitAt g (suitIndex (card flat))) = Some stack
  /\ doLayout 0.5 g self w = (self, w, Ok tt)
  /\ nth_error (children self) 0 = Some flat
  /\ doMisplayAnimation flat = true
  /\ calls w = [] /\ in_flight w = [].
Proof.
  intros stack g flat self w.
  split; [reflexivity |]. split; [reflexivity |].
  split; [| repeat split].
  rewrite doLayout_eq. subst self. simpl children.
  rewrite placeChildren_cons, placeChild_skipped by (subst flat; simpl; lra).
  reflexivity.
Qed.

(** C4, amended.  On the animated path, let a child have its misplay flag
    set.

    Without positive natural height the child is skipped: its round returns
    with the flag still set and the world as it was.

    With positive natural height, let the suit of the card be the entry of
    the suits of the variant at the card's suit index, and let the map of
    play stacks hold a play stack for that suit.  The round returns with the
    flag cleared, and its calls on the child begin with the notice that a
    tween starts, the shadow, and the call of [animate] for the first phase:
    a tween of the standard length, easing out, to rotation 0, opacity 1 and
    scale [(anchorHeight * s) / H], to the absolute position of that play
    stack, taken from the absolute position of the container.  The
    completion callback of this tween sets the rotation to 360 and then
    calls [animate] for the layout tween; with skip-animation off the first
    tween is in flight after the round, and its callback leaves the layout
    tween in flight for a child whose rotation is 360.

    With positive natural height and no play stack found for the card, the
    round throws, the flag cleared and [animate] not called.

    In a pass that reaches the child at [k] (any pass that returns, and
    any pass in which no child before [k] throws), the round of the child is
    run with the cursor of [k], and its calls are the calls of the pass on
    that child. *)
Theorem misplayed_card_visits_its_play_stack :
  forall (L : R) (g : Globals) (self : CardLayout) (c : LayoutChild),
    animateFast g = false ->
    doMisplayAnimation c = true ->
    let s := height self / lc_height c in
    let second x :=
      mkTween L (x - (if reverse self then s * lc_width c else 0))
              0 s 0 1 EaseOut layoutFinished in
    let first playStack x :=
      mkTween L
              (vx (ps_absolutePosition playStack) - vx (absolutePosition self))
              (vy (ps_absolutePosition playStack) - vy (absolutePosition self))
              ((ps_height playStack * s) / height self)
              0 1 EaseOut (misplayFinished (second x)) in
    (lc_height c <= 0 ->
     forall spacing i x w,
       placeChild L g self spacing i x c w = (show c, w, Ok x)
       /\ doMisplayAnimation (show c) = true)
    /\ (0 < lc_height c ->
        forall n suit playStack,
          suitIndex (card c) = Some n ->
          nth_error (suits g) n = Some suit ->
          NoDup (map fst (playStacks g)) ->
          In (suit, playStack) (playStacks g) ->
          (forall spacing i x w,
              exists c' w' rest,
                placeChild L g self spacing i x c w
                = (c', w', Ok (advance self spacing x c))
                /\ doMisplayAnimation c' = false
                /\ calls w'
                   = calls w
                     ++ [(i, startedTweening); (i, setRaiseAndShadowOffset);
                         (i, animateCall (first playStack x)
                                         (negb (speedrun g)))]
                     ++ rest
                /\ (speedrun g = false ->
                    rest = []
                    /\ tween c' = Some (next_id w)
                    /\ in_flight w'
                       = in_flight (destroyTweenOf c w)
                         ++ [mkTweenObj (next_id w) i (first playStack x)]))
          /\ (forall x i c0 w0,
                 runCallback g i c0 (tc_onFinish (first playStack x)) w0
                 = animate g i (set_rotation 360 c0) (second x)
                           (negb (speedrun g)) w0)
          /\ (speedrun g = false ->
              forall x i c0 w0,
                let done :=
                  runCallback g i c0 (tc_onFinish (first playStack x)) w0 in
                lc_rotation (fst done) = 360
                /\ in_flight (snd done)
                   = in_flight w0 ++ [mkTweenObj (next_id w0) i (second x)])
          /\ (forall w k self' w' r,
                 nth_error (children self) k = Some c ->
                 doLayout L g self w = (self', w', r) ->
                 r = Ok tt
                 \/ Forall (fun c0 => placeChildThrows g c0 = false)
                           (firstn k (children self)) ->
                 let x :=
                   cursorAt self (passSpacing g self) (passStartX g self)
                            (children self) k in
                 (exists c', nth_error (children self') k = Some c'
                             /\ doMisplayAnimation c' = false)
                 /\ exists rest,
                     callsOn k (calls w')
                     = callsOn k (calls w)
                       ++ [startedTweening; setRaiseAndShadowOffset;
                           animateCall (first playStack x)
                                       (negb (speedrun g))]
                       ++ rest))
    /\ (0 < lc_height c ->
        playStackGet g (suitAt g (suitIndex (card c))) = None ->
        forall spacing i x w,
          exists c' w',
            placeChild L g self spacing i x c w
            = (c', w', Throw undefinedPlayStack)
            /\ doMisplayAnimation c' = false
            /\ calls w'
               = calls w
                 ++ [(i, startedTweening); (i, setRaiseAndShadowOffset)]).
Proof.
  intros L g self c Hfast Hflag s second first.
  split; [| split].
  - intros Hflat spacing i x w.
    split; [now apply placeChild_skipped | exact Hflag].
  - intros Hpos n suit playStack Hn Hsuit Hnd Hin.
    pose proof (playStack_of_card g c n suit playStack Hn Hsuit Hnd Hin)
      as Hget.
    assert (Hworld :
              forall spacing i x w,
                let w' := snd (fst (placeChild L g self spacing i x c w)) in
                let c' := fst (fst (placeChild L g self spacing i x c w)) in
                calls w'
                = calls w
                  ++ [(i, startedTweening); (i, setRaiseAndShadowOffset);
                      (i, animateCall (first playStack x)
                                      (negb (speedrun g)))]
                  ++ (if speedrun g
                      then [(i, animateCall (second x) false);
                            (i, finishedTweening); (i, checkSetDraggable)]
                      else [])
                /\ (speedrun g = false ->
                    in_flight w'
                    = in_flight (destroyTweenOf c w)
                      ++ [mkTweenObj (next_id w) i (first playStack x)]
                    /\ next_id w' = S (next_id w)
                    /\ c' = set_tween (Some (next_id w))
                              (set_doMisplayAnimation
                                 false (set_tween None (show c))))).
    { intros spacing i x w.
      exact (@placeChild_misplay_world
               L g self spacing i x c w playStack Hfast Hpos Hflag Hget). }
    split; [| split; [| split]].
    + intros spacing i x w.
      specialize (Hworld spacing i x w). cbv zeta in Hworld.
      pose proof (@placeChild_misplay L g self spacing i x c w playStack
                                      Hfast Hpos Hflag Hget) as Hround.
      cbv zeta in Hround.
      destruct (placeChild L g self spacing i x c w) as [[c' w'] r] eqn:E.
      cbn [fst snd] in Hworld.
      assert (Hr : r = Ok (advance self spacing x c))
        by (now injection Hround).
      subst r.
      destruct (placeChild_round _ _ _ _ _ _ _ _ _ _ _ E)
        as (_ & _ & _ & _ & Hcleared & _).
      destruct Hworld as [Hlog Hstart].
      exists c', w'. eexists.
      split; [reflexivity |]. split; [now apply Hcleared |].
      split; [exact Hlog |].
      intros Hspeed. rewrite Hspeed.
      destruct (Hstart Hspeed) as (Hf & _ & ->).
      split; [reflexivity |]. split; [reflexivity | exact Hf].
    + reflexivity.
    + intros Hspeed x i c0 w0 done. subst done. simpl.
      rewrite Hspeed. simpl. split; reflexivity.
    + intros w k self' w' r Hk H Hreach x.
      destruct (doLayout_reached _ _ _ _ _ _ _ H _ _ Hk Hreach)
        as (wk & c' & wk' & rk & round & Hr & Hc' & Hcalls & Hon).
      fold x in Hr.
      split.
      * exists c'. split; [exact Hc' |].
        destruct (placeChild_round _ _ _ _ _ _ _ _ _ _ _ Hr)
          as (_ & _ & _ & _ & Hcleared & _).
        now apply Hcleared.
      * pose proof (proj1 (Hworld (passSpacing g self) k x wk)) as Hlog.
        rewrite Hr in Hlog. cbn [fst snd] in Hlog.
        rewrite Hcalls in Hlog. apply app_inv_head in Hlog.
        rewrite Hon, Hlog, map_app.
        eexists. reflexivity.
  - intros Hpos Hget spacing i x w.
    rewrite placeChild_throws by assumption.
    do 2 eexists. split; [reflexivity |]. split; [reflexivity |].
    simpl. rewrite destroyTweenOf_calls. now rewrite <- app_assoc.
Qed.

Lemma misplayed_card_visits_its_play_stack_witness :
  let red := mkPlayStack (mkVec 500 300) 80 in
  let blue := mkPlayStack (mkVec 700 300) 80 in
  let g :=
    mkGlobals false false false ["red"; "blue"]
              [("red", red); ("blue", blue)] in
  let c := mkChild 100 100 7 8 1 1 0 1 true None true (mkCard (Some 1%nat)) in
  let self := mkLayout 400 100 (mkVec 50 600) "left" false 0 false [c] in
  let w := mkWorld [] 0 [] in
  let first :=
    mkTween 0.5 (700 - 50) (300 - 600) ((80 * (100 / 100)) / 100)
            0 1 EaseOut
            (misplayFinished
               (mkTween 0.5 (0 - 0) 0 (100 / 100) 0 1 EaseOut
                        layoutFinished)) in
  exists c' w' rest,
    placeChild 0.5 g self 0 0 0 c w = (c', w', Ok (advance self 0 0 c))
    /\ doMisplayAnimation c' = false
    /\ calls w'
       = [(0%nat, startedTweening); (0%nat, setRaiseAndShadowOffset);
          (0%nat, animateCall first true)]
         ++ rest.
Proof.
  intros red blue g c self w first.
  assert (Hpos : 0 < lc_height c) by (simpl; lra).
  assert (Hnd : NoDup (map fst (playStacks g))).
  { simpl. constructor; [| constructor; [| constructor]].
    - intros [H | []]. discriminate.
    - intros []. }
  assert (Hin : In ("blue", blue) (playStacks g)) by (right; left; reflexivity).
  destruct (proj1 (proj1 (proj2 (misplayed_card_visits_its_play_stack
                                   0.5 g self c eq_refl eq_refl))
                         Hpos 1%nat "blue" blue eq_refl eq_refl Hnd Hin)
                  0 0%nat 0 w)
    as (c' & w' & rest & Hround & Hflag & Hlog & _).
  exists c', w', rest.
  split; [exact Hround |]. split; [exact Hflag |]. exact Hlog.
Defined.

(* ================================================================== *)
(** * Further properties *)

(* ------------------------------------------------------------------ *)
(** ** What a pass leaves alone *)

Lemma sameNatural_refl :
  forall cs, sameNatural cs cs.
Proof.
  intros cs. unfold sameNatural.
  induction cs; constructor; auto.
Qed.

Lemma sameNatural_length :
  forall cs cs', sameNatural cs cs' -> List.length cs' = List.length cs.
Proof.
  intros cs cs' H. symmetry. exact (Forall2_length H).
Qed.

Lemma sameNatural_usedWidthFrom :
  forall H cs cs' uw,
    sameNatural cs cs' -> usedWidthFrom H cs' uw = usedWidthFrom H cs uw.
Proof.
  intros H cs cs' uw Hsame. revert uw.
  induction Hsame as [| c c' cs cs' (Hw & Hh & _) _ IH]; intros uw;
    [reflexivity |].
  rewrite !usedWidthFrom_cons, Hw, Hh. apply IH.
Qed.

Lemma placeChildren_sameNatural :
  forall L g self spacing cs i x w,
    sameNatural cs (fst (fst (placeChildren L g self spacing i x cs w))).
Proof.
  intros L g self spacing cs.
  induction cs as [| c rest IH]; intros i x w; [constructor |].
  rewrite placeChildren_cons.
  destruct (placeChild L g self spacing i x c w)
    as [[c1 w1] r1] eqn:Hround.
  destruct (placeChild_round _ _ _ _ _ _ _ _ _ _ _ Hround)
    as ((Hw & Hh & Hc & _) & _).
  destruct r1 as [x1 | msg].
  - specialize (IH (S i) x1 w1).
    destruct (placeChildren L g self spacing (S i) x1 rest w1)
      as [[rest' w2] r2].
    simpl in *. constructor; auto.
  - simpl. constructor; [auto | apply sameNatural_refl].
Qed.

(** X1.  A pass, whether it returns or throws, keeps the children of the
    container in number and in order, each with its natural size and its
    card; it keeps the size, the position, the alignment, the direction, the
    rotation and the empathy flag of the container; and it only adds to the
    call log. *)
Theorem doLayout_keeps_the_hand :
  forall (L : R) (g : Globals) (self : CardLayout) (w : World),
    let self' := fst (fst (doLayout L g self w)) in
    let w' := snd (fst (doLayout L g self w)) in
    sameNatural (children self) (children self')
    /\ List.length (children self') = List.length (children self)
    /\ (width self' = width self /\ height self' = height self
        /\ absolutePosition self' = absolutePosition self
        /\ align self' = align self /\ reverse self' = reverse self
        /\ origRotation self' = origRotation self
        /\ empathy self' = empathy self)
    /\ exists new, calls w' = calls w ++ new.
Proof.
  intros L g self w self' w'. subst self' w'.
  rewrite doLayout_eq.
  pose proof (placeChildren_sameNatural L g self (passSpacing g self)
                (children self) 0 (passStartX g self) w) as Hsame.
  destruct (placeChildren L g self (passSpacing g self) 0
                          (passStartX g self) (children self) w)
    as [[cs' w'] r] eqn:E.
  simpl in *.
  split; [exact Hsame |].
  split; [exact (sameNatural_length _ _ Hsame) |].
  split; [repeat split |].
  destruct (placeChildren_calls _ _ _ _ _ _ _ _ _ _ _ E) as (new & Hnew & _).
  now exists new.
Qed.

(* ------------------------------------------------------------------ *)
(** ** When a pass throws *)

Lemma placeChildThrows_iff :
  forall g c,
    placeChildThrows g c = true
    <-> (animateFast g = false /\ 0 < lc_height c
         /\ doMisplayAnimation c = true
         /\ playStackGet g (suitAt g (suitIndex (card c))) = None).
Proof.
  intros g c. unfold placeChildThrows.
  destruct (Rle_dec (lc_height c) 0) as [Hle | Hgt].
  - split; [discriminate | intros (_ & Hpos & _); lra].
  - apply Rnot_le_lt in Hgt.
    destruct (animateFast g);
      [split; [discriminate | intros (Hf & _); discriminate] |].
    destruct (doMisplayAnimation c);
      [| split; [discriminate | intros (_ & _ & Hm & _); discriminate]].
    destruct (playStackGet g (suitAt g (suitIndex (card c)))).
    + split; [discriminate | intros (_ & _ & _ & Hp); discriminate].
    + split; [intros _; repeat split; auto | reflexivity].
Qed.

(** The loop up to the child that throws: it ends with the exception of
    that child's round, the children behind it as they were. *)
Lemma placeChildren_throws_at :
  forall L g self spacing cs i x w k c,
    nth_error cs k = Some c ->
    placeChildThrows g c = true ->
    Forall (fun d => placeChildThrows g d = false) (firstn k cs) ->
    let cs' := fst (fst (placeChildren L g self spacing i x cs w)) in
    snd (placeChildren L g self spacing i x cs w) = Throw undefinedPlayStack
    /\ skipn (S k) cs' = skipn (S k) cs
    /\ nth_error cs' k
       = Some (set_doMisplayAnimation false (set_tween None (show c))).
Proof.
  intros L g self spacing cs.
  induction cs as [| c0 rest IH]; intros i x w k c Hk Hthrows Hbefore.
  - destruct k; discriminate.
  - rewrite placeChildren_cons.
    destruct k as [| k].
    + injection Hk as ->.
      apply placeChildThrows_iff in Hthrows.
      destruct Hthrows as (Hfast & Hpos & Hflag & Hget).
      rewrite placeChild_throws by assumption.
      simpl. repeat split.
    + simpl in Hk, Hbefore.
      inversion Hbefore as [| ? ? Hc0 Hrest]; subst.
      destruct (placeChild L g self spacing i x c0 w)
        as [[c1 w1] r1] eqn:Hround.
      destruct (placeChild_round _ _ _ _ _ _ _ _ _ _ _ Hround)
        as (_ & _ & _ & Hthrow & _).
      destruct r1 as [x1 | msg].
      * specialize (IH (S i) x1 w1 k c Hk Hthrows Hrest).
        destruct (placeChildren L g self spacing (S i) x1 rest w1)
          as [[rest' w2] r2].
        simpl in *. exact IH.
      * exfalso. assert (Ht : placeChildThrows g c0 = true)
          by (apply Hthrow; eexists; reflexivity).
        congruence.
Qed.

Lemma first_throw :
  forall g cs,
    ~ Forall (fun c => placeChildThrows g c = false) cs ->
    exists k c,
      nth_error cs k = Some c
      /\ placeChildThrows g c = true
      /\ Forall (fun d => placeChildThrows g d = false) (firstn k cs).
Proof.
  intros g cs. induction cs as [| c rest IH]; intros Hnot.
  - exfalso. apply Hnot. constructor.
  - destruct (placeChildThrows g c) eqn:E.
    + exists 0%nat, c.
      split; [reflexivity |]. split; [exact E | constructor].
    + assert (Hrest : ~ Forall (fun c => placeChildThrows g c = false) rest)
        by (intros Hall; apply Hnot; now constructor).
      destruct (IH Hrest) as (k & d & Hk & Hd & Hbefore).
      exists (S k), d.
      split; [exact Hk |]. split; [exact Hd |].
      simpl. now constructor.
Qed.

(** X2.  A pass throws exactly when, on the animated path, one of the
    children has positive natural height, its misplay flag set, and no play
    stack for the suit of its card; the exception is then the [TypeError] of
    the missing play stack.  In instant mode a pass never throws. *)
Theorem doLayout_throws_iff :
  forall (L : R) (g : Globals) (self : CardLayout) (w : World),
    ((exists msg, snd (doLayout L g self w) = Throw msg)
     <-> exists c,
        In c (children self)
        /\ animateFast g = false /\ 0 < lc_height c
        /\ doMisplayAnimation c = true
        /\ playStackGet g (suitAt g (suitIndex (card c))) = None)
    /\ (forall msg,
           snd (doLayout L g self w) = Throw msg -> msg = undefinedPlayStack)
    /\ (animateFast g = true -> snd (doLayout L g self w) = Ok tt).
Proof.
  intros L g self w.
  assert (Hsnd : snd (doLayout L g self w)
                 = snd (placeChildren L g self (passSpacing g self) 0
                                      (passStartX g self) (children self) w)).
  { rewrite doLayout_eq.
    now destruct (placeChildren L g self (passSpacing g self) 0
                                (passStartX g self) (children self) w)
      as [[cs' w'] r]. }
  rewrite Hsnd.
  pose proof (placeChildren_returns_iff L g self (passSpacing g self)
                (children self) 0 (passStartX g self) w) as Hiff.
  pose proof (first_throw g (children self)) as Hfirst.
  split; [| split].
  - split.
    + intros [msg Hmsg].
      assert (Hnot : ~ Forall (fun c => placeChildThrows g c = false)
                              (children self))
        by (intros Hall; apply Hiff in Hall; congruence).
      destruct (Hfirst Hnot) as (k & c & Hk & Hc & _).
      exists c. split; [eapply nth_error_In; eassumption |].
      now apply placeChildThrows_iff.
    + intros (c & Hin & Hc). apply placeChildThrows_iff in Hc.
      destruct (snd (placeChildren L g self (passSpacing g self) 0
                                   (passStartX g self) (children self) w))
        as [[] | msg] eqn:E; [| now exists msg].
      exfalso. pose proof (proj1 Hiff eq_refl) as Hall.
      rewrite Forall_forall in Hall. specialize (Hall c Hin). congruence.
  - intros msg Hmsg.
    assert (Hnot : ~ Forall (fun c => placeChildThrows g c = false)
                            (children self))
      by (intros Hall; apply Hiff in Hall; congruence).
    destruct (Hfirst Hnot) as (k & c & Hk & Hc & Hbefore).
    destruct (placeChildren_throws_at L g self (passSpacing g self)
                (children self) 0 (passStartX g self) w k c Hk Hc Hbefore)
      as (Hthrow & _).
    congruence.
  - intros Hfast. apply Hiff. apply Forall_forall. intros c _.
    destruct (placeChildThrows g c) eqn:E; [| reflexivity].
    apply placeChildThrows_iff in E. destruct E as (Hf & _). congruence.
Qed.

Lemma doLayout_throws_iff_witness :
  let g := mkGlobals false false false [] [] in
  let c := mkChild 100 100 7 8 1 1 0 1 true None true (mkCard (Some 0%nat)) in
  let self := mkLayout 400 100 (mkVec 0 0) "left" false 0 false [c] in
  let w := mkWorld [] 0 [] in
  snd (doLayout 0.5 g self w) = Throw undefinedPlayStack
  /\ snd (doLayout 0.5 (mkGlobals true false false [] []) self w) = Ok tt.
Proof.
  intros g c self w.
  destruct (doLayout_throws_iff 0.5 g self w) as (Hiff & Hmsg & _).
  assert (Hc : exists c0,
               In c0 (children self)
               /\ animateFast g = false /\ 0 < lc_height c0
               /\ doMisplayAnimation c0 = true
               /\ playStackGet g (suitAt g (suitIndex (card c0))) = None).
  { exists c. split; [now left |].
    split; [reflexivity |]. split; [simpl; lra |].
    split; reflexivity. }
  destruct (proj2 Hiff Hc) as [msg Hthrow].
  split.
  - rewrite Hthrow. f_equal. now apply Hmsg.
  - exact (proj2 (proj2 (doLayout_throws_iff
                           0.5 (mkGlobals true false false [] []) self w))
                 eq_refl).
Defined.

(** X3.  When the first child that makes the pass throw is the child at
    [k], the pass ends there: the children after [k] are as they were, not
    even made visible, and the child at [k] is left visible, with its misplay
    flag cleared and its tween handle cleared, at its old position. *)
Theorem doLayout_stops_at_the_throw :
  forall (L : R) (g : Globals) (self : CardLayout) (w : World)
         (k : nat) (c : LayoutChild),
    nth_error (children self) k = Some c ->
    placeChildThrows g c = true ->
    Forall (fun d => placeChildThrows g d = false)
           (firstn k (children self)) ->
    let self' := fst (fst (doLayout L g self w)) in
    snd (doLayout L g self w) = Throw undefinedPlayStack
    /\ skipn (S k) (children self') = skipn (S k) (children self)
    /\ exists c',
        nth_error (children self') k = Some c'
        /\ lc_visible c' = true /\ doMisplayAnimation c' = false
        /\ tween c' = None
        /\ lc_x c' = lc_x c /\ lc_y c' = lc_y c
        /\ lc_scaleX c' = lc_scaleX c /\ lc_scaleY c' = lc_scaleY c.
Proof.
  intros L g self w k c Hk Hc Hbefore self'. subst self'.
  pose proof (placeChildren_throws_at L g self (passSpacing g self)
                (children self) 0 (passStartX g self) w k c Hk Hc Hbefore)
    as Hat.
  rewrite doLayout_eq.
  destruct (placeChildren L g self (passSpacing g self) 0
                          (passStartX g self) (children self) w)
    as [[cs' w'] r].
  simpl in *. destruct Hat as (Hthrow & Hafter & Hchild).
  split; [exact Hthrow |]. split; [exact Hafter |].
  eexists. split; [exact Hchild |]. repeat split.
Qed.

Lemma doLayout_stops_at_the_throw_witness :
  let g := mkGlobals false false false [] [] in
  let c := mkChild 100 100 7 8 1 1 0 1 true None true (mkCard (Some 0%nat)) in
  let hidden :=
    mkChild 100 100 7 8 1 1 0 1 false None false (mkCard None) in
  let self := mkLayout 400 100 (mkVec 0 0) "left" false 0 false [c; hidden] in
  let w := mkWorld [] 0 [] in
  nth_error (children self) 0 = Some c
  /\ placeChildThrows g c = true
  /\ skipn 1 (children (fst (fst (doLayout 0.5 g self w)))) = [hidden].
Proof.
  intros g c hidden self w.
  assert (Hc : placeChildThrows g c = true).
  { apply placeChildThrows_iff. split; [reflexivity |].
    split; [simpl; lra |]. split; reflexivity. }
  split; [reflexivity |]. split; [exact Hc |].
  exact (proj1 (proj2 (doLayout_stops_at_the_throw
                         0.5 g self w 0%nat c eq_refl Hc
                         (Forall_nil _)))).
Defined.

(* ------------------------------------------------------------------ *)
(** ** The instant path *)

Lemma doLayout_instant_returns :
  forall L g self w,
    animateFast g = true -> snd (doLayout L g self w) = Ok tt.
Proof.
  intros L g self w Hfast. rewrite doLayout_eq.
  pose proof (placeChildren_instant_returns
                L g self (passSpacing g self) (children self) 0
                (passStartX g self) w Hfast) as Hret.
  destruct (placeChildren L g self (passSpacing g self) 0
                          (passStartX g self) (children self) w)
    as [[cs' w'] r].
  exact Hret.
Qed.

Lemma placeChildren_instant_world :
  forall L g self spacing cs i x w,
    animateFast g = true ->
    let w' := snd (fst (placeChildren L g self spacing i x cs w)) in
    next_id w' = next_id w
    /\ incl (in_flight w') (in_flight w).
Proof.
  intros L g self spacing cs.
  induction cs as [| c rest IH]; intros i x w Hfast.
  - simpl. split; [reflexivity | apply incl_refl].
  - rewrite placeChildren_cons.
    assert (Hround :
              exists c1 w1 x1,
                placeChild L g self spacing i x c w = (c1, w1, Ok x1)
                /\ next_id w1 = next_id w
                /\ incl (in_flight w1) (in_flight w)).
    { destruct (Rle_dec (lc_height c) 0) as [Hflat | Hpos].
      - rewrite placeChild_skipped by exact Hflat.
        do 3 eexists. split; [reflexivity |].
        split; [reflexivity | apply incl_refl].
      - apply Rnot_le_lt in Hpos.
        rewrite placeChild_instant by assumption.
        do 3 eexists. split; [reflexivity |]. simpl.
        split; [apply destroyTweenOf_next_id |].
        unfold destroyTweenOf. destruct (tween c); [| apply incl_refl].
        simpl. intros t Ht. apply filter_In in Ht. tauto. }
    destruct Hround as (c1 & w1 & x1 & -> & Hn1 & Hin1).
    specialize (IH (S i) x1 w1 Hfast).
    destruct (placeChildren L g self spacing (S i) x1 rest w1)
      as [[rest' w2] r2].
    simpl in *. destruct IH as [Hn2 Hin2].
    split; [congruence |].
    intros t Ht. apply Hin1. now apply Hin2.
Qed.

(** X4.  In instant mode a pass returns with every child visible.  A child
    without height is otherwise as it was.  A child of positive natural
    height [h] ends at y = 0, rotation 0 and opacity 1, with the scale
    [H / h] on both axes, so that it shows as high as the hand, with its
    misplay flag cleared and its tween handle cleared; and when the tweens
    and the slots were in step, no tween is left in flight for it. *)
Theorem instant_pass_settles_every_child :
  forall (L : R) (g : Globals) (self : CardLayout) (w : World)
         (k : nat) (c : LayoutChild),
    animateFast g = true ->
    nth_error (children self) k = Some c ->
    let self' := fst (fst (doLayout L g self w)) in
    let w' := snd (fst (doLayout L g self w)) in
    snd (doLayout L g self w) = Ok tt
    /\ exists c',
        nth_error (children self') k = Some c'
        /\ lc_visible c' = true
        /\ (lc_height c <= 0 -> c' = show c)
        /\ (0 < lc_height c ->
            lc_y c' = 0 /\ lc_rotation c' = 0 /\ lc_opacity c' = 1
            /\ lc_scaleX c' = height self / lc_height c
            /\ lc_scaleY c' = height self / lc_height c
            /\ lc_scaleY c' * lc_height c' = height self
            /\ doMisplayAnimation c' = false
            /\ tween c' = None
            /\ (tweenInv (children self) w -> tweensOf k w' = [])).
Proof.
  intros L g self w k c Hfast Hk self' w'. subst self' w'.
  pose proof (doLayout_instant_returns L g self w Hfast) as Hret.
  split; [exact Hret |].
  destruct (doLayout L g self w) as [[self' w'] r] eqn:H.
  simpl in Hret. subst r. cbn [fst snd].
  destruct (doLayout_round _ _ _ _ _ _ H _ _ Hk)
    as (wk & c' & wk' & round & Hr & Hn & _).
  exists c'. split; [exact Hn |].
  destruct (placeChild_round _ _ _ _ _ _ _ _ _ _ _ Hr)
    as ((_ & _ & _ & Hvisible) & _ & _ & _ & _ & Hflat).
  split; [exact Hvisible |].
  split; [intros Hle; exact (proj1 (Hflat Hle)) |].
  intros Hpos.
  rewrite placeChild_instant in Hr by assumption.
  injection Hr as Hc' _ _. subst c'. simpl.
  repeat (split; [reflexivity |]).
  split; [unfold scaleOf; field; lra |].
  repeat (split; [reflexivity |]).
  intros Hinv.
  destruct (doLayout_tweens _ _ _ _ _ _ _ Hinv H) as (Hinv' & _ & Hok).
  destruct (Hok eq_refl) as [_ Hrounds].
  destruct (Hrounds k c Hk Hpos) as (_ & Hnew & _).
  rewrite doLayout_eq in H.
  pose proof (placeChildren_instant_world
                L g self (passSpacing g self) (children self) 0
                (passStartX g self) w Hfast) as [Hnext _].
  destruct (placeChildren L g self (passSpacing g self) 0
                          (passStartX g self) (children self) w)
    as [[cs0 w0] r0].
  injection H as _ <- _. simpl in Hnext.
  destruct (tweensOf k w0) as [| t ts] eqn:Et; [reflexivity |].
  exfalso.
  assert (Hin : In t (tweensOf k w0)) by (rewrite Et; now left).
  specialize (Hnew t (or_introl eq_refl)).
  unfold tweensOf in Hin. apply filter_In in Hin. destruct Hin as [Hin _].
  pose proof (proj1 Hinv' t Hin). lia.
Qed.

Lemma instant_pass_settles_every_child_witness :
  let g := mkGlobals true false false [] [] in
  let c := mkChild 50 200 7 8 2 2 45 0 false (Some 3%nat) true (mkCard None) in
  let self := mkLayout 400 100 (mkVec 0 0) "left" false 0 false [c] in
  let w := mkWorld [] 0 [] in
  animateFast g = true
  /\ nth_error (children self) 0 = Some c
  /\ exists c',
      nth_error (children (fst (fst (doLayout 0.5 g self w)))) 0 = Some c'
      /\ lc_visible c' = true.
Proof.
  intros g c self w.
  split; [reflexivity |]. split; [reflexivity |].
  destruct (proj2 (instant_pass_settles_every_child
                     0.5 g self w 0%nat c eq_refl eq_refl))
    as (c' & Hn & Hv & _).
  exists c'. split; [exact Hn | exact Hv].
Defined.

Lemma placeChildren_instant_again :
  forall L g self spacing cs i x w w2,
    animateFast g = true ->
    let cs' := fst (fst (placeChildren L g self spacing i x cs w)) in
    fst (fst (placeChildren L g self spacing i x cs' w2)) = cs'.
Proof.
  intros L g self spacing cs.
  induction cs as [| c rest IH]; intros i x w w2 Hfast; [reflexivity |].
  cbv zeta. rewrite placeChildren_cons.
  destruct (Rle_dec (lc_height c) 0) as [Hflat | Hpos].
  - rewrite placeChild_skipped by exact Hflat.
    specialize (IH (S i) x w w2 Hfast). cbv zeta in IH.
    destruct (placeChildren L g self spacing (S i) x rest w)
      as [[rest' w'] r'].
    cbn [fst snd] in *.
    rewrite placeChildren_cons, placeChild_skipped by exact Hflat.
    destruct (placeChildren L g self spacing (S i) x rest' w2)
      as [[rest'' w''] r''].
    cbn [fst snd] in *. now rewrite IH.
  - apply Rnot_le_lt in Hpos.
    rewrite placeChild_instant by assumption.
    set (c1 := snapped (newXOf self x c) (scaleOf self c)
                       (set_tween None (show c))).
    set (w1 := call i setRaiseAndShadowOffset
                    (call i checkSetDraggable (destroyTweenOf c w))).
    assert (Hagain :
              placeChild L g self spacing i x c1 w2
              = (c1,
                 call i setRaiseAndShadowOffset
                      (call i checkSetDraggable (destroyTweenOf c1 w2)),
                 Ok (advance self spacing x c))).
    { rewrite placeChild_instant by assumption. reflexivity. }
    specialize (IH (S i) (advance self spacing x c) w1
                   (call i setRaiseAndShadowOffset
                         (call i checkSetDraggable (destroyTweenOf c1 w2)))
                   Hfast).
    cbv zeta in IH.
    destruct (placeChildren L g self spacing (S i)
                            (advance self spacing x c) rest w1)
      as [[rest' w'] r'].
    cbn [fst snd] in *.
    rewrite placeChildren_cons, Hagain.
    destruct (placeChildren L g self spacing (S i)
                (advance self spacing x c) rest'
                (call i setRaiseAndShadowOffset
                      (call i checkSetDraggable (destroyTweenOf c1 w2))))
      as [[rest'' w''] r''].
    cbn [fst snd] in *. now rewrite IH.
Qed.

Lemma sameNatural_pass :
  forall g self cs,
    sameNatural (children self) cs ->
    passSpacing g (set_children cs self) = passSpacing g self
    /\ passStartX g (set_children cs self) = passStartX g self.
Proof.
  intros g self cs Hsame.
  assert (Hs : passSpacing g (set_children cs self) = passSpacing g self).
  { unfold passSpacing, usedWidth. simpl.
    now rewrite (sameNatural_usedWidthFrom _ _ _ _ Hsame),
      (sameNatural_length _ _ Hsame). }
  split; [exact Hs |].
  unfold passStartX. rewrite Hs, !startX_eq. unfold usedWidth. simpl.
  now rewrite (sameNatural_usedWidthFrom _ _ _ _ Hsame),
    (sameNatural_length _ _ Hsame).
Qed.

(** X5.  In instant mode a second pass changes nothing of the container or
    of its children: the layout is a fixed point of the pass. *)
Theorem instant_pass_is_idempotent :
  forall (L : R) (g : Globals) (self : CardLayout) (w w2 : World),
    animateFast g = true ->
    let self1 := fst (fst (doLayout L g self w)) in
    fst (fst (doLayout L g self1 w2)) = self1.
Proof.
  intros L g self w w2 Hfast self1. subst self1.
  rewrite (doLayout_eq L g self w).
  pose proof (placeChildren_sameNatural L g self (passSpacing g self)
                (children self) 0 (passStartX g self) w) as Hsame.
  pose proof (placeChildren_instant_again L g self (passSpacing g self)
                (children self) 0 (passStartX g self) w w2 Hfast) as Hagain.
  destruct (placeChildren L g self (passSpacing g self) 0
                          (passStartX g self) (children self) w)
    as [[cs' w'] r].
  cbn [fst snd] in *.
  destruct (sameNatural_pass g self cs' Hsame) as [Hs Hx].
  rewrite doLayout_eq, Hs, Hx.
  change (children (set_children cs' self)) with cs'.
  assert (Hself : forall cs w0,
             placeChildren L g (set_children cs' self) (passSpacing g self) 0
                           (passStartX g self) cs w0
             = placeChildren L g self (passSpacing g self) 0
                             (passStartX g self) cs w0).
  { intros cs w0. generalize 0%nat (passStartX g self). revert w0.
    induction cs as [| c rest IH]; intros w0 i x; [reflexivity |].
    rewrite !placeChildren_cons.
    replace (placeChild L g (set_children cs' self) (passSpacing g self)
                        i x c w0)
      with (placeChild L g self (passSpacing g self) i x c w0)
      by reflexivity.
    destruct (placeChild L g self (passSpacing g self) i x c w0)
      as [[c1 w1] [x1 | msg]]; [| reflexivity].
    now rewrite IH. }
  rewrite Hself.
  destruct (placeChildren L g self (passSpacing g self) 0
                          (passStartX g self) cs' w2)
    as [[cs'' w''] r''].
  cbn [fst snd] in *. now rewrite Hagain.
Qed.

Lemma instant_pass_is_idempotent_witness :
  let g := mkGlobals true false false [] [] in
  let c := mkChild 50 200 7 8 2 2 45 0 false (Some 3%nat) true (mkCard None) in
  let self := mkLayout 400 100 (mkVec 0 0) "center" true 0 false [c; c] in
  let w := mkWorld [] 0 [] in
  animateFast g = true
  /\ fst (fst (doLayout 0.5 g (fst (fst (doLayout 0.5 g self w))) w))
     = fst (fst (doLayout 0.5 g self w)).
Proof.
  intros g c self w. split; [reflexivity |].
  exact (instant_pass_is_idempotent 0.5 g self w w eq_refl).
Defined.

(* ------------------------------------------------------------------ *)
(** ** Direction, width and centering *)

Lemma advance_mirror :
  forall self spacing x c,
    advance (set_reverse true self) spacing (width self - x) c
    = width self - advance (set_reverse false self) spacing x c.
Proof.
  intros self spacing x c. unfold advance. simpl.
  destruct (Rle_dec (lc_height c) 0); lra.
Qed.

Lemma cursorAt_mirror :
  forall self spacing cs x k,
    cursorAt (set_reverse true self) spacing (width self - x) cs k
    = width self - cursorAt (set_reverse false self) spacing x cs k.
Proof.
  intros self spacing cs.
  induction cs as [| c rest IH]; intros x k.
  - unfold cursorAt. now rewrite !firstn_nil.
  - destruct k as [| k]; [reflexivity |].
    rewrite !cursorAt_cons, <- IH. now rewrite advance_mirror.
Qed.

(** X7.  In instant mode, laying the same hand out in the other direction
    mirrors it in the width of the hand: the far edge of a child of the
    reversed hand lies as far from the right border as the near edge of the
    same child of the hand that is not reversed lies from the left border. *)
Theorem reversed_hand_is_the_mirror_image :
  forall (L : R) (g : Globals) (self : CardLayout) (w w2 : World)
         (k : nat) (c : LayoutChild),
    animateFast g = true ->
    nth_error (children self) k = Some c ->
    0 < lc_height c ->
    exists a b,
      nth_error
        (children (fst (fst (doLayout L g (set_reverse false self) w)))) k
      = Some a
      /\ nth_error
           (children (fst (fst (doLayout L g (set_reverse true self) w2)))) k
         = Some b
      /\ lc_x b + lc_scaleX b * lc_width b = width self - lc_x a.
Proof.
  intros L g self w w2 k c Hfast Hk Hpos.
  pose proof (doLayout_instant_returns L g (set_reverse false self) w Hfast)
    as Hret1.
  pose proof (doLayout_instant_returns L g (set_reverse true self) w2 Hfast)
    as Hret2.
  destruct (doLayout L g (set_reverse false self) w)
    as [[self1 w1] r1] eqn:H1.
  destruct (doLayout L g (set_reverse true self) w2)
    as [[self2 w3] r2] eqn:H2.
  simpl in Hret1, Hret2. subst r1 r2. cbn [fst snd].
  destruct (doLayout_round _ _ _ _ _ _ H1 k c Hk)
    as (wa & a & wa' & _ & Hra & Hna & _).
  destruct (doLayout_round _ _ _ _ _ _ H2 k c Hk)
    as (wb & b & wb' & _ & Hrb & Hnb & _).
  exists a, b. split; [exact Hna |]. split; [exact Hnb |].
  rewrite placeChild_instant in Hra, Hrb by assumption.
  injection Hra as Ha _ _. injection Hrb as Hb _ _. subst a b.
  change (children (set_reverse true self)) with (children self).
  change (children (set_reverse false self)) with (children self).
  change (passSpacing g (set_reverse true self))
    with (passSpacing g (set_reverse false self)).
  assert (Hstart : passStartX g (set_reverse true self)
                   = width self - passStartX g (set_reverse false self))
    by reflexivity.
  rewrite Hstart, cursorAt_mirror.
  unfold newXOf, scaleOf. simpl. lra.
Qed.

Lemma reversed_hand_is_the_mirror_image_witness :
  let g := mkGlobals true false false [] [] in
  let c := mkChild 100 100 7 8 1 1 0 1 true None false (mkCard None) in
  let self := mkLayout 400 100 (mkVec 0 0) "left" false 0 false [c; c] in
  let w := mkWorld [] 0 [] in
  animateFast g = true
  /\ nth_error (children self) 1 = Some c
  /\ 0 < lc_height c
  /\ exists a b,
      nth_error
        (children (fst (fst (doLayout 0.5 g (set_reverse false self) w)))) 1
      = Some a
      /\ nth_error
           (children (fst (fst (doLayout 0.5 g (set_reverse true self) w)))) 1
         = Some b
      /\ lc_x b + lc_scaleX b * lc_width b = width self - lc_x a.
Proof.
  intros g c self w.
  assert (Hpos : 0 < lc_height c) by (simpl; lra).
  split; [reflexivity |]. split; [reflexivity |]. split; [exact Hpos |].
  exact (reversed_hand_is_the_mirror_image
           0.5 g self w w 1%nat c eq_refl eq_refl Hpos).
Defined.

Lemma usedWidthFrom_shift :
  forall H cs uw, usedWidthFrom H cs uw = uw + usedWidthFrom H cs 0.
Proof.
  intros H cs. induction cs as [| c rest IH]; intros uw.
  - rewrite !usedWidthFrom_fold. simpl. lra.
  - destruct (Rle_dec (lc_height c) 0) as [Hflat | Hpos].
    + rewrite !usedWidthFrom_skip by exact Hflat. apply IH.
    + apply Rnot_le_lt in Hpos.
      rewrite !usedWidthFrom_count by exact Hpos.
      rewrite IH, (IH (0 + _)). lra.
Qed.

Lemma cursor_sum :
  forall self spacing cs x,
    reverse self = false ->
    Forall (fun c => 0 < lc_height c) cs ->
    fold_left (advance self spacing) cs x
    = x + usedWidth (height self) cs + INR (List.length cs) * spacing.
Proof.
  intros self spacing cs. unfold usedWidth.
  induction cs as [| c rest IH]; intros x Hrev Hall.
  - rewrite usedWidthFrom_fold. simpl. lra.
  - inversion Hall as [| ? ? Hc Hrest]; subst.
    change (fold_left (advance self spacing) (c :: rest) x)
      with (fold_left (advance self spacing) rest
                      (advance self spacing x c)).
    rewrite IH by assumption.
    rewrite advance_counted, Hrev by exact Hc.
    rewrite (usedWidthFrom_count _ _ _ _ Hc).
    rewrite (usedWidthFrom_shift _ rest (0 + _)).
    change (List.length (c :: rest)) with (S (List.length rest)).
    rewrite S_INR. ring.
Qed.

(** In instant mode, in a hand that is not reversed and whose children all
    have positive natural height, the first child lies at the first cursor
    and the far edge of the last child lies the total width further. *)
Lemma instant_extent :
  forall L g self w k,
    animateFast g = true -> reverse self = false ->
    Forall (fun c => 0 < lc_height c) (children self) ->
    S k = List.length (children self) ->
    let self' := fst (fst (doLayout L g self w)) in
    let total :=
      totalWidth (usedWidth (height self) (children self))
                 (passSpacing g self) (List.length (children self)) in
    exists first last,
      nth_error (children self') 0 = Some first
      /\ nth_error (children self') k = Some last
      /\ lc_x first = passStartX g self
      /\ lc_x last + lc_scaleX last * lc_width last
         = passStartX g self + total.
Proof.
  intros L g self w k Hfast Hrev Hall Hn self' total. subst self'.
  pose proof (doLayout_instant_returns L g self w Hfast) as Hret.
  destruct (doLayout L g self w) as [[self' w'] r] eqn:H.
  simpl in Hret. subst r. cbn [fst].
  assert (Hk : exists c, nth_error (children self) k = Some c).
  { destruct (nth_error (children self) k) as [c |] eqn:E;
      [now exists c |].
    apply nth_error_None in E. lia. }
  destruct Hk as [ck Hk].
  assert (H0 : exists c, nth_error (children self) 0 = Some c).
  { destruct (children self) as [| c0 rest]; [discriminate |].
    now exists c0. }
  destruct H0 as [c0 H0].
  assert (Hp0 : 0 < lc_height c0).
  { apply (proj1 (Forall_forall _ _) Hall). eapply nth_error_In; eassumption. }
  assert (Hpk : 0 < lc_height ck).
  { apply (proj1 (Forall_forall _ _) Hall). eapply nth_error_In; eassumption. }
  destruct (doLayout_round _ _ _ _ _ _ H 0%nat c0 H0)
    as (wa & a & wa' & _ & Hra & Hna & _).
  destruct (doLayout_round _ _ _ _ _ _ H k ck Hk)
    as (wb & b & wb' & _ & Hrb & Hnb & _).
  exists a, b. split; [exact Hna |]. split; [exact Hnb |].
  rewrite placeChild_instant in Hra, Hrb by assumption.
  injection Hra as Ha _ _. injection Hrb as Hb _ Hcursor. subst a b.
  simpl. unfold newXOf. rewrite Hrev. split; [unfold cursorAt; simpl; lra |].
  assert (Hend : cursorAt self (passSpacing g self) (passStartX g self)
                          (children self) (S k)
                 = passStartX g self
                   + usedWidth (height self) (children self)
                   + INR (List.length (children self)) * passSpacing g self).
  { unfold cursorAt. rewrite Hn, firstn_all.
    now apply cursor_sum. }
  rewrite Hend in Hcursor.
  rewrite advance_counted, Hrev in Hcursor by exact Hpk.
  unfold total, totalWidth, scaleOf. lra.
Qed.

Lemma doLayout_length :
  forall L g self w,
    List.length (children (fst (fst (doLayout L g self w))))
    = List.length (children self).
Proof.
  intros L g self w. rewrite doLayout_eq.
  pose proof (placeChildren_sameNatural L g self (passSpacing g self)
                (children self) 0 (passStartX g self) w) as Hsame.
  destruct (placeChildren L g self (passSpacing g self) 0
                          (passStartX g self) (children self) w)
    as [[cs' w'] r].
  simpl in *. exact (sameNatural_length _ _ Hsame).
Qed.

(** In instant mode, in a hand that is not reversed and whose children all
    have positive natural height, where a child starts and where it ends:
    at the first cursor, plus the width used by the children before it (and
    by itself, for its end), plus one spacing for each child before it. *)
Lemma instant_position :
  forall L g self w k c',
    animateFast g = true -> reverse self = false ->
    Forall (fun c => 0 < lc_height c) (children self) ->
    nth_error (children (fst (fst (doLayout L g self w)))) k = Some c' ->
    lc_x c'
    = passStartX g self
      + usedWidth (height self) (firstn k (children self))
      + INR k * passSpacing g self
    /\ lc_x c' + lc_scaleX c' * lc_width c'
       = passStartX g self
         + usedWidth (height self) (firstn (S k) (children self))
         + INR k * passSpacing g self.
Proof.
  intros L g self w k c' Hfast Hrev Hall Hk'.
  set (cs := children self) in *.
  set (n := List.length cs).
  set (s := passSpacing g self).
  set (x0 := passStartX g self).
  pose proof (doLayout_instant_returns L g self w Hfast) as Hret.
  pose proof (doLayout_length L g self w) as Hlen. fold cs n in Hlen.
  destruct (doLayout L g self w) as [[self' w'] r] eqn:H.
  simpl in Hret. subst r. cbn [fst] in Hk', Hlen.
  assert (Hkn : (k < n)%nat).
  { rewrite <- Hlen. apply nth_error_Some. congruence. }
  destruct (nth_error cs k) as [c |] eqn:Hk;
    [| apply nth_error_None in Hk; fold n in Hk; lia].
  assert (Hpos : 0 < lc_height c).
  { apply (proj1 (Forall_forall _ _) Hall). eapply nth_error_In; eassumption. }
  pose proof (proj1 (Forall_firstn_skipn _ _ cs k Hall)) as Hfirst.
  pose proof (proj1 (Forall_firstn_skipn _ _ cs (S k) Hall)) as Hfirst'.
  assert (Hin : cursorAt self s x0 cs k
                = x0 + usedWidth (height self) (firstn k cs) + INR k * s).
  { unfold cursorAt. rewrite (cursor_sum _ _ _ _ Hrev Hfirst).
    rewrite firstn_length_le by (fold n; lia). reflexivity. }
  assert (Hout : cursorAt self s x0 cs (S k)
                 = x0 + usedWidth (height self) (firstn (S k) cs)
                   + INR (S k) * s).
  { unfold cursorAt. rewrite (cursor_sum _ _ _ _ Hrev Hfirst').
    rewrite firstn_length_le by (fold n; lia). reflexivity. }
  destruct (doLayout_round _ _ _ _ _ _ H k c Hk)
    as (wk & c1 & wk' & _ & Hr & Hn1 & _).
  fold cs s x0 in Hr.
  rewrite Hn1 in Hk'. injection Hk' as <-.
  rewrite placeChild_instant in Hr by assumption.
  injection Hr as Hc1 _ Hcursor. subst c1.
  rewrite advance_counted, Hrev in Hcursor by exact Hpos.
  rewrite S_INR in Hout.
  set (upto := firstn (S k) cs) in *.
  simpl. unfold newXOf, scaleOf in *. rewrite Hrev. split; lra.
Qed.

(** The spacing of a hand that fits is not negative. *)
Lemma passSpacing_nonneg :
  forall g self,
    0 <= usedWidth (height self) (children self) ->
    usedWidth (height self) (children self) <= width self ->
    0 <= passSpacing g self.
Proof.
  intros g self Hu Hfit. unfold passSpacing.
  rewrite spacingBetweenCards_eq. cbv zeta.
  assert (Hcap : 0 <= maxSpacingBetweenCards
                        g (usedWidth (height self) (children self))).
  { unfold maxSpacingBetweenCards. destruct (keldonMode g); lra. }
  destruct (1 <? List.length (children self))%nat eqn:E.
  - apply Nat.ltb_lt in E. pose proof (INR_minus_one_pos _ E) as Hn.
    assert (Hq : 0 <= (width self
                       - usedWidth (height self) (children self))
                      / (INR (List.length (children self)) - 1)).
    { apply Rmult_le_pos; [lra |].
      apply Rlt_le. apply Rinv_0_lt_compat. lra. }
    match goal with
    | |- context [Rgt_dec ?a ?b] => destruct (Rgt_dec a b)
    end; assumption.
  - match goal with
    | |- context [Rgt_dec ?a ?b] => destruct (Rgt_dec a b)
    end; [assumption | lra].
Qed.

(** X8.  Where the cards of a hand lie.  In instant mode, in a hand that is
    not reversed and whose children all have positive natural height, the
    child at [k] starts at the first cursor plus the width used by the
    children before it plus [k] times the spacing, and the next child starts
    one spacing after it ends.  If moreover the hand has a non-negative
    height, the children non-negative widths, and the width the cards use is
    at most the width of the hand, then the spacing is not negative: no
    child starts left of the left border, and no child starts before the
    one before it ends. *)
Theorem cards_of_a_hand_that_fits_do_not_overlap :
  forall (L : R) (g : Globals) (self : CardLayout) (w : World)
         (k : nat) (c' : LayoutChild),
    animateFast g = true -> reverse self = false ->
    Forall (fun c => 0 < lc_height c) (children self) ->
    let self' := fst (fst (doLayout L g self w)) in
    let s := passSpacing g self in
    nth_error (children self') k = Some c' ->
    lc_x c'
    = passStartX g self
      + usedWidth (height self) (firstn k (children self)) + INR k * s
    /\ (forall next,
           nth_error (children self') (S k) = Some next ->
           lc_x next = lc_x c' + lc_scaleX c' * lc_width c' + s)
    /\ (0 <= height self ->
        Forall (fun c => 0 <= lc_width c) (children self) ->
        usedWidth (height self) (children self) <= width self ->
        0 <= s
        /\ 0 <= lc_x c'
        /\ forall next,
            nth_error (children self') (S k) = Some next ->
            lc_x c' + lc_scaleX c' * lc_width c' <= lc_x next).
Proof.
  intros L g self w k c' Hfast Hrev Hall self' s Hk'. subst self'.
  destruct (instant_position L g self w k c' Hfast Hrev Hall Hk')
    as [Hx Hend].
  fold s in Hx, Hend.
  assert (Hnext : forall next,
             nth_error (children (fst (fst (doLayout L g self w)))) (S k)
             = Some next ->
             lc_x next = lc_x c' + lc_scaleX c' * lc_width c' + s).
  { intros next Hn.
    destruct (instant_position L g self w (S k) next Hfast Hrev Hall Hn)
      as [Hx' _].
    fold s in Hx'. rewrite Hx', Hend, S_INR. ring. }
  split; [exact Hx |]. split; [exact Hnext |].
  intros HH Hwidths Hfit.
  assert (Hu : 0 <= usedWidth (height self) (children self))
    by (apply usedWidthFrom_nonneg; [exact HH | exact Hwidths | lra]).
  assert (Hs : 0 <= s) by (now apply passSpacing_nonneg).
  split; [exact Hs |]. split.
  - pose proof (proj1 (Forall_firstn_skipn _ _ (children self) k Hwidths))
      as Hfirstw.
    assert (Hbefore : 0 <= usedWidth (height self)
                                     (firstn k (children self)))
      by (apply usedWidthFrom_nonneg; [exact HH | exact Hfirstw | lra]).
    assert (Hks : 0 <= INR k * s)
      by (apply Rmult_le_pos; [apply pos_INR | exact Hs]).
    assert (Hstart : 0 <= passStartX g self).
    { unfold passStartX. rewrite startX_eq. cbv zeta. rewrite Hrev.
      destruct (String.eqb (align self) "center"); [| lra].
      match goal with
      | |- context [Rlt_dec ?a ?b] => destruct (Rlt_dec a b)
      end; lra. }
    lra.
  - intros next Hn. rewrite (Hnext next Hn). lra.
Qed.

Lemma cards_of_a_hand_that_fits_do_not_overlap_witness :
  let g := mkGlobals true false false [] [] in
  let c := mkChild 100 100 7 8 1 1 0 1 true None false (mkCard None) in
  let self := mkLayout 350 100 (mkVec 0 0) "center" false 0 false [c; c; c] in
  let w := mkWorld [] 0 [] in
  exists second,
    nth_error (children (fst (fst (doLayout 0.5 g self w)))) 1 = Some second
    /\ 0 <= passSpacing g self
    /\ 0 <= lc_x second.
Proof.
  intros g c self w.
  assert (Hu : usedWidth (height self) (children self) = 300).
  { subst self c. unfold usedWidth. simpl children. simpl height.
    repeat (rewrite usedWidthFrom_count by (simpl; lra)).
    rewrite usedWidthFrom_fold. simpl. lra. }
  assert (Hall : Forall (fun c0 => 0 < lc_height c0) (children self))
    by (repeat constructor; simpl; lra).
  assert (Hwidths : Forall (fun c0 => 0 <= lc_width c0) (children self))
    by (repeat constructor; simpl; lra).
  assert (HH : 0 <= height self) by (simpl; lra).
  assert (Hfit : usedWidth (height self) (children self) <= width self)
    by (rewrite Hu; simpl; lra).
  destruct (nth_error (children (fst (fst (doLayout 0.5 g self w)))) 1)
    as [second |] eqn:E.
  - exists second. split; [reflexivity |].
    destruct (proj2 (proj2 (cards_of_a_hand_that_fits_do_not_overlap
                              0.5 g self w 1%nat second
                              eq_refl eq_refl Hall E))
                    HH Hwidths Hfit)
      as (Hs & Hx & _).
    split; [exact Hs | exact Hx].
  - exfalso. apply nth_error_None in E.
    rewrite doLayout_length in E. simpl in E. lia.
Defined.

(** X9.  In a centered hand that is not reversed and whose children all
    have positive natural height, when the total width is less than the
    width of the hand, an instant pass leaves as much room to the left of the
    first child as to the right of the last: half of what the cards do not
    take. *)
Theorem centered_hand_has_equal_margins :
  forall (L : R) (g : Globals) (self : CardLayout) (w : World) (k : nat),
    let W := width self in
    let n := List.length (children self) in
    let total :=
      totalWidth (usedWidth (height self) (children self))
                 (passSpacing g self) n in
    animateFast g = true -> reverse self = false ->
    align self = "center" -> total < W ->
    Forall (fun c => 0 < lc_height c) (children self) ->
    S k = n ->
    exists first last,
      nth_error (children (fst (fst (doLayout L g self w)))) 0 = Some first
      /\ nth_error (children (fst (fst (doLayout L g self w)))) k = Some last
      /\ lc_x first = (W - total) / 2
      /\ W - (lc_x last + lc_scaleX last * lc_width last) = lc_x first.
Proof.
  intros L g self w k W n total Hfast Hrev Hcenter Hroom Hall Hk.
  destruct (instant_extent L g self w k Hfast Hrev Hall Hk)
    as (first & last & Hf & Hl & Hxf & Hxl).
  fold n total in Hxl.
  exists first, last. split; [exact Hf |]. split; [exact Hl |].
  assert (Hstart : passStartX g self = (W - total) / 2).
  { unfold passStartX. rewrite startX_eq. cbv zeta. fold n total W.
    rewrite Hrev, Hcenter. simpl.
    destruct (Rlt_dec total W); [reflexivity | contradiction]. }
  rewrite Hxf, Hxl, Hstart. split; lra.
Qed.

Lemma centered_hand_has_equal_margins_witness :
  let g := mkGlobals true false false [] [] in
  let c := mkChild 100 100 7 8 1 1 0 1 true None false (mkCard None) in
  let self := mkLayout 400 100 (mkVec 0 0) "center" false 0 false [c] in
  let w := mkWorld [] 0 [] in
  totalWidth (usedWidth (height self) (children self))
             (passSpacing g self) (List.length (children self))
  < width self
  /\ exists first last,
      nth_error (children (fst (fst (doLayout 0.5 g self w)))) 0 = Some first
      /\ nth_error (children (fst (fst (doLayout 0.5 g self w)))) 0
         = Some last
      /\ width self - (lc_x last + lc_scaleX last * lc_width last)
         = lc_x first.
Proof.
  intros g c self w.
  assert (Hu : usedWidth (height self) (children self) = 100).
  { unfold usedWidth. subst self c. simpl children. simpl height.
    rewrite usedWidthFrom_count by (simpl; lra).
    rewrite usedWidthFrom_fold. simpl. lra. }
  assert (Hs : passSpacing g self = 0).
  { unfold passSpacing. rewrite Hu.
    apply spacingBetweenCards_few_nonneg; [simpl; lia | lra]. }
  assert (Hroom :
            totalWidth (usedWidth (height self) (children self))
                       (passSpacing g self) (List.length (children self))
            < width self).
  { rewrite Hu, Hs. unfold totalWidth. simpl. lra. }
  split; [exact Hroom |].
  destruct (centered_hand_has_equal_margins
              0.5 g self w 0%nat eq_refl eq_refl eq_refl Hroom)
    as (first & last & Hf & Hl & _ & Heq).
  - repeat constructor. simpl. lra.
  - reflexivity.
  - exists first, last. repeat split; assumption.
Defined.

(* ------------------------------------------------------------------ *)
(** ** Tweens that a pass supersedes, and tweens that complete *)

Lemma NoDup_map_inj :
  forall (A B : Type) (f : A -> B) (l : list A) a b,
    NoDup (map f l) -> In a l -> In b l -> f a = f b -> a = b.
Proof.
  intros A B f l a b. induction l as [| x l IH]; intros Hnd Ha Hb Hf.
  - contradiction.
  - simpl in Hnd. inversion Hnd as [| ? ? Hnotin Hnd']; subst.
    destruct Ha as [-> | Ha]; destruct Hb as [-> | Hb]; auto.
    + exfalso. apply Hnotin. rewrite Hf. now apply in_map.
    + exfalso. apply Hnotin. rewrite <- Hf. now apply in_map.
Qed.

Lemma find_by_id :
  forall cs w t,
    tweenInv cs w -> In t (in_flight w) ->
    find (fun t' => (tw_id t' =? tw_id t)%nat) (in_flight w) = Some t.
Proof.
  intros cs w t (_ & Hnd & _) Ht.
  destruct (find (fun t' => (tw_id t' =? tw_id t)%nat) (in_flight w))
    as [t' |] eqn:E.
  - apply find_some in E. destruct E as [Ht' Hid].
    apply Nat.eqb_eq in Hid.
    f_equal. exact (NoDup_map_inj _ _ tw_id _ _ _ Hnd Ht' Ht Hid).
  - exfalso. pose proof (find_none _ _ E t Ht) as Hn.
    simpl in Hn. now rewrite Nat.eqb_refl in Hn.
Qed.

(** The tweens in flight after a round were in flight before it or were
    started in it. *)
Lemma placeChild_in_flight :
  forall L g self spacing i x c w c' w' r,
    placeChild L g self spacing i x c w = (c', w', r) ->
    (next_id w <= next_id w')%nat
    /\ forall t, In t (in_flight w') ->
                 In t (in_flight w) \/ (next_id w <= tw_id t)%nat.
Proof.
  intros L g self spacing i x c w c' w' r H.
  assert (Hold : forall t, In t (in_flight (destroyTweenOf c w)) ->
                           In t (in_flight w)).
  { intros t Ht. unfold destroyTweenOf in Ht.
    destruct (tween c); [| exact Ht].
    simpl in Ht. apply filter_In in Ht. tauto. }
  assert (Hdriver :
            forall cfg c0 timed w0,
              in_flight w0 = in_flight (destroyTweenOf c w) ->
              next_id w0 = next_id w ->
              let wa := snd (animate g i c0 cfg timed w0) in
              (next_id w <= next_id wa)%nat
              /\ forall t, In t (in_flight wa) ->
                           In t (in_flight w) \/ (next_id w <= tw_id t)%nat).
  { intros cfg c0 timed w0 Hf Hn wa. subst wa.
    destruct (proj1 driver_effect cfg g i c0 timed w0)
      as (_ & _ & [(Hf' & Hn' & _) | (cfg' & Hf' & Hn' & _)]).
    - rewrite Hf', Hn', Hf, Hn. split; [lia |].
      intros t Ht. left. now apply Hold.
    - rewrite Hf', Hn', Hf, Hn. split; [lia |].
      intros t Ht. apply in_app_or in Ht. destruct Ht as [Ht | [<- | []]].
      + left. now apply Hold.
      + right. simpl. lia. }
  round_cases g c H.
  - injection H as _ <- _. split; [lia | intros t Ht; now left].
  - injection H as _ <- _. simpl.
    rewrite destroyTweenOf_next_id. split; [lia |].
    intros t Ht. left. now apply Hold.
  - cbv zeta in H.
    match type of H with
    | context [animate g i ?c0 ?cfg ?t ?w0] =>
      pose proof (Hdriver cfg c0 t w0 eq_refl
                          (destroyTweenOf_next_id c w)) as Hd;
      cbv zeta in Hd;
      destruct (animate g i c0 cfg t w0) as [ca wa]
    end.
    cbn [fst snd] in H, Hd. injection H as _ <- _. exact Hd.
  - injection H as _ <- _. simpl.
    rewrite destroyTweenOf_next_id. split; [lia |].
    intros t Ht. left. now apply Hold.
  - cbv zeta in H.
    match type of H with
    | context [animate g i ?c0 ?cfg ?t ?w0] =>
      pose proof (Hdriver cfg c0 t w0 eq_refl
                          (destroyTweenOf_next_id c w)) as Hd;
      cbv zeta in Hd;
      destruct (animate g i c0 cfg t w0) as [ca wa]
    end.
    cbn [fst snd] in H, Hd. injection H as _ <- _. exact Hd.
Qed.

Lemma placeChildren_in_flight :
  forall L g self spacing cs i x w cs' w' r,
    placeChildren L g self spacing i x cs w = (cs', w', r) ->
    (next_id w <= next_id w')%nat
    /\ forall t, In t (in_flight w') ->
                 In t (in_flight w) \/ (next_id w <= tw_id t)%nat.
Proof.
  intros L g self spacing cs.
  induction cs as [| c rest IH]; intros i x w cs' w' r H.
  - injection H as _ <- _. split; [lia | intros t Ht; now left].
  - rewrite placeChildren_cons in H.
    destruct (placeChild L g self spacing i x c w)
      as [[c1 w1] r1] eqn:Hround.
    destruct (placeChild_in_flight _ _ _ _ _ _ _ _ _ _ _ Hround)
      as [Hn1 Hin1].
    destruct r1 as [x1 | msg].
    + destruct (placeChildren L g self spacing (S i) x1 rest w1)
        as [[rest' w2] r2] eqn:E.
      injection H as _ <- _.
      destruct (IH _ _ _ _ _ _ E) as [Hn2 Hin2].
      split; [lia |].
      intros t Ht. destruct (Hin2 t Ht) as [Hold | Hnew].
      * destruct (Hin1 t Hold) as [Hold' | Hnew']; [now left | right; lia].
      * right. lia.
    + injection H as _ <- _. split; assumption.
Qed.

(** X10.  A pass that returns supersedes the tween that was in flight for a
    child of positive natural height: the tween is no longer in flight, so
    that it never completes and its completion callback never runs. *)
Theorem superseded_tween_never_completes :
  forall (L : R) (g g' : Globals) (self self' : CardLayout) (w w' : World)
         (t : Tween) (c : LayoutChild),
    tweenInv (children self) w ->
    doLayout L g self w = (self', w', Ok tt) ->
    In t (in_flight w) ->
    nth_error (children self) (tw_node t) = Some c ->
    0 < lc_height c ->
    ~ In t (in_flight w')
    /\ (forall t', In t' (in_flight w') -> tw_id t' <> tw_id t)
    /\ tweenCompletes g' (tw_id t) self' w' = (self', w').
Proof.
  intros L g g' self self' w w' t c Hinv H Ht Hc Hpos.
  destruct (doLayout_tweens _ _ _ _ _ _ _ Hinv H) as (Hinv' & _ & Hok).
  destruct (Hok eq_refl) as [_ Hrounds].
  destruct (Hrounds _ _ Hc Hpos) as (_ & Hnew & _).
  pose proof (proj1 Hinv t Ht) as Hfresh.
  assert (Hgone : ~ In t (in_flight w')).
  { intros Hin.
    assert (Hof : In t (tweensOf (tw_node t) w')).
    { unfold tweensOf. apply filter_In. split; [exact Hin |].
      apply Nat.eqb_refl. }
    specialize (Hnew t Hof). lia. }
  assert (Hids : forall t', In t' (in_flight w') -> tw_id t' <> tw_id t).
  { intros t' Ht' Hid.
    rewrite doLayout_eq in H.
    destruct (placeChildren L g self (passSpacing g self) 0
                            (passStartX g self) (children self) w)
      as [[cs0 w0] r0] eqn:E.
    injection H as _ <- _.
    destruct (placeChildren_in_flight _ _ _ _ _ _ _ _ _ _ _ E)
      as [_ Hin].
    destruct (Hin t' Ht') as [Hold | Hnew']; [| lia].
    apply Hgone.
    now rewrite <- (NoDup_map_inj _ _ tw_id _ _ _
                      (proj1 (proj2 Hinv)) Hold Ht Hid). }
  split; [exact Hgone |]. split; [exact Hids |].
  unfold tweenCompletes.
  destruct (find (fun t0 => (tw_id t0 =? tw_id t)%nat) (in_flight w'))
    as [t' |] eqn:E; [| reflexivity].
  apply find_some in E. destruct E as [Ht' Hid].
  apply Nat.eqb_eq in Hid. exfalso. exact (Hids t' Ht' Hid).
Qed.

Lemma superseded_tween_never_completes_witness :
  let g := mkGlobals false false false [] [] in
  let c :=
    mkChild 100 100 7 8 1 1 0 1 true (Some 0%nat) false (mkCard None) in
  let self := mkLayout 400 100 (mkVec 0 0) "left" false 0 false [c] in
  let t := mkTweenObj 0 0 (mkTween 0.5 0 0 1 0 1 EaseOut layoutFinished) in
  let w := mkWorld [t] 1 [] in
  tweenInv (children self) w
  /\ snd (doLayout 0.5 g self w) = Ok tt
  /\ ~ In t (in_flight (snd (fst (doLayout 0.5 g self w)))).
Proof.
  intros g c self t w.
  assert (Hinv : tweenInv (children self) w).
  { unfold tweenInv. simpl.
    split; [intros t0 [<- | []]; simpl; lia |].
    split; [repeat constructor; simpl; tauto |].
    split; [intros t0 [<- | []]; exists c; split; reflexivity |].
    split.
    - intros [| i] c0 id Hi Hid; simpl in Hi.
      + injection Hi as <-. injection Hid as <-. lia.
      + destruct i; discriminate.
    - intros [| i] [| j] c0 c1 id Hi Hj _ _; simpl in Hi, Hj;
        try reflexivity;
        try (destruct i; discriminate); destruct j; discriminate. }
  assert (Hret : snd (doLayout 0.5 g self w) = Ok tt).
  { apply doLayout_returns. simpl.
    assert (Hc : placeChildThrows g c = false).
    { unfold placeChildThrows.
      destruct (Rle_dec (lc_height c) 0); reflexivity. }
    repeat constructor; exact Hc. }
  split; [exact Hinv |]. split; [exact Hret |].
  destruct (doLayout 0.5 g self w) as [[self' w'] r] eqn:H.
  simpl in Hret. subst r. cbn [fst snd].
  assert (Hpos : 0 < lc_height c) by (simpl; lra).
  exact (proj1 (superseded_tween_never_completes
                  0.5 g g self self' w w' t c Hinv H
                  (or_introl eq_refl) eq_refl Hpos)).
Defined.

(** X11.  When a tween in flight completes, it is in flight no longer.  If
    it is a layout tween, its node then holds its targets, the card visual
    is told that tweening has finished and the draggability is checked, in
    that order, and no tween is in flight for the child.  If it is a misplay
    tween and skip-animation is off, its node holds its position, scale and
    opacity targets with the rotation set to 360, and the layout tween, and
    nothing else, is in flight for the child.  (The completion of a tween is
    modelled from the spec; the two callbacks are the source's.) *)
Theorem completion_runs_the_callback :
  forall (g : Globals) (self : CardLayout) (w : World) (t : Tween),
    tweenInv (children self) w ->
    In t (in_flight w) ->
    let self' := fst (tweenCompletes g (tw_id t) self w) in
    let w' := snd (tweenCompletes g (tw_id t) self w) in
    let cfg := tw_config t in
    let k := tw_node t in
    ~ In t (in_flight w')
    /\ exists c',
        nth_error (children self') k = Some c'
        /\ match tc_onFinish cfg with
           | layoutFinished =>
             (lc_x c' = tc_x cfg /\ lc_y c' = tc_y cfg
              /\ lc_scaleX c' = tc_scale cfg /\ lc_scaleY c' = tc_scale cfg
              /\ lc_opacity c' = tc_opacity cfg)
             /\ lc_rotation c' = tc_rotation cfg
             /\ tweensOf k w' = []
             /\ calls w'
                = calls w ++ [(k, finishedTweening); (k, checkSetDraggable)]
           | misplayFinished animateToLayout =>
             speedrun g = false ->
             (lc_x c' = tc_x cfg /\ lc_y c' = tc_y cfg
              /\ lc_scaleX c' = tc_scale cfg /\ lc_scaleY c' = tc_scale cfg
              /\ lc_opacity c' = tc_opacity cfg)
             /\ lc_rotation c' = 360
             /\ tweensOf k w' = [mkTweenObj (next_id w) k animateToLayout]
             /\ calls w' = calls w ++ [(k, animateCall animateToLayout true)]
           end.
Proof.
  intros g self w t Hinv Ht self' w' cfg k. subst self' w'.
  destruct (proj1 (proj2 (proj2 Hinv)) t Ht) as (c & Hc & Hslot).
  unfold tweenCompletes.
  rewrite (find_by_id _ _ _ Hinv Ht), Hc.
  assert (Hlen : List.length (firstn (tw_node t) (children self))
                 = tw_node t).
  { apply firstn_length_le. apply Nat.lt_le_incl.
    apply nth_error_Some. congruence. }
  pose proof (nth_error_middle _ _ _ _ Hc) as Hsplit.
  assert (Hdestroy : destroy (tw_id t) w = destroyTweenOf c w)
    by (unfold destroyTweenOf; now rewrite Hslot).
  assert (Hnil : tweensOf k (destroy (tw_id t) w) = []).
  { rewrite Hdestroy. unfold k. rewrite <- Hlen.
    rewrite Hsplit in Hinv.
    exact (proj1 (tweensOf_destroyTweenOf _ _ _ _ Hinv)). }
  assert (Hgone : ~ In t (in_flight (destroy (tw_id t) w))).
  { simpl. intros Hin. apply filter_In in Hin.
    destruct Hin as [_ Hid]. rewrite Nat.eqb_refl in Hid. discriminate. }
  pose proof (proj1 Hinv t Ht) as Hfresh.
  assert (Hat : forall c',
             nth_error
               (firstn (tw_node t) (children self) ++ c' ::
                skipn (S (tw_node t)) (children self)) k = Some c').
  { intros c'. unfold k.
    rewrite <- Hlen at 3.
    exact (nth_error_at _ (firstn (tw_node t) (children self))
                        (skipn (S (tw_node t)) (children self)) c'). }
  unfold cfg in *. clear cfg.
  destruct (tw_config t) as [d x y s r o e cb].
  destruct cb as [| next]; cbn [tc_onFinish runCallback].
  - cbn [fst snd children set_children].
    split; [exact Hgone |].
    eexists. split; [apply Hat |].
    split; [simpl; repeat split |].
    split; [reflexivity |].
    split; [exact Hnil |].
    simpl. now rewrite <- app_assoc.
  - destruct (speedrun g) eqn:Hspeed; cbn [negb].
    + destruct (animate g (tw_node t)
                  (set_rotation 360
                     (applyTargets (mkTween d x y s r o e
                                            (misplayFinished next)) c))
                  next false (destroy (tw_id t) w)) as [ca wa] eqn:Ha.
      cbn [fst snd children set_children].
      pose proof (proj1 driver_effect next g (tw_node t)
                    (set_rotation 360
                       (applyTargets (mkTween d x y s r o e
                                              (misplayFinished next)) c))
                    false (destroy (tw_id t) w)) as Heff.
      rewrite Ha in Heff. cbn [fst snd] in Heff.
      destruct Heff as (_ & _ & Htw).
      split.
      * intros Hin.
        destruct Htw as [(Hf & _) | (cfg' & Hf & _)]; rewrite Hf in Hin.
        -- exact (Hgone Hin).
        -- apply in_app_or in Hin. destruct Hin as [Hin | [Heq | []]].
           ++ exact (Hgone Hin).
           ++ rewrite <- Heq in Hfresh. simpl in Hfresh. lia.
      * exists ca. split; [apply Hat |]. discriminate.
    + rewrite animate_timed.
      cbn [fst snd children set_children].
      split.
      * simpl. intros Hin. apply in_app_or in Hin.
        destruct Hin as [Hin | [Heq | []]].
        -- exact (Hgone Hin).
        -- rewrite <- Heq in Hfresh. simpl in Hfresh. lia.
      * eexists. split; [apply Hat |].
        intros _. split; [simpl; repeat split |].
        split; [reflexivity |]. split; [| reflexivity].
        unfold tweensOf. simpl. rewrite filter_app.
        unfold tweensOf in Hnil. simpl in Hnil. unfold k in *.
        rewrite Hnil. simpl. now rewrite Nat.eqb_refl.
Qed.

Lemma completion_runs_the_callback_witness :
  let g := mkGlobals false false false [] [] in
  let c :=
    mkChild 100 100 7 8 1 1 0 1 true (Some 0%nat) false (mkCard None) in
  let self := mkLayout 400 100 (mkVec 0 0) "left" false 0 false [c] in
  let t := mkTweenObj 0 0 (mkTween 0.5 0 0 1 0 1 EaseOut layoutFinished) in
  let w := mkWorld [t] 1 [] in
  tweenInv (children self) w
  /\ In t (in_flight w)
  /\ ~ In t (in_flight (snd (tweenCompletes g (tw_id t) self w))).
Proof.
  intros g c self t w.
  assert (Hinv : tweenInv (children self) w).
  { unfold tweenInv. simpl.
    split; [intros t0 [<- | []]; simpl; lia |].
    split; [repeat constructor; simpl; tauto |].
    split; [intros t0 [<- | []]; exists c; split; reflexivity |].
    split.
    - intros [| i] c0 id Hi Hid; simpl in Hi.
      + injection Hi as <-. injection Hid as <-. lia.
      + destruct i; discriminate.
    - intros [| i] [| j] c0 c1 id Hi Hj _ _; simpl in Hi, Hj;
        try reflexivity;
        try (destruct i; discriminate); destruct j; discriminate. }
  split; [exact Hinv |]. split; [left; reflexivity |].
  exact (proj1 (completion_runs_the_callback
                  g self w t Hinv (or_introl eq_refl))).
Defined.

(* ------------------------------------------------------------------ *)
(** ** A child joins the container *)

Lemma sameNatural_trans :
  forall cs1 cs2 cs3,
    sameNatural cs1 cs2 -> sameNatural cs2 cs3 -> sameNatural cs1 cs3.
Proof.
  intros cs1 cs2 cs3 H12. revert cs3.
  induction H12 as [| c1 c2 r1 r2 (Hw & Hh & Hc) _ IH]; intros cs3 H23.
  - inversion H23. constructor.
  - inversion H23 as [| ? c3 ? r3 (Hw' & Hh' & Hc') Hrest]; subst.
    constructor; [| now apply IH].
    repeat split; congruence.
Qed.

Lemma sameNatural_snoc :
  forall cs c c',
    lc_width c' = lc_width c -> lc_height c' = lc_height c ->
    card c' = card c ->
    sameNatural (cs ++ [c]) (cs ++ [c']).
Proof.
  intros cs c c' Hw Hh Hc. unfold sameNatural.
  apply Forall2_app; [apply sameNatural_refl |].
  constructor; [auto | constructor].
Qed.

(** The pass of [addChild], on the container the child has joined. *)
Lemma addChild_eq :
  forall L toLocal g child pos attached s,
    let self := sc_layout s in
    let n := List.length (children self) in
    let p := toLocal self pos in
    let child1 := set_y (vy p) (set_x (vx p) child) in
    let self1 := set_children (children self ++ [child1]) self in
    let pass := doLayout L g self1 (sc_world s) in
    addChild L toLocal g child pos attached s
    = (mkScene (fst (fst pass)) (snd (fst pass))
               (fun j => if (j =? n)%nat then attached else sc_attached s j)
               (if empathy self then sc_empathy s ++ [(n, true)]
                else sc_empathy s),
       snd pass).
Proof.
  intros L toLocal g child pos attached s self n p child1 self1 pass.
  unfold addChild. fold self. fold n. fold p. fold child1. fold self1.
  change (doLayout L g self1 (sc_world s)) with pass.
  now destruct pass as [[self' w'] r].
Qed.

(** X12.  [addChild] puts the child behind the children that were there:
    the container has one child more, the older children come first and in
    their order, every child keeps its natural size and its card, and the
    attributes of the container stay.  The card of the new child is told
    that empathy is on exactly when the container's empathy is on, and no
    card is told anything else.  [addChild] returns normally exactly when no
    child, the new one included, makes the pass throw. *)
Theorem addChild_puts_the_child_last :
  forall (L : R) (toLocal : CardLayout -> Vector2d -> Vector2d)
         (g : Globals) (child : LayoutChild) (pos : Vector2d)
         (attached : bool) (s : Scene),
    let n := List.length (children (sc_layout s)) in
    let s' := fst (addChild L toLocal g child pos attached s) in
    sameNatural (children (sc_layout s) ++ [child])
                (children (sc_layout s'))
    /\ List.length (children (sc_layout s')) = S n
    /\ sc_layout s' = set_children (children (sc_layout s')) (sc_layout s)
    /\ sc_empathy s'
       = sc_empathy s
         ++ (if empathy (sc_layout s) then [(n, true)] else [])
    /\ sc_attached s' n = attached
    /\ (forall j, j <> n -> sc_attached s' j = sc_attached s j)
    /\ (snd (addChild L toLocal g child pos attached s) = Ok tt
        <-> Forall (fun c => placeChildThrows g c = false)
                   (children (sc_layout s) ++ [child])).
Proof.
  intros L toLocal g child pos attached s n s'. subst s'.
  rewrite addChild_eq. cbv zeta. cbn [fst snd].
  set (self := sc_layout s).
  set (child1 := set_y (vy (toLocal self pos))
                       (set_x (vx (toLocal self pos)) child)).
  set (self1 := set_children (children self ++ [child1]) self).
  fold self in n.
  rewrite (doLayout_eq L g self1).
  pose proof (placeChildren_sameNatural L g self1 (passSpacing g self1)
                (children self1) 0 (passStartX g self1) (sc_world s))
    as Hsame.
  pose proof (placeChildren_returns_iff L g self1 (passSpacing g self1)
                (children self1) 0 (passStartX g self1) (sc_world s))
    as Hret.
  destruct (placeChildren L g self1 (passSpacing g self1) 0
                          (passStartX g self1) (children self1) (sc_world s))
    as [[cs' w'] r].
  cbn [fst snd sc_layout sc_empathy sc_attached children set_children]
    in *.
  assert (Hjoin : sameNatural (children self ++ [child]) cs').
  { apply (sameNatural_trans _ (children self ++ [child1]));
      [| exact Hsame].
    apply sameNatural_snoc; reflexivity. }
  split; [exact Hjoin |].
  split.
  { rewrite (sameNatural_length _ _ Hjoin), length_app. simpl.
    unfold n. lia. }
  split; [reflexivity |].
  split.
  { destruct (empathy self); [reflexivity | now rewrite app_nil_r]. }
  split; [now rewrite Nat.eqb_refl |].
  split.
  { intros j Hj. unfold n in Hj. apply Nat.eqb_neq in Hj.
    now rewrite Hj. }
  rewrite Hret.
  assert (Hsplit : forall c0,
             Forall (fun c => placeChildThrows g c = false)
                    (children self ++ [c0])
             <-> Forall (fun c => placeChildThrows g c = false)
                        (children self)
                 /\ placeChildThrows g c0 = false).
  { intros c0. rewrite Forall_app. split.
    - intros [Ha Hb]. split; [exact Ha | now inversion Hb].
    - intros [Ha Hb]. split; [exact Ha | now constructor]. }
  change (children self1) with (children self ++ [child1]).
  rewrite (Hsplit child), (Hsplit child1).
  change (placeChildThrows g child1) with (placeChildThrows g child).
  reflexivity.
Qed.

Lemma addChild_puts_the_child_last_witness :
  let g := mkGlobals true false false [] [] in
  let child :=
    mkChild 100 100 7 8 1 1 0 1 true None false (mkCard None) in
  let self := mkLayout 400 100 (mkVec 0 0) "left" false 0 true [] in
  let s := mkScene self (mkWorld [] 0 []) (fun _ => true) [] in
  let toLocal := fun (_ : CardLayout) (v : Vector2d) => v in
  let s' := fst (addChild 0.5 toLocal g child (mkVec 30 40) false s) in
  5%nat <> 0%nat /\ sc_attached s' 5 = sc_attached s 5.
Proof.
  intros g child self s toLocal s'.
  assert (Hne : 5%nat <> 0%nat) by discriminate.
  split; [exact Hne |].
  exact (proj1 (proj2 (proj2 (proj2 (proj2 (proj2
           (addChild_puts_the_child_last
              0.5 toLocal g child (mkVec 30 40) false s))))))
               5%nat Hne).
Defined.

(** X13.  With animations on and skip-animation off, a child of positive
    natural height that joins the container without a pending misplay is,
    when [addChild] returns, still where it showed before it joined, with
    the scale, the rotation and the opacity it had, and visible; the last
    calls on it are the start notice, the shadow reset and the request of a
    timed layout tween to its place; and exactly one tween is in flight for
    it. *)
Theorem added_child_starts_where_it_was :
  forall (L : R) (toLocal : CardLayout -> Vector2d -> Vector2d)
         (g : Globals) (child : LayoutChild) (pos : Vector2d)
         (attached : bool) (s s' : Scene),
    animateFast g = false -> speedrun g = false ->
    0 < lc_height child -> doMisplayAnimation child = false ->
    tweenInv (children (sc_layout s) ++ [child]) (sc_world s) ->
    addChild L toLocal g child pos attached s = (s', Ok tt) ->
    let self := sc_layout s in
    let n := List.length (children self) in
    let p := toLocal self pos in
    let self1 :=
      set_children (children self ++ [set_y (vy p) (set_x (vx p) child)])
                   self in
    let x :=
      newXOf self1
             (cursorAt self1 (passSpacing g self1) (passStartX g self1)
                       (children self1) n)
             child in
    exists c',
      nth_error (children (sc_layout s')) n = Some c'
      /\ lc_x c' = vx p /\ lc_y c' = vy p
      /\ lc_scaleX c' = lc_scaleX child /\ lc_scaleY c' = lc_scaleY child
      /\ lc_rotation c' = lc_rotation child
      /\ lc_opacity c' = lc_opacity child
      /\ lc_visible c' = true
      /\ callsOn n (calls (sc_world s'))
         = callsOn n (calls (sc_world s))
           ++ [startedTweening; setRaiseAndShadowOffset;
               animateCall (layoutTween L x (height self / lc_height child))
                           true]
      /\ List.length (tweensOf n (sc_world s')) = 1%nat.
Proof.
  intros L toLocal g child pos attached s s' Hfast Hspeed Hpos Hflag Hinv H
         self n p self1 x.
  rewrite addChild_eq in H. cbv zeta in H.
  fold self in H. fold p in H. fold self1 in H. fold n in H.
  destruct (doLayout L g self1 (sc_world s)) as [[self' w'] r] eqn:Hpass.
  cbn [fst snd] in H. injection H as <- ->.
  cbn [sc_layout sc_world].
  set (child1 := set_y (vy p) (set_x (vx p) child)) in *.
  assert (Hn : nth_error (children self1) n = Some child1)
    by (unfold n; apply nth_error_at).
  assert (Hinv1 : tweenInv (children self1) (sc_world s)).
  { apply (tweenInv_reslot (children self) child child1 [] _ Hinv).
    left. reflexivity. }
  destruct (doLayout_tweens _ _ _ _ _ _ _ Hinv1 Hpass) as (_ & _ & Hok).
  destruct (Hok eq_refl) as [_ Hrounds].
  destruct (Hrounds n child1 Hn Hpos) as (_ & _ & Hone).
  destruct (doLayout_round _ _ _ _ _ _ Hpass n child1 Hn)
    as (wk & c' & wk' & round & Hr & Hc' & Hround & Hcalls).
  pose proof (placeChild_animated_world
                L g self1 (passSpacing g self1) n
                (cursorAt self1 (passSpacing g self1) (passStartX g self1)
                          (children self1) n)
                child1 wk Hfast Hpos Hflag) as Hworld.
  cbv zeta in Hworld. rewrite Hr in Hworld. cbn [fst snd] in Hworld.
  rewrite Hspeed in Hworld. cbn [negb] in Hworld.
  rewrite app_nil_r in Hworld.
  destruct Hworld as [Hlog Hstart].
  destruct (Hstart eq_refl) as (_ & _ & ->).
  rewrite Hround in Hlog. apply app_inv_head in Hlog. subst round.
  exists (set_tween (Some (next_id wk)) (set_tween None (show child1))).
  split; [exact Hc' |].
  repeat (split; [reflexivity |]).
  split; [exact Hcalls |].
  exact (Hone Hfast Hspeed).
Qed.

Lemma added_child_starts_where_it_was_witness :
  let g := mkGlobals false false false [] [] in
  let child :=
    mkChild 100 100 7 8 1 1 0 1 true None false (mkCard None) in
  let self := mkLayout 400 100 (mkVec 0 0) "left" false 0 false [] in
  let s := mkScene self (mkWorld [] 0 []) (fun _ => true) [] in
  let toLocal := fun (_ : CardLayout) (v : Vector2d) => v in
  exists c',
    nth_error
      (children
         (sc_layout (fst (addChild 0.5 toLocal g child (mkVec 30 40) true s))))
      0
    = Some c'
    /\ lc_x c' = 30 /\ lc_y c' = 40.
Proof.
  intros g child self s toLocal.
  assert (Hpos : 0 < lc_height child) by (simpl; lra).
  assert (Hinv : tweenInv (children (sc_layout s) ++ [child]) (sc_world s)).
  { unfold tweenInv. simpl.
    split; [intros t [] |].
    split; [constructor |].
    split; [intros t [] |].
    split.
    - intros [| i] c0 id Hi Hid; simpl in Hi.
      + injection Hi as <-. discriminate.
      + destruct i; discriminate.
    - intros [| i] [| j] c0 c1 id Hi Hj _ _; simpl in Hi, Hj;
        try reflexivity;
        try (destruct i; discriminate); destruct j; discriminate. }
  assert (Hret : snd (addChild 0.5 toLocal g child (mkVec 30 40) true s)
                 = Ok tt).
  { rewrite addChild_eq. cbv zeta. cbn [snd].
    apply doLayout_returns. simpl.
    assert (Hc : placeChildThrows g child = false).
    { unfold placeChildThrows.
      destruct (Rle_dec (lc_height child) 0); reflexivity. }
    repeat constructor; exact Hc. }
  destruct (addChild 0.5 toLocal g child (mkVec 30 40) true s)
    as [s' r] eqn:H.
  simpl in Hret. subst r. cbn [fst].
  destruct (added_child_starts_where_it_was
              0.5 toLocal g child (mkVec 30 40) true s s'
              eq_refl eq_refl Hpos eq_refl Hinv H)
    as (c' & Hc' & Hx & Hy & _).
  exists c'. split; [exact Hc' |]. split; [exact Hx | exact Hy].
Defined.

(* ------------------------------------------------------------------ *)
(** ** Empathy *)

Lemma lastTold_app :
  forall i told new,
    lastTold i (told ++ new)
    = match lastTold i new with
      | Some b => Some b
      | None => lastTold i told
      end.
Proof.
  intros i told new. unfold lastTold.
  rewrite rev_app_distr, filter_app.
  destruct (filter (fun ib => (fst ib =? i)%nat) (rev new)); reflexivity.
Qed.

Lemma lastTold_none :
  forall i new,
    (forall ib, In ib new -> fst ib <> i) -> lastTold i new = None.
Proof.
  intros i new H. unfold lastTold.
  rewrite filter_nil_when; [reflexivity |].
  intros ib Hib. apply Nat.eqb_neq. apply H. now apply in_rev.
Qed.

Lemma lastTold_all :
  forall i b new,
    (forall ib, In ib new -> snd ib = b) ->
    (exists ib, In ib new /\ fst ib = i) ->
    lastTold i new = Some b.
Proof.
  intros i b new Hall (ib & Hin & Hi). unfold lastTold.
  destruct (filter (fun ib0 => (fst ib0 =? i)%nat) (rev new))
    as [| ib0 rest] eqn:E.
  - exfalso.
    assert (Hmem : In ib (filter (fun ib0 => (fst ib0 =? i)%nat) (rev new))).
    { apply filter_In. split; [now apply in_rev in Hin |].
      now apply Nat.eqb_eq. }
    rewrite E in Hmem. exact Hmem.
  - f_equal. apply Hall. apply in_rev.
    assert (Hmem : In ib0 (filter (fun ib1 => (fst ib1 =? i)%nat) (rev new)))
      by (rewrite E; now left).
    apply filter_In in Hmem. exact (proj1 Hmem).
Qed.

Lemma tellEmpathy_In :
  forall enabled attached n i f,
    In (i, f) (tellEmpathy enabled attached n)
    <-> (f = enabled /\ (i < n)%nat /\ attached i = true).
Proof.
  intros enabled attached n i f. unfold tellEmpathy.
  rewrite in_map_iff. split.
  - intros (j & Hj & Hin). injection Hj as -> ->.
    apply filter_In in Hin. destruct Hin as [Hseq Hatt].
    apply in_seq in Hseq. repeat split; [lia | exact Hatt].
  - intros (-> & Hlt & Hatt). exists i. split; [reflexivity |].
    apply filter_In. split; [apply in_seq; lia | exact Hatt].
Qed.

Lemma NoDup_map_injective :
  forall (A B : Type) (f : A -> B) (l : list A),
    (forall a b, f a = f b -> a = b) -> NoDup l -> NoDup (map f l).
Proof.
  intros A B f l Hinj Hnd.
  induction Hnd as [| a l Hnotin _ IH]; simpl; constructor; [| exact IH].
  intros Hin. apply in_map_iff in Hin. destruct Hin as (b & Hb & Hin).
  apply Hinj in Hb. subst b. exact (Hnotin Hin).
Qed.

Lemma tellEmpathy_NoDup :
  forall enabled attached n, NoDup (tellEmpathy enabled attached n).
Proof.
  intros enabled attached n. unfold tellEmpathy.
  apply NoDup_map_injective.
  - intros i j Hij. now injection Hij.
  - apply NoDup_filter. apply seq_NoDup.
Qed.

Lemma fold_checkSetDraggable :
  forall l w,
    let w' := fold_left (fun w0 i => call i checkSetDraggable w0) l w in
    in_flight w' = in_flight w /\ next_id w' = next_id w
    /\ calls w' = calls w ++ map (fun i => (i, checkSetDraggable)) l.
Proof.
  intros l. induction l as [| i rest IH]; intros w; cbv zeta.
  - simpl. now rewrite app_nil_r.
  - simpl fold_left.
    destruct (IH (call i checkSetDraggable w)) as (Hf & Hn & Hc).
    cbv zeta in Hf, Hn, Hc. rewrite Hf, Hn, Hc. simpl.
    now rewrite <- app_assoc.
Qed.

Lemma doLayout_empathy :
  forall L g self w,
    empathy (fst (fst (doLayout L g self w))) = empathy self.
Proof.
  intros L g self w. rewrite doLayout_eq.
  destruct (placeChildren L g self (passSpacing g self) 0
                          (passStartX g self) (children self) w)
    as [[cs' w'] r].
  reflexivity.
Qed.

(** While the container's empathy is on, the card of every child whose
    card visual is there was last told that empathy is on: the methods of
    the container keep it so, whether the pass they run returns or
    throws. *)
Lemma empathyInv_kept :
  forall (L : R) (toLocal : CardLayout -> Vector2d -> Vector2d)
         (g : Globals) (s : Scene),
    empathyInv s ->
    (forall child pos attached,
        empathyInv (fst (addChild L toLocal g child pos attached s)))
    /\ (forall enabled, empathyInv (setEmpathy enabled s))
    /\ empathyInv (checkSetDraggableAll s)
    /\ empathyInv (fst (setChildrenIndices L g s)).
Proof.
  intros L toLocal g s Hinv.
  split; [| split; [| split]].
  - intros child pos attached.
    rewrite addChild_eq. cbv zeta. cbn [fst].
    unfold empathyInv.
    cbn [sc_layout sc_empathy sc_attached].
    rewrite doLayout_empathy, doLayout_length.
    cbn [empathy children set_children].
    rewrite length_app. simpl List.length.
    intros Hon i Hi Hatt. rewrite Hon.
    rewrite lastTold_app.
    destruct (Nat.eq_dec i (List.length (children (sc_layout s))))
      as [-> | Hne].
    + unfold lastTold. simpl. now rewrite Nat.eqb_refl.
    + rewrite lastTold_none.
      * apply Nat.eqb_neq in Hne. rewrite Hne in Hatt.
        apply (Hinv Hon); [| exact Hatt].
        apply Nat.eqb_neq in Hne. lia.
      * intros ib [<- | []]. simpl. auto.
  - intros enabled. unfold setEmpathy.
    destruct (Bool.eqb enabled (empathy (sc_layout s))) eqn:E;
      [exact Hinv |].
    unfold empathyInv. cbn [sc_layout sc_empathy sc_attached empathy
                            set_empathy children].
    intros -> i Hi Hatt.
    rewrite lastTold_app.
    rewrite (lastTold_all i true).
    + reflexivity.
    + intros [j f] Hin. apply tellEmpathy_In in Hin. simpl. tauto.
    + exists (i, true). split; [| reflexivity].
      apply tellEmpathy_In. auto.
  - unfold checkSetDraggableAll, empathyInv.
    cbn [sc_layout sc_empathy sc_attached]. exact Hinv.
  - unfold setChildrenIndices.
    pose proof (doLayout_length L g (sc_layout s) (sc_world s)) as Hlen.
    pose proof (doLayout_empathy L g (sc_layout s) (sc_world s)) as Hemp.
    destruct (doLayout L g (sc_layout s) (sc_world s)) as [[self' w'] r].
    cbn [fst snd] in *. unfold empathyInv.
    cbn [sc_layout sc_empathy sc_attached].
    rewrite Hlen, Hemp. exact Hinv.
Qed.

(** X14.  [setEmpathy] stores the flag and touches neither the children nor
    the world.  When the flag changes, it tells the flag, once each and in
    the order of the children, to the cards of exactly those children whose
    card visual is there; when the flag is the one the container has, it
    does nothing, so that setting the same flag twice is setting it once. *)
Theorem setEmpathy_tells_the_attached_cards :
  forall (enabled : bool) (s : Scene),
    let s' := setEmpathy enabled s in
    let n := List.length (children (sc_layout s)) in
    empathy (sc_layout s') = enabled
    /\ children (sc_layout s') = children (sc_layout s)
    /\ sc_world s' = sc_world s
    /\ setEmpathy enabled s' = s'
    /\ exists new,
        sc_empathy s' = sc_empathy s ++ new
        /\ NoDup new
        /\ map fst new
           = (if Bool.eqb enabled (empathy (sc_layout s)) then []
              else filter (sc_attached s) (seq 0 n))
        /\ forall i f,
            In (i, f) new
            <-> (enabled <> empathy (sc_layout s) /\ f = enabled
                 /\ (i < n)%nat /\ sc_attached s i = true).
Proof.
  intros enabled s s' n. subst s'. unfold setEmpathy.
  destruct (Bool.eqb enabled (empathy (sc_layout s))) eqn:E.
  - apply Bool.eqb_prop in E.
    split; [now rewrite E |]. split; [reflexivity |].
    split; [reflexivity |].
    split.
    { rewrite E at 1. now rewrite Bool.eqb_reflx. }
    exists []. split; [now rewrite app_nil_r |].
    split; [constructor |]. split; [reflexivity |].
    intros i f. split; [intros [] | intros (Hne & _); congruence].
  - cbn [sc_layout sc_world sc_empathy empathy set_empathy children].
    split; [reflexivity |]. split; [reflexivity |].
    split; [reflexivity |].
    split; [now rewrite Bool.eqb_reflx |].
    exists (tellEmpathy enabled (sc_attached s) n).
    split; [reflexivity |].
    split; [apply tellEmpathy_NoDup |].
    split.
    { unfold tellEmpathy. rewrite map_map. simpl. apply map_id. }
    intros i f. rewrite tellEmpathy_In.
    apply Bool.eqb_false_iff in E. tauto.
Qed.

Lemma setEmpathy_tells_the_attached_cards_witness :
  let c := mkChild 100 100 7 8 1 1 0 1 true None false (mkCard None) in
  let self := mkLayout 400 100 (mkVec 0 0) "left" false 0 false [c; c] in
  let s :=
    mkScene self (mkWorld [] 0 []) (fun i => (i =? 1)%nat) [(0%nat, true)] in
  sc_empathy (setEmpathy true s) = [(0%nat, true); (1%nat, true)]
  /\ setEmpathy true (setEmpathy true s) = setEmpathy true s.
Proof.
  intros c self s. split; [reflexivity |].
  exact (proj1 (proj2 (proj2 (proj2
           (setEmpathy_tells_the_attached_cards true s))))).
Defined.

(** X15.  [checkSetDraggableAll] has the draggability of every child
    checked, once each and in the order of the children, and does nothing
    else: no tween starts or stops, and the container, its children and the
    empathy calls stay as they were. *)
Theorem checkSetDraggableAll_checks_each_child_once :
  forall s : Scene,
    let s' := checkSetDraggableAll s in
    let n := List.length (children (sc_layout s)) in
    sc_layout s' = sc_layout s
    /\ sc_empathy s' = sc_empathy s
    /\ in_flight (sc_world s') = in_flight (sc_world s)
    /\ next_id (sc_world s') = next_id (sc_world s)
    /\ calls (sc_world s')
       = calls (sc_world s)
         ++ map (fun i => (i, checkSetDraggable)) (seq 0 n)
    /\ forall k,
        callsOn k (calls (sc_world s'))
        = callsOn k (calls (sc_world s))
          ++ (if (k <? n)%nat then [checkSetDraggable] else []).
Proof.
  intros s s' n. subst s'. unfold checkSetDraggableAll.
  cbn [sc_layout sc_world sc_empathy]. fold n.
  destruct (fold_checkSetDraggable (seq 0 n) (sc_world s))
    as (Hf & Hn & Hc).
  cbv zeta in Hf, Hn, Hc.
  split; [reflexivity |]. split; [reflexivity |].
  split; [exact Hf |]. split; [exact Hn |]. split; [exact Hc |].
  intros k. rewrite Hc, callsOn_app. f_equal.
  unfold callsOn.
  assert (Hgen : forall m a,
             map snd
                 (filter (fun ic : nat * Call => (fst ic =? k)%nat)
                         (map (fun i => (i, checkSetDraggable)) (seq a m)))
             = if ((a <=? k) && (k <? a + m))%nat
               then [checkSetDraggable] else []).
  { induction m as [| m IH]; intros a.
    - simpl. replace (k <? a + 0)%nat with (k <? a)%nat
        by (f_equal; lia).
      destruct (a <=? k)%nat eqn:E1; [| reflexivity].
      destruct (k <? a)%nat eqn:E2; [| reflexivity].
      apply Nat.leb_le in E1. apply Nat.ltb_lt in E2. lia.
    - simpl. destruct (a =? k)%nat eqn:Ea; simpl; rewrite (IH (S a)).
      + apply Nat.eqb_eq in Ea. subst a.
        replace (S k <=? k)%nat with false
          by (symmetry; apply Nat.leb_gt; lia).
        replace (k <=? k)%nat with true
          by (symmetry; apply Nat.leb_le; lia).
        replace (k <? k + S m)%nat with true
          by (symmetry; apply Nat.ltb_lt; lia).
        reflexivity.
      + apply Nat.eqb_neq in Ea.
        replace (k <? S a + m)%nat with (k <? a + S m)%nat
          by (f_equal; lia).
        destruct (k <? a + S m)%nat; [| now rewrite !Bool.andb_false_r].
        rewrite !Bool.andb_true_r.
        destruct (S a <=? k)%nat eqn:E1, (a <=? k)%nat eqn:E2;
          try reflexivity.
        * apply Nat.leb_le in E1. apply Nat.leb_gt in E2. lia.
        * apply Nat.leb_gt in E1. apply Nat.leb_le in E2. lia. }
  rewrite (Hgen n 0%nat). simpl. reflexivity.
Qed.

(* ------------------------------------------------------------------ *)
(** ** Renumbering the children *)

Lemma placeChildren_other_children :
  forall L g self cs' spacing cs i x w,
    placeChildren L g (set_children cs' self) spacing i x cs w
    = placeChildren L g self spacing i x cs w.
Proof.
  intros L g self cs' spacing cs.
  induction cs as [| c rest IH]; intros i x w; [reflexivity |].
  rewrite !placeChildren_cons.
  replace (placeChild L g (set_children cs' self) spacing i x c w)
    with (placeChild L g self spacing i x c w) by reflexivity.
  destruct (placeChild L g self spacing i x c w)
    as [[c1 w1] [x1 | msg]]; [| reflexivity].
  now rewrite IH.
Qed.

Lemma doLayout_instant_fixed :
  forall L g self w self1 w1 r w2,
    animateFast g = true ->
    doLayout L g self w = (self1, w1, r) ->
    fst (fst (doLayout L g self1 w2)) = self1.
Proof.
  intros L g self w self1 w1 r w2 Hfast H.
  rewrite doLayout_eq in H.
  pose proof (placeChildren_sameNatural L g self (passSpacing g self)
                (children self) 0 (passStartX g self) w) as Hsame.
  pose proof (placeChildren_instant_again L g self (passSpacing g self)
                (children self) 0 (passStartX g self) w w2 Hfast) as Hagain.
  destruct (placeChildren L g self (passSpacing g self) 0
                          (passStartX g self) (children self) w)
    as [[cs' w'] r'].
  injection H as <- _ _.
  cbn [fst snd] in *.
  destruct (sameNatural_pass g self cs' Hsame) as [Hs Hx].
  rewrite doLayout_eq, Hs, Hx.
  change (children (set_children cs' self)) with cs'.
  rewrite placeChildren_other_children.
  destruct (placeChildren L g self (passSpacing g self) 0
                          (passStartX g self) cs' w2)
    as [[cs'' w''] r''].
  cbn [fst snd] in *. now rewrite Hagain.
Qed.

(** X16.  In instant mode, [addChild] returns normally, and a renumbering
    of the children right after it, which lays the container out again,
    returns normally too and finds every child where [addChild] has put it:
    the container is the same, and no card is told anything about
    empathy. *)
Theorem renumbering_after_an_instant_add_changes_nothing :
  forall (L : R) (toLocal : CardLayout -> Vector2d -> Vector2d)
         (g : Globals) (child : LayoutChild) (pos : Vector2d)
         (attached : bool) (s : Scene),
    animateFast g = true ->
    let s1 := fst (addChild L toLocal g child pos attached s) in
    let s2 := fst (setChildrenIndices L g s1) in
    snd (addChild L toLocal g child pos attached s) = Ok tt
    /\ snd (setChildrenIndices L g s1) = Ok tt
    /\ sc_layout s2 = sc_layout s1
    /\ sc_empathy s2 = sc_empathy s1
    /\ exists new, calls (sc_world s2) = calls (sc_world s1) ++ new.
Proof.
  intros L toLocal g child pos attached s Hfast s1 s2. subst s2 s1.
  rewrite addChild_eq. cbv zeta. cbn [fst snd].
  set (self := sc_layout s).
  set (child1 := set_y (vy (toLocal self pos))
                       (set_x (vx (toLocal self pos)) child)).
  set (self1 := set_children (children self ++ [child1]) self).
  split; [now apply doLayout_instant_returns |].
  destruct (doLayout L g self1 (sc_world s)) as [[self' w'] r] eqn:Hpass.
  cbn [fst snd]. unfold setChildrenIndices.
  cbn [sc_layout sc_world sc_empathy sc_attached].
  pose proof (doLayout_instant_fixed _ _ _ _ _ _ _ w' Hfast Hpass) as Hfix.
  pose proof (doLayout_instant_returns L g self' w' Hfast) as Hret.
  assert (Hlog : exists new,
             calls (snd (fst (doLayout L g self' w'))) = calls w' ++ new).
  { rewrite doLayout_eq.
    destruct (placeChildren L g self' (passSpacing g self') 0
                            (passStartX g self') (children self') w')
      as [[cs2 w2] r2] eqn:E.
    destruct (placeChildren_calls _ _ _ _ _ _ _ _ _ _ _ E)
      as (new & Hnew & _).
    now exists new. }
  destruct (doLayout L g self' w') as [[self2 w2] r2].
  cbn [fst snd sc_layout sc_world sc_empathy] in *.
  split; [exact Hret |]. split; [exact Hfix |].
  split; [reflexivity | exact Hlog].
Qed.

Lemma renumbering_after_an_instant_add_changes_nothing_witness :
  let g := mkGlobals true false false [] [] in
  let child :=
    mkChild 100 100 7 8 1 1 0 1 true None false (mkCard None) in
  let self := mkLayout 400 100 (mkVec 0 0) "left" false 0 true [] in
  let s := mkScene self (mkWorld [] 0 []) (fun _ => true) [] in
  let toLocal := fun (_ : CardLayout) (v : Vector2d) => v in
  let s1 := fst (addChild 0.5 toLocal g child (mkVec 30 40) true s) in
  animateFast g = true
  /\ sc_layout (fst (setChildrenIndices 0.5 g s1)) = sc_layout s1.
Proof.
  intros g child self s toLocal s1. split; [reflexivity |].
  exact (proj1 (proj2 (proj2
           (renumbering_after_an_instant_add_changes_nothing
              0.5 toLocal g child (mkVec 30 40) true s eq_refl)))).
Defined.

(* ------------------------------------------------------------------ *)
(** ** The efficiency labels *)

(** What a run that returns stores, label by label. *)
Lemma onEfficiencyChanged_Ok :
  forall (LABEL_COLOR : string)
         (efficiency : R -> R -> EfficiencyView.Number)
         (toFixed2 : R -> string)
         (measureNumber measurePipe : string -> option R)
         (view : EfficiencyView.View) (data : EfficiencyView.Data)
         (ui ui' : EfficiencyView.Labels),
    EfficiencyView.onEfficiencyChanged
      LABEL_COLOR efficiency toFixed2 measureNumber measurePipe view data ui
    = (ui', Ok tt) ->
    exists eff pipe min size pipeSize,
      EfficiencyView.efficiencyNumberLabel ui = Some eff
      /\ EfficiencyView.efficiencyPipeLabel ui = Some pipe
      /\ EfficiencyView.efficiencyMinNeededLabel ui = Some min
      /\ measureNumber
           (EfficiencyView.efficiencyText
              toFixed2
              (EfficiencyView.futureEfficiency efficiency view data))
         = Some size
      /\ measurePipe (EfficiencyView.tl_text pipe) = Some pipeSize
      /\ ui'
         = let text :=
               EfficiencyView.efficiencyText
                 toFixed2
                 (EfficiencyView.futureEfficiency efficiency view data) in
           EfficiencyView.mkLabels
             (Some (EfficiencyView.mkTextLabel
                      text (EfficiencyView.tl_x eff) (Some size)
                      (if EfficiencyView.modified view then "#00ffff"
                       else LABEL_COLOR)))
             (Some (EfficiencyView.mkTextLabel
                      (EfficiencyView.tl_text pipe)
                      (EfficiencyView.tl_x eff + size)
                      (EfficiencyView.tl_width pipe)
                      (EfficiencyView.tl_fill pipe)))
             (Some (EfficiencyView.mkTextLabel
                      (EfficiencyView.tl_text min)
                      (EfficiencyView.tl_x eff + size + pipeSize)
                      (EfficiencyView.tl_width min)
                      (EfficiencyView.tl_fill min)))
             (S (EfficiencyView.batchDraws ui)).
Proof.
  intros LABEL_COLOR efficiency toFixed2 measureNumber measurePipe
         view data ui ui' H.
  unfold EfficiencyView.onEfficiencyChanged in H.
  destruct (EfficiencyView.efficiencyNumberLabel ui) as [eff |];
    [| discriminate].
  destruct (EfficiencyView.efficiencyPipeLabel ui) as [pipe |];
    [| discriminate].
  destruct (EfficiencyView.efficiencyMinNeededLabel ui) as [min |];
    [| discriminate].
  cbv zeta in H. cbn [EfficiencyView.tl_text EfficiencyView.tl_x] in H.
  destruct (measureNumber _) as [size |] eqn:Hsize; [| discriminate].
  destruct (measurePipe _) as [pipeSize |] eqn:Hpipe; [| discriminate].
  injection H as <-.
  exists eff, pipe, min, size, pipeSize.
  split; [reflexivity |]. split; [reflexivity |]. split; [reflexivity |].
  split; [reflexivity |]. split; [exact Hpipe |].
  reflexivity.
Qed.

(** X17.  [onEfficiencyChanged] throws, in this order of precedence, when
    the number label, the pipe label or the minimum-efficiency label is not
    there, leaving everything as it was; when the width measured for the new
    text of the number label is not a number, the number label having got
    its text and that width already; and when the width measured for the
    text of the pipe label is not a number, the pipe label having been moved
    already.  Otherwise it returns: the number label is where it was and as
    wide as its new text measures, the pipe label starts where the number
    label ends, and the minimum-efficiency label starts where the text of
    the pipe label ends; the texts, widths and colours of these two labels
    are as they were, and one redraw is asked for. *)
Theorem efficiency_labels_line_up :
  forall (LABEL_COLOR : string)
         (efficiency : R -> R -> EfficiencyView.Number)
         (toFixed2 : R -> string)
         (measureNumber measurePipe : string -> option R)
         (view : EfficiencyView.View) (data : EfficiencyView.Data)
         (ui : EfficiencyView.Labels),
    let update :=
      EfficiencyView.onEfficiencyChanged
        LABEL_COLOR efficiency toFixed2 measureNumber measurePipe in
    let text :=
      EfficiencyView.efficiencyText
        toFixed2 (EfficiencyView.futureEfficiency efficiency view data) in
    (EfficiencyView.efficiencyNumberLabel ui = None ->
     update view data ui
     = (ui, Throw (EfficiencyView.notInitialized "efficiencyNumberLabel")))
    /\ (EfficiencyView.efficiencyNumberLabel ui <> None ->
        EfficiencyView.efficiencyPipeLabel ui = None ->
        update view data ui
        = (ui, Throw (EfficiencyView.notInitialized "efficiencyPipeLabel")))
    /\ (EfficiencyView.efficiencyNumberLabel ui <> None ->
        EfficiencyView.efficiencyPipeLabel ui <> None ->
        EfficiencyView.efficiencyMinNeededLabel ui = None ->
        update view data ui
        = (ui,
           Throw (EfficiencyView.notInitialized
                    "efficiencyNumberLabelMinNeeded")))
    /\ (forall eff pipe min,
          EfficiencyView.efficiencyNumberLabel ui = Some eff ->
          EfficiencyView.efficiencyPipeLabel ui = Some pipe ->
          EfficiencyView.efficiencyMinNeededLabel ui = Some min ->
          (measureNumber text = None ->
           update view data ui
           = (EfficiencyView.mkLabels
                (Some (EfficiencyView.mkTextLabel
                         text (EfficiencyView.tl_x eff) None
                         (EfficiencyView.tl_fill eff)))
                (Some pipe) (Some min) (EfficiencyView.batchDraws ui),
              Throw "The width of effLabel was not a number."))
          /\ (forall size,
                 measureNumber text = Some size ->
                 measurePipe (EfficiencyView.tl_text pipe) = None ->
                 update view data ui
                 = (EfficiencyView.mkLabels
                      (Some (EfficiencyView.mkTextLabel
                               text (EfficiencyView.tl_x eff) (Some size)
                               (EfficiencyView.tl_fill eff)))
                      (Some (EfficiencyView.mkTextLabel
                               (EfficiencyView.tl_text pipe)
                               (EfficiencyView.tl_x eff + size)
                               (EfficiencyView.tl_width pipe)
                               (EfficiencyView.tl_fill pipe)))
                      (Some min) (EfficiencyView.batchDraws ui),
                    Throw "The width of effPipeLabel was not a number.")))
    /\ ((exists ui', update view data ui = (ui', Ok tt))
        <-> (EfficiencyView.efficiencyNumberLabel ui <> None
             /\ EfficiencyView.efficiencyMinNeededLabel ui <> None
             /\ measureNumber text <> None
             /\ exists pipe,
                 EfficiencyView.efficiencyPipeLabel ui = Some pipe
                 /\ measurePipe (EfficiencyView.tl_text pipe) <> None))
    /\ forall ui',
        update view data ui = (ui', Ok tt) ->
        exists eff pipe min eff' pipe' min' size pipeSize,
          EfficiencyView.efficiencyNumberLabel ui = Some eff
          /\ EfficiencyView.efficiencyPipeLabel ui = Some pipe
          /\ EfficiencyView.efficiencyMinNeededLabel ui = Some min
          /\ EfficiencyView.efficiencyNumberLabel ui' = Some eff'
          /\ EfficiencyView.efficiencyPipeLabel ui' = Some pipe'
          /\ EfficiencyView.efficiencyMinNeededLabel ui' = Some min'
          /\ EfficiencyView.tl_text eff' = text
          /\ EfficiencyView.tl_x eff' = EfficiencyView.tl_x eff
          /\ measureNumber (EfficiencyView.tl_text eff') = Some size
          /\ EfficiencyView.tl_width eff' = Some size
          /\ EfficiencyView.tl_x pipe' = EfficiencyView.tl_x eff' + size
          /\ measurePipe (EfficiencyView.tl_text pipe') = Some pipeSize
          /\ EfficiencyView.tl_x min' = EfficiencyView.tl_x pipe' + pipeSize
          /\ (EfficiencyView.tl_text pipe' = EfficiencyView.tl_text pipe
              /\ EfficiencyView.tl_width pipe' = EfficiencyView.tl_width pipe
              /\ EfficiencyView.tl_fill pipe' = EfficiencyView.tl_fill pipe)
          /\ (EfficiencyView.tl_text min' = EfficiencyView.tl_text min
              /\ EfficiencyView.tl_width min' = EfficiencyView.tl_width min
              /\ EfficiencyView.tl_fill min' = EfficiencyView.tl_fill min)
          /\ EfficiencyView.batchDraws ui'
             = S (EfficiencyView.batchDraws ui).
Proof.
  intros LABEL_COLOR efficiency toFixed2 measureNumber measurePipe
         view data ui update text.
  split; [| split; [| split; [| split; [| split]]]].
  - intros H. unfold update, EfficiencyView.onEfficiencyChanged.
    now rewrite H.
  - intros H1 H2. unfold update, EfficiencyView.onEfficiencyChanged.
    destruct (EfficiencyView.efficiencyNumberLabel ui); [| contradiction].
    now rewrite H2.
  - intros H1 H2 H3. unfold update, EfficiencyView.onEfficiencyChanged.
    destruct (EfficiencyView.efficiencyNumberLabel ui); [| contradiction].
    destruct (EfficiencyView.efficiencyPipeLabel ui); [| contradiction].
    now rewrite H3.
  - intros eff pipe min He Hp Hm.
    unfold update, EfficiencyView.onEfficiencyChanged.
    rewrite He, Hp, Hm. cbv zeta.
    cbn [EfficiencyView.tl_text EfficiencyView.tl_x].
    fold text. split.
    + intros Hnone. now rewrite Hnone.
    + intros size Hsize Hnone. now rewrite Hsize, Hnone.
  - split.
    + intros [ui' H].
      destruct (onEfficiencyChanged_Ok _ _ _ _ _ _ _ _ _ H)
        as (eff & pipe & min & size & pipeSize
            & He & Hp & Hm & Hsize & Hpipe & _).
      fold text in Hsize.
      split; [congruence |]. split; [congruence |].
      split; [congruence |].
      exists pipe. split; [exact Hp | congruence].
    + intros (H1 & H3 & Hsize & pipe & Hp & Hpipe).
      unfold update, EfficiencyView.onEfficiencyChanged.
      destruct (EfficiencyView.efficiencyNumberLabel ui);
        [| contradiction].
      rewrite Hp.
      destruct (EfficiencyView.efficiencyMinNeededLabel ui);
        [| contradiction].
      cbv zeta. cbn [EfficiencyView.tl_text EfficiencyView.tl_x].
      fold text.
      destruct (measureNumber text); [| contradiction].
      destruct (measurePipe (EfficiencyView.tl_text pipe));
        [| contradiction].
      eexists. reflexivity.
  - intros ui' H.
    destruct (onEfficiencyChanged_Ok _ _ _ _ _ _ _ _ _ H)
      as (eff & pipe & min & size & pipeSize
          & He & Hp & Hm & Hsize & Hpipe & ->).
    fold text in Hsize. fold text.
    exists eff, pipe, min. cbv zeta.
    do 3 eexists. exists size, pipeSize.
    split; [exact He |]. split; [exact Hp |]. split; [exact Hm |].
    split; [reflexivity |]. split; [reflexivity |].
    split; [reflexivity |].
    cbn. split; [reflexivity |]. split; [reflexivity |].
    split; [exact Hsize |]. split; [reflexivity |].
    split; [reflexivity |]. split; [exact Hpipe |].
    repeat split.
Qed.

Lemma efficiency_labels_line_up_witness :
  let label := EfficiencyView.mkTextLabel "1.25" 10 (Some 30) "#ffffff" in
  let ui :=
    EfficiencyView.mkLabels (Some label) (Some label) (Some label) 0 in
  let view := EfficiencyView.mkView true 0 in
  let data := EfficiencyView.mkData 3 0 25 None in
  exists ui',
    EfficiencyView.onEfficiencyChanged
      "#d8d5ef" (fun _ _ => EfficiencyView.notFinite) (fun _ => "0.00")
      (fun _ => Some 12) (fun _ => Some 5) view data ui
    = (ui', Ok tt)
    /\ EfficiencyView.batchDraws ui' = 1%nat.
Proof.
  intros label ui view data.
  eexists. split; [reflexivity |].
  destruct (proj2 (proj2 (proj2 (proj2 (proj2
              (efficiency_labels_line_up
                 "#d8d5ef" (fun _ _ => EfficiencyView.notFinite)
                 (fun _ => "0.00") (fun _ => Some 12) (fun _ => Some 5)
                 view data ui))))) _ eq_refl)
    as (eff & pipe & min & eff' & pipe' & min' & size & pipeSize & H).
  exact (proj2 (proj2 (proj2 (proj2 (proj2 (proj2 (proj2 (proj2
          (proj2 (proj2 (proj2 (proj2 (proj2 (proj2
          (proj2 H))))))))))))))).
Defined.

Lemma modified_iff :
  forall view,
    EfficiencyView.modified view = true
    <-> (EfficiencyView.visibleIsOngoing view = true
         /\ EfficiencyView.efficiencyModifier view <> 0).
Proof.
  intros view. unfold EfficiencyView.modified.
  destruct (EfficiencyView.visibleIsOngoing view); simpl.
  - destruct (Req_EM_T (EfficiencyView.efficiencyModifier view) 0)
      as [Hz | Hnz].
    + split; [discriminate | intros [_ Hne]; contradiction].
    + split; [intros _; split; [reflexivity | exact Hnz] | reflexivity].
  - split; [discriminate | intros [Hf _]; discriminate].
Qed.

(** X18.  The manual modification of the efficiency counts only while the
    ongoing game is the one shown and the modification is not 0: the number
    label is then cyan and the modification is added to the cards gotten;
    otherwise the label has the default colour and the modification plays
    no part.  The potential clues lost play no part in any case. *)
Theorem efficiency_modifier_counts_only_in_the_ongoing_game :
  forall (LABEL_COLOR : string)
         (efficiency : R -> R -> EfficiencyView.Number)
         (toFixed2 : R -> string)
         (measureNumber measurePipe : string -> option R)
         (view : EfficiencyView.View) (data : EfficiencyView.Data)
         (ui : EfficiencyView.Labels),
    LABEL_COLOR <> "#00ffff" ->
    let update :=
      EfficiencyView.onEfficiencyChanged
        LABEL_COLOR efficiency toFixed2 measureNumber measurePipe in
    let ongoing := EfficiencyView.visibleIsOngoing view in
    let m := EfficiencyView.efficiencyModifier view in
    (ongoing = false ->
     forall m',
       update (EfficiencyView.mkView false m') data ui = update view data ui)
    /\ (forall ui' eff',
          update view data ui = (ui', Ok tt) ->
          EfficiencyView.efficiencyNumberLabel ui' = Some eff' ->
          (EfficiencyView.tl_fill eff' = "#00ffff"
           <-> (ongoing = true /\ m <> 0))
          /\ (EfficiencyView.tl_fill eff' = LABEL_COLOR
              <-> (ongoing = false \/ m = 0)))
    /\ (ongoing = true ->
        forall ui1 ui2,
          update view data ui = (ui1, Ok tt) ->
          update (EfficiencyView.mkView true 0)
                 (EfficiencyView.mkData
                    (EfficiencyView.cardsGotten data + m)
                    (EfficiencyView.potentialCluesLost data)
                    (EfficiencyView.maxScore data)
                    (EfficiencyView.cluesStillUsable data))
                 ui
          = (ui2, Ok tt) ->
          (forall eff1 eff2,
              EfficiencyView.efficiencyNumberLabel ui1 = Some eff1 ->
              EfficiencyView.efficiencyNumberLabel ui2 = Some eff2 ->
              EfficiencyView.tl_text eff1 = EfficiencyView.tl_text eff2
              /\ EfficiencyView.tl_width eff1 = EfficiencyView.tl_width eff2)
          /\ EfficiencyView.efficiencyPipeLabel ui1
             = EfficiencyView.efficiencyPipeLabel ui2
          /\ EfficiencyView.efficiencyMinNeededLabel ui1
             = EfficiencyView.efficiencyMinNeededLabel ui2)
    /\ (forall lost,
          update view
                 (EfficiencyView.mkData
                    (EfficiencyView.cardsGotten data) lost
                    (EfficiencyView.maxScore data)
                    (EfficiencyView.cluesStillUsable data))
                 ui
          = update view data ui).
Proof.
  intros LABEL_COLOR efficiency toFixed2 measureNumber measurePipe
         view data ui Hcolor update ongoing m.
  split; [| split; [| split]].
  - intros Hoff m'. unfold ongoing in Hoff.
    unfold update, EfficiencyView.onEfficiencyChanged,
      EfficiencyView.futureEfficiency, EfficiencyView.modified.
    simpl. rewrite Hoff. reflexivity.
  - intros ui' eff' H Heff'.
    destruct (onEfficiencyChanged_Ok _ _ _ _ _ _ _ _ _ H)
      as (eff & pipe & min & size & pipeSize & _ & _ & _ & _ & _ & ->).
    cbv zeta in Heff'. simpl in Heff'. injection Heff' as <-. simpl.
    pose proof (modified_iff view) as Hmod. fold ongoing m in Hmod.
    destruct (EfficiencyView.modified view).
    + split.
      * split; [intros _; now apply Hmod | reflexivity].
      * split; [intros Heq; now symmetry in Heq |].
        destruct (proj1 Hmod eq_refl) as [Hon Hne].
        intros [Hoff | Hz]; [congruence | contradiction].
    + split.
      * split; [intros Heq; contradiction |].
        intros Hboth. apply Hmod in Hboth. discriminate.
      * split; [| reflexivity]. intros _.
        destruct ongoing eqn:Hon; [| now left]. right.
        destruct (Req_EM_T m 0) as [Hz | Hnz]; [exact Hz |].
        assert (Habs : false = true) by (apply Hmod; now split).
        discriminate.
  - intros Hon ui1 ui2 H1 H2.
    destruct (onEfficiencyChanged_Ok _ _ _ _ _ _ _ _ _ H1)
      as (eff & pipe & min & size & pipeSize
          & He & Hp & Hm & Hsize & Hpipe & ->).
    destruct (onEfficiencyChanged_Ok _ _ _ _ _ _ _ _ _ H2)
      as (eff0 & pipe0 & min0 & size0 & pipeSize0
          & He0 & Hp0 & Hm0 & Hsize0 & Hpipe0 & ->).
    rewrite He in He0. injection He0 as <-.
    rewrite Hp in Hp0. injection Hp0 as <-.
    rewrite Hm in Hm0. injection Hm0 as <-.
    assert (Hsame :
              EfficiencyView.futureEfficiency
                efficiency (EfficiencyView.mkView true 0)
                (EfficiencyView.mkData
                   (EfficiencyView.cardsGotten data + m)
                   (EfficiencyView.potentialCluesLost data)
                   (EfficiencyView.maxScore data)
                   (EfficiencyView.cluesStillUsable data))
              = EfficiencyView.futureEfficiency efficiency view data).
    { unfold EfficiencyView.futureEfficiency, EfficiencyView.modified.
      fold ongoing m. rewrite Hon. simpl.
      destruct (Req_EM_T 0 0) as [_ | Hne]; [| now contradiction Hne].
      destruct (Req_EM_T m 0) as [Hz | Hnz]; [| reflexivity].
      rewrite Hz, Rplus_0_r. reflexivity. }
    rewrite Hsame in Hsize0. rewrite Hsize in Hsize0.
    injection Hsize0 as <-.
    rewrite Hpipe in Hpipe0. injection Hpipe0 as <-.
    cbv zeta. rewrite Hsame. simpl.
    split; [| split; reflexivity].
    intros eff1 eff2 E1 E2. injection E1 as <-. injection E2 as <-.
    split; reflexivity.
  - intros lost. reflexivity.
Qed.

Lemma efficiency_modifier_counts_only_in_the_ongoing_game_witness :
  let label := EfficiencyView.mkTextLabel "1.25" 10 (Some 30) "#ffffff" in
  let ui :=
    EfficiencyView.mkLabels (Some label) (Some label) (Some label) 0 in
  let view := EfficiencyView.mkView false 2 in
  let data := EfficiencyView.mkData 3 0 25 None in
  let update :=
    EfficiencyView.onEfficiencyChanged
      "#d8d5ef" (fun _ _ => EfficiencyView.notFinite) (fun _ => "0.00")
      (fun _ => Some 12) (fun _ => Some 5) in
  "#d8d5ef" <> "#00ffff"
  /\ update (EfficiencyView.mkView false 7) data ui = update view data ui.
Proof.
  intros label ui view data update.
  assert (Hcolor : "#d8d5ef" <> "#00ffff") by discriminate.
  split; [exact Hcolor |].
  exact (proj1 (efficiency_modifier_counts_only_in_the_ongoing_game
                  "#d8d5ef" (fun _ _ => EfficiencyView.notFinite)
                  (fun _ => "0.00") (fun _ => Some 12) (fun _ => Some 5)
                  view data ui Hcolor)
               eq_refl 7).
Defined.

(** X19.  Running [onEfficiencyChanged] again on the labels it has left,
    with the same data, changes nothing but the count of redraws: the
    labels are already in line. *)
Theorem efficiency_update_is_idempotent :
  forall (LABEL_COLOR : string)
         (efficiency : R -> R -> EfficiencyView.Number)
         (toFixed2 : R -> string)
         (measureNumber measurePipe : string -> option R)
         (view : EfficiencyView.View) (data : EfficiencyView.Data)
         (ui ui' : EfficiencyView.Labels),
    let update :=
      EfficiencyView.onEfficiencyChanged
        LABEL_COLOR efficiency toFixed2 measureNumber measurePipe in
    update view data ui = (ui', Ok tt) ->
    update view data ui'
    = (EfficiencyView.mkLabels
         (EfficiencyView.efficiencyNumberLabel ui')
         (EfficiencyView.efficiencyPipeLabel ui')
         (EfficiencyView.efficiencyMinNeededLabel ui')
         (S (EfficiencyView.batchDraws ui')),
       Ok tt).
Proof.
  intros LABEL_COLOR efficiency toFixed2 measureNumber measurePipe
         view data ui ui' update H.
  destruct (onEfficiencyChanged_Ok _ _ _ _ _ _ _ _ _ H)
    as (eff & pipe & min & size & pipeSize
        & _ & _ & _ & Hsize & Hpipe & ->).
  unfold update, EfficiencyView.onEfficiencyChanged. cbv zeta.
  cbn [EfficiencyView.efficiencyNumberLabel
         EfficiencyView.efficiencyPipeLabel
         EfficiencyView.efficiencyMinNeededLabel
         EfficiencyView.batchDraws EfficiencyView.tl_text
         EfficiencyView.tl_x EfficiencyView.tl_width
         EfficiencyView.tl_fill].
  rewrite Hsize, Hpipe. reflexivity.
Qed.

Lemma efficiency_update_is_idempotent_witness :
  let label := EfficiencyView.mkTextLabel "1.25" 10 (Some 30) "#ffffff" in
  let ui :=
    EfficiencyView.mkLabels (Some label) (Some label) (Some label) 0 in
  let view := EfficiencyView.mkView true 0 in
  let data := EfficiencyView.mkData 3 0 25 None in
  let update :=
    EfficiencyView.onEfficiencyChanged
      "#d8d5ef" (fun _ _ => EfficiencyView.notFinite) (fun _ => "0.00")
      (fun _ => Some 12) (fun _ => Some 5) in
  exists ui',
    update view data ui = (ui', Ok tt)
    /\ exists ui'',
        update view data ui' = (ui'', Ok tt)
        /\ EfficiencyView.efficiencyPipeLabel ui''
           = EfficiencyView.efficiencyPipeLabel ui'.
Proof.
  intros label ui view data update.
  eexists. split; [reflexivity |].
  eexists. split.
  - exact (efficiency_update_is_idempotent
             "#d8d5ef" (fun _ _ => EfficiencyView.notFinite)
             (fun _ => "0.00") (fun _ => Some 12) (fun _ => Some 5)
             view data ui _ eq_refl).
  - reflexivity.
Defined.

(* ------------------------------------------------------------------ *)
(** ** The pace label *)

Lemma string_of_uint_nonempty :
  forall d, NilZero.string_of_uint d <> EmptyString.
Proof.
  intros d. destruct d; discriminate.
Qed.

Lemma toString_inj :
  forall p q : Z, StatsView.toString p = StatsView.toString q -> p = q.
Proof.
  intros p q H. unfold StatsView.toString in H.
  assert (Hnil : forall z, Z.to_int z <> Decimal.Pos Decimal.Nil
                           /\ Z.to_int z <> Decimal.Neg Decimal.Nil).
  { intros [| a | a]; simpl; split; try discriminate;
      intros Heq; injection Heq as Heq;
      exact (Unsigned.to_uint_nonnil a Heq). }
  apply (f_equal NilZero.int_of_string) in H.
  rewrite !NilZero.isi in H by apply Hnil.
  injection H as H. now apply to_int_inj.
Qed.

(** The first character of the text of a pace that is not positive is not
    the plus sign, and the text is not the lone dash. *)
Lemma toString_head :
  forall q : Z,
    (q <= 0)%Z ->
    (forall rest, StatsView.toString q <> ("+" ++ rest)%string)
    /\ StatsView.toString q <> "-".
Proof.
  intros [| a | a] Hq; [| lia |].
  - split; [intros rest |]; discriminate.
  - split; [intros rest; discriminate |].
    unfold StatsView.toString. simpl. intros H. injection H as H.
    exact (string_of_uint_nonempty _ H).
Qed.

Lemma onPaceOrPaceRiskChanged_Ok :
  forall LABEL_COLOR pace paceRisk ui ui',
    StatsView.onPaceOrPaceRiskChanged LABEL_COLOR pace paceRisk ui = Ok ui' ->
    exists old label,
      StatsView.paceNumberLabel ui = Some old
      /\ StatsView.paceNumberLabel ui' = Some label
      /\ StatsView.batchDraws ui' = S (StatsView.batchDraws ui)
      /\ match pace with
         | None =>
           label = StatsView.mkLabel "-" LABEL_COLOR
           /\ StatsView.console_error ui' = StatsView.console_error ui
         | Some p =>
           StatsView.text label
           = (if (0 <? p)%Z then ("+" ++ StatsView.toString p)%string
              else StatsView.toString p)
           /\ (paceRisk <> StatsView.Null ->
               StatsView.console_error ui' = StatsView.console_error ui)
           /\ (paceRisk = StatsView.Null ->
               exists line,
                 StatsView.console_error ui'
                 = StatsView.console_error ui ++ [line])
         end.
Proof.
  intros LABEL_COLOR pace paceRisk ui ui' H.
  unfold StatsView.onPaceOrPaceRiskChanged in H.
  destruct (StatsView.paceNumberLabel ui) as [old |]; [| discriminate].
  exists old.
  destruct pace as [p |].
  - destruct paceRisk; simpl in H; injection H as <-; simpl;
      eexists; (split; [reflexivity |]); (split; [reflexivity |]);
      (split; [reflexivity |]); (split; [reflexivity |]);
      rewrite ?app_nil_r;
      (split; [intros Hne; try reflexivity; now contradiction Hne |]);
      intros Heq; try discriminate; eexists; reflexivity.
  - simpl in H. injection H as <-. simpl. eexists.
    split; [reflexivity |]. split; [reflexivity |].
    split; [reflexivity |].
    split; [reflexivity | now rewrite app_nil_r].
Qed.

(** X20.  The text of the pace label tells the pace: two runs that leave
    the same text were given the same pace, whatever the risks and the
    labels they started from.  In particular the dash of a null pace is the
    text of no number, and the plus sign marks the positive paces only. *)
Theorem pace_label_tells_the_pace :
  forall (LABEL_COLOR : string) (pace pace' : option Z)
         (paceRisk paceRisk' : StatsView.PaceRisk)
         (ui ui' r r' : StatsView.UI) (l l' : StatsView.Label),
    StatsView.onPaceOrPaceRiskChanged LABEL_COLOR pace paceRisk ui = Ok r ->
    StatsView.onPaceOrPaceRiskChanged LABEL_COLOR pace' paceRisk' ui'
    = Ok r' ->
    StatsView.paceNumberLabel r = Some l ->
    StatsView.paceNumberLabel r' = Some l' ->
    StatsView.text l = StatsView.text l' ->
    pace = pace'.
Proof.
  intros LABEL_COLOR pace pace' paceRisk paceRisk' ui ui' r r' l l'
         H H' Hl Hl' Htext.
  destruct (onPaceOrPaceRiskChanged_Ok _ _ _ _ _ H)
    as (old & label & _ & Hlabel & _ & Hpace).
  destruct (onPaceOrPaceRiskChanged_Ok _ _ _ _ _ H')
    as (old' & label' & _ & Hlabel' & _ & Hpace').
  rewrite Hl in Hlabel. injection Hlabel as <-.
  rewrite Hl' in Hlabel'. injection Hlabel' as <-.
  assert (Hdash : forall p,
             (if (0 <? p)%Z then ("+" ++ StatsView.toString p)%string
              else StatsView.toString p) <> "-").
  { intros p. destruct (0 <? p)%Z eqn:E; [discriminate |].
    apply Z.ltb_ge in E. exact (proj2 (toString_head p E)). }
  destruct pace as [p |], pace' as [q |].
  - destruct Hpace as [Hp _]. destruct Hpace' as [Hq _].
    rewrite Hp, Hq in Htext. f_equal.
    destruct (0 <? p)%Z eqn:Ep, (0 <? q)%Z eqn:Eq.
    + injection Htext as Htext. now apply toString_inj.
    + apply Z.ltb_ge in Eq. symmetry in Htext.
      exfalso. exact (proj1 (toString_head q Eq) _ Htext).
    + apply Z.ltb_ge in Ep.
      exfalso. exact (proj1 (toString_head p Ep) _ Htext).
    + now apply toString_inj.
  - destruct Hpace as [Hp _]. destruct Hpace' as [-> _].
    rewrite Hp in Htext. exfalso. exact (Hdash p Htext).
  - destruct Hpace as [-> _]. destruct Hpace' as [Hq _].
    rewrite Hq in Htext. symmetry in Htext.
    exfalso. exact (Hdash q Htext).
  - reflexivity.
Qed.

Lemma pace_label_tells_the_pace_witness :
  let ui := StatsView.mkUI (Some (StatsView.mkLabel "" "")) [] 0 in
  exists r l,
    StatsView.onPaceOrPaceRiskChanged "#d8d5ef" (Some 3%Z) StatsView.Zero ui
    = Ok r
    /\ StatsView.paceNumberLabel r = Some l
    /\ Some 3%Z = Some 3%Z.
Proof.
  intros ui. do 2 eexists.
  split; [reflexivity |]. split; [reflexivity |].
  exact (pace_label_tells_the_pace
           "#d8d5ef" (Some 3%Z) (Some 3%Z) StatsView.Zero StatsView.LowRisk
           ui ui _ _ _ _ eq_refl eq_refl eq_refl eq_refl eq_refl).
Defined.

(** X21.  [onPaceOrPaceRiskChanged] throws exactly when the pace label is
    not there.  When it returns it asks for one redraw, and it writes to
    the console, one line, exactly when the pace is not null and the risk
    is [Null]: with a null pace the label shows the dash in the default
    colour whatever the risk, [Null] included, and nothing is written. *)
Theorem pace_update_writes_only_for_a_null_risk :
  forall (LABEL_COLOR : string) (pace : option Z)
         (paceRisk : StatsView.PaceRisk) (ui : StatsView.UI),
    let run := StatsView.onPaceOrPaceRiskChanged LABEL_COLOR pace paceRisk ui in
    (run = Throw "paceNumberLabel is not initialized."
     <-> StatsView.paceNumberLabel ui = None)
    /\ ((exists ui', run = Ok ui') <-> StatsView.paceNumberLabel ui <> None)
    /\ forall ui',
        run = Ok ui' ->
        StatsView.batchDraws ui' = S (StatsView.batchDraws ui)
        /\ (StatsView.console_error ui' <> StatsView.console_error ui
            <-> (pace <> None /\ paceRisk = StatsView.Null))
        /\ ((exists line,
                StatsView.console_error ui'
                = StatsView.console_error ui ++ [line])
            \/ StatsView.console_error ui' = StatsView.console_error ui)
        /\ (pace = None ->
            StatsView.paceNumberLabel ui'
            = Some (StatsView.mkLabel "-" LABEL_COLOR)).
Proof.
  intros LABEL_COLOR pace paceRisk ui run.
  assert (Hgrow : forall (l : list string) line, l ++ [line] <> l).
  { intros l line Heq. apply (f_equal (@List.length string)) in Heq.
    rewrite length_app in Heq. simpl in Heq. lia. }
  split; [| split].
  - subst run. unfold StatsView.onPaceOrPaceRiskChanged.
    destruct (StatsView.paceNumberLabel ui) as [old |].
    + split; [| discriminate].
      destruct pace as [p |];
        [destruct (StatsView.colorByRisk LABEL_COLOR p paceRisk _) |];
        discriminate.
    + split; reflexivity.
  - subst run. unfold StatsView.onPaceOrPaceRiskChanged.
    destruct (StatsView.paceNumberLabel ui) as [old |].
    + split; [discriminate |]. intros _.
      destruct pace as [p |];
        [destruct (StatsView.colorByRisk LABEL_COLOR p paceRisk _) |];
        eexists; reflexivity.
    + split; [intros [ui' H]; discriminate | intros H; now contradiction H].
  - intros ui' H.
    destruct (onPaceOrPaceRiskChanged_Ok _ _ _ _ _ H)
      as (old & label & _ & Hlabel & Hdraws & Hpace).
    split; [exact Hdraws |].
    destruct pace as [p |].
    + destruct Hpace as (_ & Hquiet & Hloud).
      assert (Hdec : paceRisk = StatsView.Null \/ paceRisk <> StatsView.Null)
        by (destruct paceRisk; (now left) || (right; discriminate)).
      destruct Hdec as [Hnull | Hother].
      * destruct (Hloud Hnull) as [line Hline].
        split; [| split; [left; now exists line | discriminate]].
        split; [intros _; split; [discriminate | exact Hnull] |].
        intros _. rewrite Hline. apply Hgrow.
      * pose proof (Hquiet Hother) as Hsame.
        split; [| split; [now right | discriminate]].
        split; [intros Hne; contradiction | intros [_ Hn]; contradiction].
    + destruct Hpace as [-> Hsame].
      split; [| split; [now right | intros _; exact Hlabel]].
      split; [intros Hne; contradiction | intros [Hn _]; now contradiction Hn].
Qed.

Lemma pace_update_writes_only_for_a_null_risk_witness :
  let ui := StatsView.mkUI (Some (StatsView.mkLabel "" "")) ["old"] 0 in
  exists ui',
    StatsView.onPaceOrPaceRiskChanged "#d8d5ef" None StatsView.Null ui
    = Ok ui'
    /\ StatsView.batchDraws ui' = 1%nat.
Proof.
  intros ui. eexists. split; [reflexivity |].
  exact (proj1 (proj2 (proj2 (pace_update_writes_only_for_a_null_risk
                                "#d8d5ef" None StatsView.Null ui))
                      _ eq_refl)).
Defined.

(* ------------------------------------------------------------------ *)
(** ** The center of the container *)

(** X22.  Whatever the rotation, the point that [getAbsoluteCenterPos]
    returns is half a diagonal away from the top-left corner; it is the
    corner plus the half-diagonal turned by the rotation, clockwise on a
    screen whose y axis points down; a full turn more gives the same point,
    and half a turn more the point opposite across the corner. *)
Theorem center_is_half_a_diagonal_from_the_corner :
  forall self : CardLayout,
    let pos := absolutePosition self in
    let W := width self in
    let H := height self in
    let theta := origRotation self * PI / 180 in
    let c := getAbsoluteCenterPos self in
    let turned d := getAbsoluteCenterPos
                      (set_origRotation (origRotation self + d) self) in
    (vx c - vx pos) * (vx c - vx pos) + (vy c - vy pos) * (vy c - vy pos)
    = (W / 2) * (W / 2) + (H / 2) * (H / 2)
    /\ c = mkVec (vx pos + ((W / 2) * cos theta - (H / 2) * sin theta))
                 (vy pos + ((W / 2) * sin theta + (H / 2) * cos theta))
    /\ turned 360 = c
    /\ turned 180 = mkVec (vx pos - (vx c - vx pos))
                          (vy pos - (vy c - vy pos)).
Proof.
  intros self pos W H theta c turned.
  assert (Hform : forall r0,
             getAbsoluteCenterPos (set_origRotation r0 self)
             = mkVec (vx pos + ((W / 2) * cos (r0 * PI / 180)
                                - (H / 2) * sin (r0 * PI / 180)))
                     (vy pos + ((W / 2) * sin (r0 * PI / 180)
                                + (H / 2) * cos (r0 * PI / 180)))).
  { intros r0. unfold getAbsoluteCenterPos, set_origRotation.
    cbn [origRotation width height absolutePosition].
    fold pos W H.
    replace (- r0 / 180 * PI) with (- (r0 * PI / 180)) by field.
    rewrite cos_neg, sin_neg. f_equal; ring. }
  assert (Hself : set_origRotation (origRotation self) self = self)
    by (destruct self; reflexivity).
  assert (Hc : c = mkVec (vx pos + ((W / 2) * cos theta
                                    - (H / 2) * sin theta))
                         (vy pos + ((W / 2) * sin theta
                                    + (H / 2) * cos theta))).
  { unfold c. rewrite <- Hself at 1. apply Hform. }
  split; [| split; [exact Hc | split]].
  - rewrite Hc. cbn [vx vy].
    pose proof (sin2_cos2 theta) as Hone. unfold Rsqr in Hone.
    replace ((vx pos + (W / 2 * cos theta - H / 2 * sin theta) - vx pos)
             * (vx pos + (W / 2 * cos theta - H / 2 * sin theta) - vx pos)
             + (vy pos + (W / 2 * sin theta + H / 2 * cos theta) - vy pos)
               * (vy pos + (W / 2 * sin theta + H / 2 * cos theta) - vy pos))
      with ((W / 2 * (W / 2) + H / 2 * (H / 2))
            * (sin theta * sin theta + cos theta * cos theta))
      by ring.
    rewrite Hone. ring.
  - unfold turned. rewrite Hform, Hc.
    replace ((origRotation self + 360) * PI / 180) with (theta + 2 * PI)
      by (unfold theta; field).
    now rewrite cos_plus, sin_plus, cos_2PI, sin_2PI, !Rmult_0_r,
      !Rmult_1_r, Rminus_0_r, Rplus_0_r.
  - unfold turned. rewrite Hform, Hc. cbn [vx vy].
    replace ((origRotation self + 180) * PI / 180) with (theta + PI)
      by (unfold theta; field).
    rewrite cos_plus, sin_plus, cos_PI, sin_PI. f_equal; ring.
Qed.

(* ------------------------------------------------------------------ *)
(** ** What the methods keep *)

Lemma tweenInv_snoc :
  forall cs c w,
    tweenInv cs w -> tween c = None -> tweenInv (cs ++ [c]) w.
Proof.
  intros cs c w (Hfresh & Hnodup & Hslot & Hold & Hinj) Hc.
  assert (Hin : forall i c0 id,
             nth_error (cs ++ [c]) i = Some c0 -> tween c0 = Some id ->
             nth_error cs i = Some c0).
  { intros i c0 id Hi Hid.
    destruct (Nat.lt_ge_cases i (List.length cs)) as [Hlt | Hge].
    - now rewrite nth_error_app1 in Hi.
    - rewrite nth_error_app2 in Hi by exact Hge.
      destruct (i - List.length cs)%nat as [| j]; simpl in Hi.
      + injection Hi as <-. congruence.
      + destruct j; discriminate. }
  unfold tweenInv.
  split; [exact Hfresh |]. split; [exact Hnodup |].
  split; [| split].
  - intros t Ht. destruct (Hslot t Ht) as (c0 & Hc0 & Hid).
    exists c0. split; [| exact Hid].
    rewrite nth_error_app1; [exact Hc0 |].
    apply nth_error_Some. congruence.
  - intros i c0 id Hi Hid. exact (Hold i c0 id (Hin _ _ _ Hi Hid) Hid).
  - intros i j c0 c1 id Hi Hj Hid0 Hid1.
    exact (Hinj i j c0 c1 id (Hin _ _ _ Hi Hid0) (Hin _ _ _ Hj Hid1)
                Hid0 Hid1).
Qed.

(** X23.  Let the tweens in flight and the handle slots of a container be
    in step, and let the card of every child whose card visual is there have
    been last told that empathy is on if the container's empathy is on.
    Then each of [addChild] (of a child whose handle is in step with the
    tweens too, as is a child without a handle), [_setChildrenIndices],
    [checkSetDraggableAll] and [setEmpathy] leaves both so, whether the pass
    it runs returns or throws; in particular at most one tween is in flight
    per child after it.  (Children that leave or change place are not
    covered.) *)
Theorem methods_keep_tweens_and_empathy_in_step :
  forall (L : R) (toLocal : CardLayout -> Vector2d -> Vector2d)
         (g : Globals) (s : Scene),
    tweenInv (children (sc_layout s)) (sc_world s) ->
    empathyInv s ->
    let kept s' :=
      tweenInv (children (sc_layout s')) (sc_world s')
      /\ (forall k, (List.length (tweensOf k (sc_world s')) <= 1)%nat)
      /\ empathyInv s' in
    (forall child pos attached,
        tweenInv (children (sc_layout s) ++ [child]) (sc_world s) ->
        kept (fst (addChild L toLocal g child pos attached s)))
    /\ (forall child,
           tween child = None ->
           tweenInv (children (sc_layout s) ++ [child]) (sc_world s))
    /\ kept (fst (setChildrenIndices L g s))
    /\ kept (checkSetDraggableAll s)
    /\ (forall enabled, kept (setEmpathy enabled s)).
Proof.
  intros L toLocal g s IHt IHe kept.
  assert (Hkept : forall s',
             tweenInv (children (sc_layout s')) (sc_world s') ->
             empathyInv s' -> kept s').
  { intros s' Ht He. split; [exact Ht |]. split; [| exact He].
    intros k. exact (tweensOf_length _ _ k Ht). }
  destruct (empathyInv_kept L toLocal g s IHe)
    as (Hadd & Hset & Hcheck & Hrenumber).
  split; [| split; [| split; [| split]]].
  - intros child pos attached Hjoin.
    apply Hkept; [| apply Hadd].
    rewrite addChild_eq. cbv zeta. cbn [fst sc_layout sc_world].
    set (self := sc_layout s) in *.
    set (child1 := set_y (vy (toLocal self pos))
                         (set_x (vx (toLocal self pos)) child)).
    set (self1 := set_children (children self ++ [child1]) self).
    assert (Hinv1 : tweenInv (children self1) (sc_world s)).
    { apply (tweenInv_reslot (children self) child child1 [] _ Hjoin).
      left. reflexivity. }
    destruct (doLayout L g self1 (sc_world s)) as [[self' w'] r] eqn:Hpass.
    exact (proj1 (doLayout_tweens _ _ _ _ _ _ _ Hinv1 Hpass)).
  - intros child Hchild. now apply tweenInv_snoc.
  - apply Hkept; [| exact Hrenumber].
    unfold setChildrenIndices.
    destruct (doLayout L g (sc_layout s) (sc_world s))
      as [[self' w'] r] eqn:Hpass.
    exact (proj1 (doLayout_tweens _ _ _ _ _ _ _ IHt Hpass)).
  - apply Hkept; [| exact Hcheck].
    unfold checkSetDraggableAll. cbn [sc_layout sc_world].
    destruct (fold_checkSetDraggable
                (seq 0 (List.length (children (sc_layout s))))
                (sc_world s)) as (Hf & Hn & _).
    exact (tweenInv_same_world _ _ _ Hf Hn IHt).
  - intros enabled. apply Hkept; [| apply Hset].
    unfold setEmpathy.
    destruct (Bool.eqb enabled (empathy (sc_layout s))); exact IHt.
Qed.

Lemma methods_keep_tweens_and_empathy_in_step_witness :
  let g := mkGlobals false false false [] [] in
  let child :=
    mkChild 100 100 7 8 1 1 0 1 true None false (mkCard None) in
  let self := mkLayout 400 100 (mkVec 0 0) "left" false 0 true [] in
  let s := mkScene self (mkWorld [] 0 []) (fun _ => true) [] in
  let toLocal := fun (_ : CardLayout) (v : Vector2d) => v in
  let s1 := fst (addChild 0.5 toLocal g child (mkVec 30 40) true s) in
  tweenInv (children (sc_layout s)) (sc_world s)
  /\ empathyInv s
  /\ (forall k, (List.length (tweensOf k (sc_world s1)) <= 1)%nat)
  /\ empathyInv s1.
Proof.
  intros g child self s toLocal s1.
  assert (Hinv : tweenInv (children (sc_layout s)) (sc_world s)).
  { unfold tweenInv. simpl.
    split; [intros t [] |]. split; [constructor |].
    split; [intros t [] |].
    split; [intros [| i] c id Hi; discriminate |].
    intros [| i] j c c' id Hi; discriminate. }
  assert (Hemp : empathyInv s).
  { intros _ i Hi. simpl in Hi. lia. }
  split; [exact Hinv |]. split; [exact Hemp |].
  pose proof (methods_keep_tweens_and_empathy_in_step
                0.5 toLocal g s Hinv Hemp) as (Hadd & Hjoin & _).
  exact (proj2 (Hadd child (mkVec 30 40) true (Hjoin child eq_refl))).
Defined.
